(** * Probing statistics of two open-addressing hash tables

    A shallow embedding of [boost_unordered_flat_map_stats.cpp]: the quadratic
    prober, the lookup accounting record, the two simulated tables
    ([boost_map], groups of 15 keys with an overflow byte, and [abseil_map],
    a flat slot array scanned through 16-wide windows) and the driver
    [stats_row].

    [std::size_t] is taken to be 64 bits wide; values of that type are
    integers of [Z] in the range [0, 2^64) and every arithmetic operation of
    the source is followed by its wrap-around [wrap].  Loops that the source
    writes without a bound ([for(;;)]) take a fuel argument and return [None]
    when it runs out.  [float] is taken to be IEEE 754 binary32 and float
    expressions to be evaluated in that format. *)

From Stdlib Require Import ZArith Znumtheory QArith Lia.
From stdpp Require Import base tactics option list.

Local Open Scope Z_scope.

(** ** Machine words *)

Definition wordsize : Z := 64.
Definition modulus : Z := 2 ^ wordsize.
Definition wrap (x : Z) : Z := x mod modulus.

(** [std::bit_width]: the number of bits needed to write [x], 0 for 0. *)
Definition bit_width (x : Z) : Z :=
  if x =? 0 then 0 else Z.log2 x + 1.

(** Triangular numbers, the offsets of the quadratic probe sequence. *)
Fixpoint tri (i : nat) : Z :=
  match i with
  | O => 0
  | S j => tri j + Z.of_nat (S j)
  end.

(** ** Values of type float

    A finite value is the rational it denotes (the two zeros are not told
    apart); [infinity neg] is the infinity of the given sign. *)

Inductive float : Type :=
| finite (q : Q)
| infinity (negative : bool)
| nan.

(** [num/den] rounded to the nearest integer, ties going to the even one;
    [den] is positive. *)
Definition round_half_even (num den : Z) : Z :=
  let q := num / den in
  match 2 * (num mod den) ?= den with
  | Lt => q
  | Gt => q + 1
  | Eq => if Z.even q then q else q + 1
  end.

(** The exponent [e] with [2^e <= num/den < 2^(e+1)], for positive [num]
    and [den]. *)
Definition floor_log2 (num den : Z) : Z :=
  if den <=? num then Z.log2 (num / den)
  else - Z.log2_up ((den + num - 1) / num).

(** The [float] nearest to a rational, ties to even: 24 significant bits,
    the spacing [2^-149] below [2^-126], infinity from [2^128] on.  This is
    the rounding of every conversion and product below. *)
Definition round_float (x : Q) : float :=
  let num := Z.abs (Qnum x) in
  let den := Z.pos (Qden x) in
  let neg := Qnum x <? 0 in
  if num =? 0 then finite 0
  else
    let t := Z.max (floor_log2 num den) (-126) - 23 in
    let mant :=
      if 0 <=? t then round_half_even num (den * 2 ^ t)
      else round_half_even (num * 2 ^ (- t)) den in
    let mant := if neg then - mant else mant in
    if 0 <=? t then
      if 2 ^ 128 <=? Z.abs mant * 2 ^ t then infinity neg
      else finite (inject_Z (mant * 2 ^ t))
    else finite (mant # Z.to_pos (2 ^ (- t))).

(** [a*b] on floats. *)
Definition float_mul (a b : float) : float :=
  match a, b with
  | nan, _ | _, nan => nan
  | finite x, finite y => round_float (x * y)
  | infinity s, finite y | finite y, infinity s =>
    if Qnum y =? 0 then nan else infinity (xorb s (Qnum y <? 0))
  | infinity s, infinity s' => infinity (xorb s s')
  end.

(** [float(x)/y] for two counters of type [std::size_t]: NaN for [0/0], an
    infinity for any other division by zero.  A finite quotient is kept as
    the exact rational: the rounding of the two conversions and of the
    division is not modelled. *)
Definition float_div (x y : Z) : float :=
  if y =? 0 then (if x =? 0 then nan else infinity (x <? 0))
  else finite (inject_Z x / inject_Z y).

(** [std::size_t(x)]: the value truncated towards zero; the conversion is
    undefined, [None] here, when that is not a value of [std::size_t]. *)
Definition to_size_t (x : float) : option Z :=
  match x with
  | finite q =>
    let z := Z.quot (Qnum q) (Z.pos (Qden q)) in
    if (0 <=? z) && (z <? modulus) then Some z else None
  | _ => None
  end.

(** ** pow2_quadratic_prober *)

Record pow2_quadratic_prober : Type := mk_prober { pos : Z; step : Z }.

(** The constructor: [pos{pos_}], [step=0]. *)
Definition prober (pos_ : Z) : pow2_quadratic_prober :=
  {| pos := pos_; step := 0 |}.

Definition get (pb : pow2_quadratic_prober) : Z := pos pb.

(** [next] mutates the prober and returns a flag; here it returns the new
    prober together with the flag. *)
Definition next (pb : pow2_quadratic_prober) (mask : Z)
  : pow2_quadratic_prober * bool :=
  let step' := wrap (step pb + 1) in
  let pos' := Z.land (wrap (pos pb + step')) mask in
  ({| pos := pos'; step := step' |}, step' <=? mask).

(** The prober after [i] calls of [next]. *)
Fixpoint advance (i : nat) (pb : pow2_quadratic_prober) (mask : Z)
  : pow2_quadratic_prober :=
  match i with
  | O => pb
  | S j => advance j (fst (next pb mask)) mask
  end.

(** The first [cnt] positions a loop [for(pb(p);;pb.next(mask))] reads
    through [pb.get()]. *)
Fixpoint positions (cnt : nat) (pb : pow2_quadratic_prober) (mask : Z)
  : list Z :=
  match cnt with
  | O => []
  | S c => get pb :: positions c (fst (next pb mask)) mask
  end.

(** ** find_info *)

Record find_info : Type := mk_info { num_hops : Z; num_cmps : Z }.

Definition info0 : find_info := {| num_hops := 0; num_cmps := 0 |}.

(** [operator+=] *)
Definition info_add (a x : find_info) : find_info :=
  {| num_hops := wrap (num_hops a + num_hops x);
     num_cmps := wrap (num_cmps a + num_cmps x) |}.

(** [++info.num_hops], [++info.num_cmps] and [info.num_cmps+=c]. *)
Definition incr_hops (a : find_info) : find_info :=
  {| num_hops := wrap (num_hops a + 1); num_cmps := num_cmps a |}.
Definition add_cmps (a : find_info) (c : Z) : find_info :=
  {| num_hops := num_hops a; num_cmps := wrap (num_cmps a + c) |}.
Definition incr_cmps (a : find_info) : find_info := add_cmps a 1.

(** ** Helpers shared by the two tables *)

(** [(unsigned char)x] *)
Definition to_uchar (x : Z) : Z := x mod 256.

(** The index of the first element of [l] that [eqb] equates with [x],
    [length l] if there is none. *)
Fixpoint find_index {A : Type} (eqb : A -> A -> bool) (l : list A) (x : A)
  : nat :=
  match l with
  | [] => O
  | y :: l' => if eqb y x then O else S (find_index eqb l' x)
  end.

(** [std::find(first,last,x)] over the range held in [l]: the result as an
    index into [l], [length l] standing for the iterator [last]. *)
Definition std_find (l : list Z) (x : Z) : nat := find_index Z.eqb l x.

(** [std::count_if(first,last,pred)] *)
Fixpoint count_if {A : Type} (pred : A -> bool) (l : list A) : Z :=
  match l with
  | [] => 0
  | y :: l' => (if pred y then 1 else 0) + count_if pred l'
  end.

(** [operator==] of [std::optional<std::size_t>] *)
Definition optional_eqb (a b : option Z) : bool :=
  match a, b with
  | Some x, Some y => x =? y
  | None, None => true
  | _, _ => false
  end.

(** ** boost_map *)

Module boost_map.

Definition N : Z := 15.

(** [elements] is the whole [std::array] (15 entries, of which the first [n]
    are occupied), not only its occupied prefix. *)
Record group : Type :=
  mk_group { elements : list Z; n : Z; overflow : Z }.

(** A value-initialised group; the array, which C++ leaves unspecified when
    the vector is built, is filled with zeros. *)
Definition group0 : group :=
  {| elements := replicate (Z.to_nat N) 0; n := 0; overflow := 0 |}.

Record table : Type := mk_table { groups : list group; shift : Z }.

Definition size (m : table) : Z := Z.of_nat (length (groups m)).

(** The constructor [boost_map(capacity)] with the default member
    initialiser of [shift]. *)
Definition make (capacity : Z) : table :=
  {| groups := replicate (Z.to_nat capacity) group0;
     shift := wrap (wordsize - wrap (bit_width (wrap (capacity - 1)))) |}.

(** [groups[i]]; reading outside the vector is undefined in C++ and gives
    [group0] here. *)
Definition group_at (m : table) (i : Z) : group :=
  default group0 (groups m !! Z.to_nat i).

(** [groups[i]=g]; writing outside the vector is undefined in C++ and
    changes nothing here.  In a table of [2^k] groups with [k >= 1] every
    index the probing loops use is inside the vector. *)
Definition set_group (m : table) (i : Z) (g : group) : table :=
  {| groups := <[Z.to_nat i := g]> (groups m); shift := shift m |}.

Definition reduced_hash (hash : Z) : Z :=
  let h := to_uchar hash in
  if h =? 0 then 8 else if h =? 1 then 9 else h.

(** A shift by the full word width is undefined in C++ and gives 0 here; it
    happens only for [capacity = 1], which the theorems on tables of [2^k]
    groups leave out by taking [k >= 1]. *)
Definition position_for (m : table) (hash : Z) : Z :=
  Z.shiftr hash (shift m).

(** [static_cast<unsigned char>(1<<(hash%8))] *)
Definition overflow_bit (hash : Z) : Z :=
  to_uchar (Z.shiftl 1 (hash mod 8)).

(** The occupied range [first, last) of a group. *)
Definition occupied (g : group) : list Z :=
  take (Z.to_nat (n g)) (elements g).

(** The body of [find]: one iteration per unit of fuel. *)
Fixpoint find_loop (fuel : nat) (m : table) (hash : Z)
    (pb : pow2_quadratic_prober) (info : find_info)
  : option (find_info * bool) :=
  match fuel with
  | O => None
  | S fuel' =>
    let g := group_at m (get pb) in
    let it := std_find (occupied g) hash in
    let info :=
      add_cmps info
        (count_if (fun x => reduced_hash x =? reduced_hash hash)
                  (take it (occupied g))) in
    if negb (Nat.eqb it (length (occupied g))) then
      Some (incr_cmps info, true)
    else if Z.land (overflow g) (overflow_bit hash) =? 0 then
      Some (info, false)
    else
      find_loop fuel' m hash (fst (next pb (wrap (size m - 1))))
                (incr_hops info)
  end.

Definition find (fuel : nat) (m : table) (hash : Z)
  : option (find_info * bool) :=
  find_loop fuel m hash (prober (position_for m hash)) info0.

(** [g.elements[g.n++]=hash] *)
Definition push (g : group) (hash : Z) : group :=
  {| elements := <[Z.to_nat (n g) := hash]> (elements g);
     n := wrap (n g + 1);
     overflow := overflow g |}.

(** [g.overflow|=static_cast<unsigned char>(1<<(hash%8))] *)
Definition mark (g : group) (hash : Z) : group :=
  {| elements := elements g;
     n := n g;
     overflow := to_uchar (Z.lor (overflow g) (overflow_bit hash)) |}.

(** The probing loop of [insert].  The flag returned by [next] is dropped,
    as in the source. *)
Fixpoint insert_loop (fuel : nat) (m : table) (hash : Z)
    (pb : pow2_quadratic_prober) : option (table * bool) :=
  match fuel with
  | O => None
  | S fuel' =>
    let g := group_at m (get pb) in
    if n g <? N then
      Some (set_group m (get pb) (push g hash), true)
    else
      insert_loop fuel' (set_group m (get pb) (mark g hash)) hash
                  (fst (next pb (wrap (size m - 1))))
  end.

Definition insert (fuel : nat) (m : table) (hash : Z)
  : option (table * bool) :=
  match find fuel m hash with
  | None => None
  | Some (_, true) => Some (m, false)
  | Some (_, false) =>
    insert_loop fuel m hash (prober (position_for m hash))
  end.

(** The number the source converts to [float] and divides. *)
Definition num_full (m : table) : Z :=
  count_if (fun g => n g =? N) (groups m).

(** [float(num_full)/groups.size()] *)
Definition pr_group_full (m : table) : float :=
  float_div (num_full m) (size m).

(** Tables built by the constructor and grown by [insert]. *)
Inductive reachable : table -> Prop :=
| reachable_make capacity :
    0 <= capacity < modulus -> reachable (make capacity)
| reachable_insert m fuel hash m' b :
    reachable m -> 0 <= hash < modulus ->
    insert fuel m hash = Some (m', b) -> reachable m'.

(** What the type of [group] guarantees in C++, and the bound on [n] that
    [insert] maintains. *)
Definition group_ok (g : group) : Prop :=
  length (elements g) = Z.to_nat N /\ 0 <= n g <= N /\
  0 <= overflow g < 256.

(** A group gets overflow bits only once it is full. *)
Definition group_inv (g : group) : Prop :=
  group_ok g /\ (n g < N -> overflow g = 0).

Definition table_inv (m : table) : Prop :=
  Forall group_inv (groups m) /\
  shift m = wordsize - bit_width (wrap (size m - 1)).

(** The group read at the [i]-th iteration of a probing loop for [hash]. *)
Definition probed (m : table) (hash : Z) (i : nat) : Z :=
  get (advance i (prober (position_for m hash)) (wrap (size m - 1))).

(** The comparison count of one group as the lookup description has it: all
    occupied keys with the reduced hash of the target, plus one when the
    target is among them. *)
Definition cmps_as_described (g : group) (hash : Z) : Z :=
  count_if (fun x => reduced_hash x =? reduced_hash hash) (occupied g)
  + (if bool_decide (hash ∈ occupied g) then 1 else 0).

(** The tests a lookup makes on a group. *)
Definition has_key (g : group) (hash : Z) : bool :=
  bool_decide (hash ∈ occupied g).

Definition bit_set (g : group) (hash : Z) : bool :=
  negb (Z.land (overflow g) (overflow_bit hash) =? 0).

(** The lookup of [hash] returns at its [i]-th iteration if it gets there. *)
Definition find_stops (m : table) (hash : Z) (i : nat) : bool :=
  let g := group_at m (probed m hash i) in
  has_key g hash || negb (bit_set g hash).

(** The insertion loop for [hash] returns at its [i]-th iteration if it gets
    there. *)
Definition has_room (m : table) (hash : Z) (i : nat) : bool :=
  n (group_at m (probed m hash i)) <? N.

(** The comparisons a lookup of [hash] has added when it enters its [i]-th
    iteration. *)
Fixpoint passed_cmps (m : table) (hash : Z) (i : nat) : Z :=
  match i with
  | O => 0
  | S j =>
    passed_cmps m hash j
    + count_if (fun x => reduced_hash x =? reduced_hash hash)
               (occupied (group_at m (probed m hash j)))
  end.

(** The table when the insertion loop for [hash] enters its [i]-th
    iteration: the groups read so far carry the overflow bit. *)
Fixpoint marked (m : table) (hash : Z) (i : nat) : table :=
  match i with
  | O => m
  | S j =>
    let m' := marked m hash j in
    set_group m' (probed m hash j) (mark (group_at m' (probed m hash j)) hash)
  end.

(** The table the insertion loop for [hash] returns when it finds room at
    its [i]-th iteration. *)
Definition inserted (m : table) (hash : Z) (i : nat) : table :=
  let m' := marked m hash i in
  set_group m' (probed m hash i) (push (group_at m' (probed m hash i)) hash).

(** What an insertion leaves in place: no group shrinks or loses a key, and
    no overflow bit is cleared. *)
Definition preserved (m m' : table) : Prop :=
  length (groups m') = length (groups m) /\
  forall q,
    n (group_at m q) <= n (group_at m' q) /\
    occupied (group_at m q) `prefix_of` occupied (group_at m' q) /\
    forall t, 0 <= t < 8 ->
      Z.testbit (overflow (group_at m q)) t = true ->
      Z.testbit (overflow (group_at m' q)) t = true.

(** The key is among the occupied entries of some group. *)
Definition stored (m : table) (hash : Z) : Prop :=
  exists g, g ∈ groups m /\ hash ∈ occupied g.

(** The key sits in a group of its probe sequence, and every group probed
    before that one carries the key's overflow bit. *)
Definition findable (m : table) (hash : Z) : Prop :=
  exists i : nat,
    hash ∈ occupied (group_at m (probed m hash i)) /\
    forall j, (j < i)%nat ->
      bit_set (group_at m (probed m hash j)) hash = true.

(** The number of keys the table holds. *)
Definition num_keys (m : table) : Z :=
  fold_right (fun g acc => n g + acc) 0 (groups m).

(** No key occupies two places. *)
Definition distinct (m : table) : Prop :=
  forall (q1 q2 : nat) g1 g2 (i1 i2 : nat) x,
    groups m !! q1 = Some g1 -> groups m !! q2 = Some g2 ->
    occupied g1 !! i1 = Some x -> occupied g2 !! i2 = Some x ->
    q1 = q2 /\ i1 = i2.

End boost_map.

(** ** abseil_map *)

Module abseil_map.

Definition N : Z := 16.

Record table : Type := mk_table { elements : list (option Z) }.

Definition size (m : table) : Z := Z.of_nat (length (elements m)).

(** [elements(capacity*N,std::nullopt)] *)
Definition make (capacity : Z) : table :=
  {| elements := replicate (Z.to_nat (wrap (capacity * N))) None |}.

(** [elements[pos&(elements.size()-1)]]; the index is inside the vector
    whenever the vector is not empty. *)
Definition element_at (m : table) (pos : Z) : option Z :=
  default None (elements m !! Z.to_nat (Z.land pos (wrap (size m - 1)))).

(** [element_at(pos)=x] *)
Definition set_element_at (m : table) (pos : Z) (x : option Z) : table :=
  {| elements :=
       <[Z.to_nat (Z.land pos (wrap (size m - 1))) := x]> (elements m) |}.

Definition position_for (m : table) (hash : Z) : Z :=
  Z.land (Z.shiftr hash 7) (wrap (size m - 1)).

(** The private three-argument [find(first,last,x)].  The loop
    [for(;first!=last;++first)] runs at most [last-first] (modulo 2^64)
    times. *)
Fixpoint find_range_loop (cnt : nat) (m : table) (first : Z) (x : option Z)
  : Z :=
  match cnt with
  | O => first
  | S c =>
    if optional_eqb (element_at m first) x then first
    else find_range_loop c m (wrap (first + 1)) x
  end.

Definition find_range (m : table) (first last : Z) (x : option Z) : Z :=
  find_range_loop (Z.to_nat (wrap (last - first))) m first x.

Fixpoint num_cmps_loop (cnt : nat) (m : table) (first hash res : Z) : Z :=
  match cnt with
  | O => res
  | S c =>
    let res' :=
      match element_at m first with
      | Some x =>
        if Z.land x 127 =? Z.land hash 127 then wrap (res + 1) else res
      | None => res
      end in
    num_cmps_loop c m (wrap (first + 1)) hash res'
  end.

Definition num_cmps (m : table) (first last hash : Z) : Z :=
  num_cmps_loop (Z.to_nat (wrap (last - first))) m first hash 0.

(** The body of [find]; [off] is the local [off=pos%N]. *)
Fixpoint find_loop (fuel : nat) (m : table) (hash off : Z)
    (pb : pow2_quadratic_prober) (info : find_info)
  : option (find_info * bool) :=
  match fuel with
  | O => None
  | S fuel' =>
    let pos0 := wrap (wrap (get pb * N) + off) in
    let pos1 := find_range m pos0 (wrap (pos0 + N)) (Some hash) in
    let info := add_cmps info (num_cmps m pos0 pos1 hash) in
    if negb (pos1 =? wrap (pos0 + N)) then
      Some (incr_cmps info, true)
    else if negb (find_range m pos0 (wrap (pos0 + N)) None
                  =? wrap (pos0 + N)) then
      Some (info, false)
    else
      find_loop fuel' m hash off
                (fst (next pb (wrap (size m / N - 1)))) (incr_hops info)
  end.

Definition find (fuel : nat) (m : table) (hash : Z)
  : option (find_info * bool) :=
  let pos := position_for m hash in
  let off := pos mod N in
  find_loop fuel m hash off (prober (pos / N)) info0.

Fixpoint insert_loop (fuel : nat) (m : table) (hash off : Z)
    (pb : pow2_quadratic_prober) : option (table * bool) :=
  match fuel with
  | O => None
  | S fuel' =>
    let pos0 := wrap (wrap (get pb * N) + off) in
    let pos1 := find_range m pos0 (wrap (pos0 + N)) None in
    if negb (pos1 =? wrap (pos0 + N)) then
      Some (set_element_at m pos1 (Some hash), true)
    else
      insert_loop fuel' m hash off (fst (next pb (wrap (size m / N - 1))))
  end.

Definition insert (fuel : nat) (m : table) (hash : Z)
  : option (table * bool) :=
  match find fuel m hash with
  | None => None
  | Some (_, true) => Some (m, false)
  | Some (_, false) =>
    let pos := position_for m hash in
    let off := pos mod N in
    insert_loop fuel m hash off (prober (pos / N))
  end.

(** The loop of [pr_group_full]: [pos] runs over every slot index. *)
Fixpoint num_full_loop (cnt : nat) (m : table) (pos num_full : Z) : Z :=
  match cnt with
  | O => num_full
  | S c =>
    num_full_loop c m (wrap (pos + 1))
      (if find_range m pos (wrap (pos + N)) None =? wrap (pos + N)
       then wrap (num_full + 1) else num_full)
  end.

Definition num_full (m : table) : Z :=
  num_full_loop (length (elements m)) m 0 0.

(** [float(num_full)/elements.size()] *)
Definition pr_group_full (m : table) : float :=
  float_div (num_full m) (size m).

Inductive reachable : table -> Prop :=
| reachable_make capacity :
    0 <= capacity < modulus -> reachable (make capacity)
| reachable_insert m fuel hash m' b :
    reachable m -> 0 <= hash < modulus ->
    insert fuel m hash = Some (m', b) -> reachable m'.

(** The [cnt] slots read from index [first] on, in scanning order. *)
Fixpoint slots (cnt : nat) (m : table) (first : Z) : list (option Z) :=
  match cnt with
  | O => []
  | S c => element_at m first :: slots c m (first + 1)
  end.

(** The 16 slots of the window that starts at [pos0]. *)
Definition window (m : table) (pos0 : Z) : list (option Z) :=
  slots (Z.to_nat N) m pos0.

(** The slot test of [num_cmps]. *)
Definition low7_match (hash : Z) (x : option Z) : bool :=
  match x with
  | Some y => Z.land y 127 =? Z.land hash 127
  | None => false
  end.

Definition is_empty (x : option Z) : bool :=
  match x with None => true | Some _ => false end.

(** The window read at the [i]-th iteration of a probing loop for [hash]. *)
Definition probed (m : table) (hash : Z) (i : nat) : Z :=
  get (advance i (prober (position_for m hash / N))
               (wrap (size m / N - 1))) * N
  + position_for m hash mod N.

(** The comparison count of one window as the lookup description has it:
    the slots matching on their low 7 bits that lie before the first slot
    holding the target or empty. *)
Fixpoint before_match_or_empty (hash : Z) (w : list (option Z))
  : list (option Z) :=
  match w with
  | [] => []
  | x :: w' =>
    if optional_eqb x (Some hash) || is_empty x then []
    else x :: before_match_or_empty hash w'
  end.

Definition cmps_as_described (m : table) (pos0 hash : Z) : Z :=
  count_if (low7_match hash) (before_match_or_empty hash (window m pos0))
  + (if existsb (fun x => optional_eqb x (Some hash)) (window m pos0)
     then 1 else 0).

(** Saturation as the description has it: the fraction of the aligned
    windows [g*16 .. g*16+15], [g < capacity], that hold no empty slot. *)
Definition aligned_full (m : table) : Z :=
  count_if (fun g => forallb (fun x => negb (is_empty x)) (window m (g * N)))
           (seqZ 0 (size m / N)).

Definition pr_group_full_as_described (m : table) : Q :=
  (inject_Z (aligned_full m) / inject_Z (size m / N))%Q.

(** The windows counted by the source: one per slot index. *)
Definition sliding_full (m : table) : Z :=
  count_if (fun p => forallb (fun x => negb (is_empty x)) (window m p))
           (seqZ 0 (size m)).

(** The lookup of [hash] returns at its [i]-th iteration if it gets there. *)
Definition find_stops (m : table) (hash : Z) (i : nat) : bool :=
  let w := window m (probed m hash i) in
  existsb (fun x => optional_eqb x (Some hash)) w || existsb is_empty w.

(** The insertion loop for [hash] returns at its [i]-th iteration if it gets
    there. *)
Definition has_room (m : table) (hash : Z) (i : nat) : bool :=
  existsb is_empty (window m (probed m hash i)).

(** The comparisons a lookup of [hash] has added when it enters its [i]-th
    iteration. *)
Fixpoint passed_cmps (m : table) (hash : Z) (i : nat) : Z :=
  match i with
  | O => 0
  | S j =>
    passed_cmps m hash j
    + count_if (low7_match hash) (window m (probed m hash j))
  end.

(** The table the insertion loop for [hash] returns when it finds room at
    its [i]-th iteration: the key goes to the first empty slot of the
    window. *)
Definition inserted (m : table) (hash : Z) (i : nat) : table :=
  let pos0 := probed m hash i in
  set_element_at m
    (pos0 + Z.of_nat (find_index optional_eqb (window m pos0) None))
    (Some hash).

(** What an insertion leaves in place: an occupied slot keeps its key. *)
Definition preserved (m m' : table) : Prop :=
  length (elements m') = length (elements m) /\
  forall idx x,
    elements m !! idx = Some (Some x) -> elements m' !! idx = Some (Some x).

(** The key is in some slot. *)
Definition stored (m : table) (hash : Z) : Prop := Some hash ∈ elements m.

(** The key sits in a window of its probe sequence, and every window probed
    before that one has no empty slot. *)
Definition findable (m : table) (hash : Z) : Prop :=
  exists i : nat,
    Some hash ∈ window m (probed m hash i) /\
    forall j, (j < i)%nat ->
      existsb is_empty (window m (probed m hash j)) = false.

(** The number of keys the table holds. *)
Definition num_keys (m : table) : Z :=
  count_if (fun x => negb (is_empty x)) (elements m).

(** No key occupies two slots. *)
Definition distinct (m : table) : Prop :=
  forall (i j : nat) x,
    elements m !! i = Some (Some x) -> elements m !! j = Some (Some x) ->
    i = j.

End abseil_map.

(** ** The driver *)

(** The two instantiations of [template<typename Map>]. *)
Inductive variant : Type := boost | abseil.

Definition table (v : variant) : Type :=
  match v with
  | boost => boost_map.table
  | abseil => abseil_map.table
  end.

Definition N (v : variant) : Z :=
  match v with boost => boost_map.N | abseil => abseil_map.N end.

Definition make (v : variant) : Z -> table v :=
  match v with boost => boost_map.make | abseil => abseil_map.make end.

Definition insert (v : variant)
  : nat -> table v -> Z -> option (table v * bool) :=
  match v with boost => boost_map.insert | abseil => abseil_map.insert end.

Definition find (v : variant)
  : nat -> table v -> Z -> option (find_info * bool) :=
  match v with boost => boost_map.find | abseil => abseil_map.find end.

Definition pr_group_full (v : variant) : table v -> float :=
  match v with
  | boost => boost_map.pr_group_full
  | abseil => abseil_map.pr_group_full
  end.

Definition reachable (v : variant) : table v -> Prop :=
  match v with
  | boost => boost_map.reachable
  | abseil => abseil_map.reachable
  end.

Definition preserved (v : variant) : table v -> table v -> Prop :=
  match v with
  | boost => boost_map.preserved
  | abseil => abseil_map.preserved
  end.

Definition stored (v : variant) : table v -> Z -> Prop :=
  match v with
  | boost => boost_map.stored
  | abseil => abseil_map.stored
  end.

(** Some group has room for a key, resp. some slot is empty. *)
Definition has_space (v : variant) : table v -> Prop :=
  match v with
  | boost =>
    fun m => exists g, g ∈ boost_map.groups m /\ boost_map.n g < boost_map.N
  | abseil => fun m => None ∈ abseil_map.elements m
  end.

Definition distinct (v : variant) : table v -> Prop :=
  match v with
  | boost => boost_map.distinct
  | abseil => abseil_map.distinct
  end.

Definition num_keys (v : variant) : table v -> Z :=
  match v with
  | boost => boost_map.num_keys
  | abseil => abseil_map.num_keys
  end.

(** The table has [c] groups, resp. [c] logical groups of 16 slots. *)
Definition has_capacity (v : variant) : table v -> Z -> Prop :=
  match v with
  | boost => fun m c => boost_map.size m = c
  | abseil => fun m c => abseil_map.size m = c * abseil_map.N
  end.

(** Capacity 1 makes [boost_map] shift by the full word width. *)
Definition min_log2_capacity (v : variant) : Z :=
  match v with boost => 1 | abseil => 0 end.

(** A sequence of calls of [insert]. *)
Fixpoint insert_all (v : variant) (fuel : nat) (m : table v) (keys : list Z)
  : option (table v) :=
  match keys with
  | [] => Some m
  | hash :: keys' =>
    match insert v fuel m hash with
    | None => None
    | Some (m', _) => insert_all v fuel m' keys'
    end
  end.

(** One line of output: the six numbers [stats_row] streams to
    [std::cout]. *)
Record row : Type :=
  mk_row { load_factor : float; pr_full : float;
           hops_successful : float; cmps_successful : float;
           hops_unsuccessful : float; cmps_unsuccessful : float }.

(** [!size?0.f:float(x)/size] *)
Definition mean (x size : Z) : float :=
  if size =? 0 then finite 0 else float_div x size.

Section driver.

(** [draw s i] is the value of the [i]-th call [dist(gen)] after the
    generator was seeded with [s]; the Mersenne twister and the uniform
    distribution themselves are outside the model. *)
Variable draw : Z -> nat -> Z.

(** [for(n=0;n!=size;){if(m.insert(dist(gen)))++n;}] *)
Fixpoint fill (fuel : nat) (v : variant) (m : table v) (n size : Z)
    (i : nat) (ifuel : nat) : option (table v) :=
  if n =? size then Some m
  else
    match fuel with
    | O => None
    | S fuel' =>
      match insert v ifuel m (draw 0 i) with
      | None => None
      | Some (m', b) =>
        fill fuel' v m' (if b then wrap (n + 1) else n) size (S i) ifuel
      end
    end.

(** [for(n=0;n!=size;++n){info+=m.find(dist(gen)).first;}] *)
Fixpoint successful (fuel : nat) (v : variant) (m : table v) (n size : Z)
    (i : nat) (ifuel : nat) (info : find_info) : option find_info :=
  if n =? size then Some info
  else
    match fuel with
    | O => None
    | S fuel' =>
      match find v ifuel m (draw 0 i) with
      | None => None
      | Some (x, _) =>
        successful fuel' v m (wrap (n + 1)) size (S i) ifuel
                   (info_add info x)
      end
    end.

(** [for(n=0;n!=size;){auto [i,b]=m.find(dist(gen));if(!b){info+=i;++n;}}] *)
Fixpoint unsuccessful (fuel : nat) (v : variant) (m : table v) (n size : Z)
    (i : nat) (ifuel : nat) (info : find_info) : option find_info :=
  if n =? size then Some info
  else
    match fuel with
    | O => None
    | S fuel' =>
      match find v ifuel m (draw 1 i) with
      | None => None
      | Some (x, b) =>
        if b then unsuccessful fuel' v m n size (S i) ifuel info
        else unsuccessful fuel' v m (wrap (n + 1)) size (S i) ifuel
                          (info_add info x)
      end
    end.

(** The target number of insertions, [std::size_t(capacity*lf*N)]:
    [capacity] and [N] are converted to [float], the two products are
    rounded, the result is truncated. *)
Definition target_size (v : variant) (capacity : Z) (lf : float)
  : option Z :=
  to_size_t
    (float_mul (float_mul (round_float (inject_Z capacity)) lf)
               (round_float (inject_Z (N v)))).

(** [None] also stands for a run whose target size is undefined. *)
Definition stats_row (fuel : nat) (v : variant) (capacity : Z) (lf : float)
  : option row :=
  let m := make v capacity in
  match target_size v capacity lf with
  | None => None
  | Some size =>
    match fill fuel v m 0 size O fuel with
    | None => None
    | Some m =>
      let pr := pr_group_full v m in
      match successful fuel v m 0 size O fuel info0 with
      | None => None
      | Some info =>
        match unsuccessful fuel v m 0 size O fuel
                           {| num_hops := 0; num_cmps := 0 |} with
        | None => None
        | Some info' =>
          Some {| load_factor := lf; pr_full := pr;
                  hops_successful := mean (num_hops info) size;
                  cmps_successful := mean (num_cmps info) size;
                  hops_unsuccessful := mean (num_hops info') size;
                  cmps_unsuccessful := mean (num_cmps info') size |}
        end
      end
    end
  end.

End driver.

(** * Properties *)

(** ** Word arithmetic *)

Lemma modulus_eq : modulus = 18446744073709551616.
Proof. reflexivity. Qed.

Lemma wrap_range x : 0 <= wrap x < modulus.
Proof. unfold wrap. apply Z.mod_pos_bound. rewrite modulus_eq. lia. Qed.

Lemma wrap_small x : 0 <= x < modulus -> wrap x = x.
Proof. intros. unfold wrap. now apply Z.mod_small. Qed.

Lemma pow2_pos k : 0 <= k -> 0 < 2 ^ k.
Proof. intros. apply Z.pow_pos_nonneg; lia. Qed.

Lemma pow2_lt_modulus k : 0 <= k < wordsize -> 2 ^ k < modulus.
Proof. intros. unfold modulus. apply Z.pow_lt_mono_r; unfold wordsize in *; lia. Qed.

Lemma land_mask x k : 0 <= k -> Z.land x (2 ^ k - 1) = x mod 2 ^ k.
Proof.
  intros Hk. rewrite <- Z.land_ones by assumption.
  now rewrite Z.ones_equiv, <- Z.sub_1_r.
Qed.

Lemma wrap_mod_pow2 x k : 0 <= k <= wordsize -> wrap x mod 2 ^ k = x mod 2 ^ k.
Proof.
  intros Hk. unfold wrap, modulus.
  replace wordsize with (k + (wordsize - k)) by lia.
  rewrite Z.pow_add_r by lia.
  pose proof (pow2_pos k) as Hp. pose proof (pow2_pos (wordsize - k)) as Hq.
  rewrite Z.rem_mul_r by lia.
  rewrite Z.mul_comm, Z.mod_add by lia.
  apply Z.mod_mod. lia.
Qed.

Lemma mod_eq_divide a b m : 0 < m -> a mod m = b mod m -> (m | a - b).
Proof.
  intros Hm E. exists (a / m - b / m).
  pose proof (Z.div_mod a m ltac:(lia)) as Ha.
  pose proof (Z.div_mod b m ltac:(lia)) as Hb.
  rewrite Z.mul_sub_distr_r. lia.
Qed.

(** ** Floats *)

Lemma float_div_finite x y :
  y <> 0 -> float_div x y = finite (inject_Z x / inject_Z y).
Proof.
  intros Hy. unfold float_div.
  now rewrite (proj2 (Z.eqb_neq y 0) Hy).
Qed.

Lemma round_half_even_bounds num den :
  0 < den -> num / den <= round_half_even num den <= num / den + 1.
Proof.
  intros Hd. unfold round_half_even.
  destruct (2 * (num mod den) ?= den); [destruct (Z.even _)|..]; lia.
Qed.

(** Every value of [std::size_t] converts to a finite [float]. *)
Lemma round_float_size_t c :
  0 <= c < modulus -> exists r, round_float (inject_Z c) = finite r.
Proof.
  intros Hc. unfold round_float. cbn [Qnum Qden inject_Z].
  rewrite Z.abs_eq by lia.
  destruct (c =? 0) eqn:E0; [eauto|]. apply Z.eqb_neq in E0.
  replace (c <? 0) with false by (symmetry; apply Z.ltb_ge; lia).
  set (t := Z.max (floor_log2 c 1) (-126) - 23).
  destruct (0 <=? t) eqn:Et; [|eauto]. apply Z.leb_le in Et.
  assert (Hlog : floor_log2 c 1 < 64).
  { unfold floor_log2. replace (1 <=? c) with true
      by (symmetry; apply Z.leb_le; lia).
    rewrite Z.div_1_r. apply Z.log2_lt_pow2; [lia|].
    rewrite modulus_eq in Hc. change (2 ^ 64) with 18446744073709551616.
    lia. }
  assert (Ht : t <= 40) by lia.
  assert (Hp : 0 < 2 ^ t) by (apply Z.pow_pos_nonneg; lia).
  assert (Hp40 : 2 ^ t <= 2 ^ 40) by (apply Z.pow_le_mono_r; lia).
  rewrite Z.mul_1_l.
  pose proof (round_half_even_bounds c (2 ^ t) Hp) as [Hlo Hhi].
  pose proof (Z.div_pos c (2 ^ t) ltac:(lia) Hp) as Hq.
  pose proof (Z.mul_div_le c (2 ^ t) Hp) as Hmul.
  rewrite Z.abs_eq by lia.
  replace (2 ^ 128 <=? round_half_even c (2 ^ t) * 2 ^ t) with false; [eauto|].
  symmetry. apply Z.leb_gt.
  change (2 ^ 40) with 1099511627776 in Hp40.
  change (2 ^ 128) with 340282366920938463463374607431768211456.
  rewrite modulus_eq in Hc. nia.
Qed.

Lemma to_size_t_range x z : to_size_t x = Some z -> 0 <= z < modulus.
Proof.
  destruct x as [q| |]; cbn [to_size_t]; try discriminate.
  destruct (0 <=? _) eqn:E1; [|discriminate].
  destruct (_ <? modulus) eqn:E2; [|discriminate].
  cbn [andb]. intros [= <-].
  apply Z.leb_le in E1. apply Z.ltb_lt in E2. lia.
Qed.

Lemma target_size_range v c lf z :
  target_size v c lf = Some z -> 0 <= z < modulus.
Proof. apply to_size_t_range. Qed.

Lemma target_size_zero v c :
  0 <= c < modulus -> target_size v c (finite 0) = Some 0.
Proof.
  intros Hc. unfold target_size.
  destruct (round_float_size_t c Hc) as [r ->].
  assert (E : float_mul (finite r) (finite 0) = finite 0).
  { cbn [float_mul]. unfold round_float. cbn [Qnum Qmult].
    now rewrite Z.mul_0_r. }
  rewrite E. destruct v; reflexivity.
Qed.

(** ** The probe sequence *)

Lemma tri_double i : 2 * tri i = Z.of_nat i * (Z.of_nat i + 1).
Proof. induction i as [|i IH]; [reflexivity|]. cbn [tri]. lia. Qed.

Lemma odd_coprime_pow2 a e : 0 <= e -> Z.odd a = true -> Z.gcd (2 ^ e) a = 1.
Proof.
  intros He Ha. apply Z.coprime_pow_l; [assumption|].
  apply Z.coprime_prime_l; [apply Z.prime_2|].
  intros [q Hq]. subst a. rewrite Z.mul_comm, Z.odd_mul in Ha.
  discriminate.
Qed.

(** Two distinct triangular numbers below index [2^k] differ modulo [2^k]. *)
Lemma tri_lt_distinct k (i j : nat) :
  0 <= k -> (i < j)%nat -> Z.of_nat j < 2 ^ k ->
  ~ (2 ^ k | tri j - tri i).
Proof.
  intros Hk Hij Hj [q Hq].
  pose proof (tri_double i) as Hi2. pose proof (tri_double j) as Hj2.
  set (a := Z.of_nat j - Z.of_nat i) in *.
  set (b := Z.of_nat j + Z.of_nat i + 1) in *.
  assert (Hdiv : (2 ^ (k + 1) | a * b)).
  { exists q. rewrite Z.pow_add_r by lia. subst a b. nia. }
  assert (Hpow : 2 ^ (k + 1) = 2 * 2 ^ k) by (rewrite Z.pow_add_r by lia; lia).
  assert (Ha : 0 < a < 2 ^ k) by (subst a; lia).
  assert (Hb : 0 < b < 2 ^ (k + 1)) by (subst b; lia).
  destruct (Z.odd a) eqn:Oa.
  - apply Z.gauss in Hdiv; [|apply odd_coprime_pow2; [lia|assumption]].
    apply Z.divide_pos_le in Hdiv; lia.
  - assert (Ob : Z.odd b = true).
    { replace b with (a + (2 * Z.of_nat i + 1)) by (subst a b; lia).
      rewrite Z.odd_add, Oa, Z.odd_odd. reflexivity. }
    rewrite Z.mul_comm in Hdiv.
    apply Z.gauss in Hdiv; [|apply odd_coprime_pow2; [lia|assumption]].
    apply Z.divide_pos_le in Hdiv; lia.
Qed.

Lemma tri_mod_inj k p (i j : nat) :
  0 <= k -> Z.of_nat i < 2 ^ k -> Z.of_nat j < 2 ^ k ->
  (p + tri i) mod 2 ^ k = (p + tri j) mod 2 ^ k -> i = j.
Proof.
  intros Hk Hi Hj E.
  destruct (Nat.lt_trichotomy i j) as [L|[L|L]]; [|assumption|].
  - exfalso. apply (tri_lt_distinct k i j); try assumption.
    symmetry in E. apply mod_eq_divide in E; [|now apply pow2_pos].
    replace (tri j - tri i) with (p + tri j - (p + tri i)) by lia. assumption.
  - exfalso. apply (tri_lt_distinct k j i); try assumption.
    apply mod_eq_divide in E; [|now apply pow2_pos].
    replace (tri i - tri j) with (p + tri i - (p + tri j)) by lia. assumption.
Qed.

Lemma advance_S i pb mask :
  advance (S i) pb mask = fst (next (advance i pb mask) mask).
Proof.
  revert pb. induction i as [|i IH]; intros pb; [reflexivity|].
  change (advance (S (S i)) pb mask) with (advance (S i) (fst (next pb mask)) mask).
  rewrite IH. reflexivity.
Qed.

Lemma positions_advance cnt pb mask :
  positions cnt pb mask = map (fun i => get (advance i pb mask)) (seq 0 cnt).
Proof.
  revert pb. induction cnt as [|c IH]; intros pb; [reflexivity|].
  cbn [positions seq map]. f_equal. rewrite IH, <- seq_shift, map_map.
  reflexivity.
Qed.

(** Closed form of the prober state after [i] steps. *)
Lemma advance_closed k p (i : nat) :
  0 <= k <= wordsize -> 0 <= p < 2 ^ k -> Z.of_nat i < modulus ->
  advance i (prober p) (2 ^ k - 1)
  = {| pos := (p + tri i) mod 2 ^ k; step := Z.of_nat i |}.
Proof.
  intros Hk Hp. induction i as [|i IH]; intros Hi.
  - cbn [advance tri]. unfold prober. f_equal.
    rewrite Z.add_0_r, Z.mod_small; lia.
  - rewrite advance_S, IH by lia. unfold next. cbn [pos step fst].
    rewrite (wrap_small (Z.of_nat i + 1)) by lia.
    rewrite land_mask, wrap_mod_pow2 by lia.
    f_equal; [|lia].
    rewrite Zplus_mod_idemp_l. f_equal. cbn [tri]. lia.
Qed.

Lemma probe_range k p (i : nat) :
  0 <= k <= wordsize -> 0 <= p < 2 ^ k ->
  0 <= get (advance i (prober p) (2 ^ k - 1)) < 2 ^ k.
Proof.
  intros Hk Hp. destruct i as [|i]; [cbn; lia|].
  rewrite advance_S. unfold next, get. cbn [pos fst].
  rewrite land_mask by lia. apply Z.mod_pos_bound. apply pow2_pos. lia.
Qed.

Lemma positions_length cnt pb mask : length (positions cnt pb mask) = cnt.
Proof. rewrite positions_advance, length_map. apply length_seq. Qed.

Lemma positions_NoDup k p :
  0 <= k < wordsize -> 0 <= p < 2 ^ k ->
  NoDup (positions (Z.to_nat (2 ^ k)) (prober p) (2 ^ k - 1)).
Proof.
  intros Hk Hp. rewrite positions_advance.
  pose proof (pow2_lt_modulus k Hk) as Hlt.
  apply (NoDup_fmap_2_strong (fun i => get (advance i (prober p) (2 ^ k - 1))));
    [|apply NoDup_seq].
  intros i j Hi Hj E. apply elem_of_seq in Hi, Hj.
  rewrite !advance_closed in E by lia. unfold get in E. cbn [pos] in E.
  apply (tri_mod_inj k p); lia.
Qed.

Lemma positions_perm k p :
  0 <= k < wordsize -> 0 <= p < 2 ^ k ->
  positions (Z.to_nat (2 ^ k)) (prober p) (2 ^ k - 1) ≡ₚ seqZ 0 (2 ^ k).
Proof.
  intros Hk Hp. apply submseteq_length_Permutation.
  - apply NoDup_submseteq; [now apply positions_NoDup|].
    intros x Hx. rewrite positions_advance in Hx.
    apply list_elem_of_fmap in Hx as (i & -> & _).
    apply elem_of_seqZ. pose proof (probe_range k p i). lia.
  - rewrite positions_length, length_seqZ. lia.
Qed.

(** Every slot index is read within the first [2^k] iterations. *)
Lemma probe_cover k p q :
  0 <= k < wordsize -> 0 <= p < 2 ^ k -> 0 <= q < 2 ^ k ->
  exists i : nat,
    Z.of_nat i < 2 ^ k /\ get (advance i (prober p) (2 ^ k - 1)) = q.
Proof.
  intros Hk Hp Hq.
  assert (Hin : q ∈ seqZ 0 (2 ^ k)) by (apply elem_of_seqZ; lia).
  rewrite <- (positions_perm k p Hk Hp), positions_advance in Hin.
  apply list_elem_of_fmap in Hin as (i & -> & Hi).
  apply elem_of_seq in Hi. exists i. split; [lia|reflexivity].
Qed.

(** C1.  For a table of [2^k] slots ([mask = 2^k - 1]) and any starting slot
    [p], the first [mask + 1] positions produced by the prober (the start
    and the positions after each of the first [mask] calls of [next]) hold
    no index twice and are a permutation of [0 .. mask]. *)
Theorem probe_sequence_is_permutation (k p : Z) :
  0 <= k < wordsize -> 0 <= p <= 2 ^ k - 1 ->
  let mask := 2 ^ k - 1 in
  NoDup (positions (Z.to_nat (mask + 1)) (prober p) mask) /\
  positions (Z.to_nat (mask + 1)) (prober p) mask ≡ₚ seqZ 0 (mask + 1).
Proof.
  intros Hk Hp mask. subst mask.
  replace (2 ^ k - 1 + 1) with (2 ^ k) by lia.
  split; [apply positions_NoDup | apply positions_perm]; lia.
Qed.

Lemma probe_sequence_is_permutation_witness :
  NoDup (positions 8 (prober 3) 7) /\
  positions 8 (prober 3) 7 ≡ₚ seqZ 0 8.
Proof.
  apply (probe_sequence_is_permutation 3 3); unfold wordsize; simpl; lia.
Defined.

(** C6 (as the code has it).  With [mask = 2^k - 1], [next] increments the
    step counter (modulo 2^64), moves to [(pos + step) & mask] for the new
    step, and returns true exactly while the new step count does not exceed
    [mask], that is while the cycle is not yet exhausted. *)
Theorem next_spec (k : Z) (pb : pow2_quadratic_prober) :
  0 <= k <= wordsize ->
  let mask := 2 ^ k - 1 in
  let pb' := fst (next pb mask) in
  step pb' = wrap (step pb + 1) /\
  (0 <= step pb < modulus - 1 -> step pb' = step pb + 1) /\
  pos pb' = Z.land (pos pb + step pb') mask /\
  (snd (next pb mask) = true <-> step pb' <= mask).
Proof.
  intros Hk mask pb'. subst mask pb'. unfold next. cbn [fst snd pos step].
  split; [reflexivity|]. split; [intros; apply wrap_small; lia|].
  split.
  - rewrite !land_mask by lia. now apply wrap_mod_pow2.
  - apply Z.leb_le.
Qed.

Lemma next_spec_witness :
  let pb' := fst (next (prober 5) 7) in
  step pb' = wrap 1 /\
  (0 <= 0 < modulus - 1 -> step pb' = 0 + 1) /\
  pos pb' = Z.land (5 + step pb') 7 /\
  (snd (next (prober 5) 7) = true <-> step pb' <= 7).
Proof.
  apply (next_spec 3 (prober 5)). unfold wordsize. lia.
Defined.

(** C6 as stated fails: on a fresh prober and [mask = 1] the call returns
    true although the step count, 1, has not exceeded the mask. *)
Lemma next_flag_counterexample :
  ~ (snd (next (prober 0) 1) = true <-> 1 < step (fst (next (prober 0) 1))).
Proof.
  intros [H _]. vm_compute in H. specialize (H eq_refl). discriminate H.
Qed.

(** ** Loops that stop at the first index satisfying a test *)

Lemma first_or_none (P : nat -> bool) (n : nat) :
  (exists i, (i < n)%nat /\ P i = true /\ forall j, (j < i)%nat -> P j = false)
  \/ (forall j, (j < n)%nat -> P j = false).
Proof.
  induction n as [|n [(i & Hi & Hp & Hlt)|Hnone]].
  - right. intros j Hj. lia.
  - left. exists i. split; [lia|]. split; assumption.
  - destruct (P n) eqn:Hn.
    + left. exists n. split; [lia|]. split; assumption.
    + right. intros j Hj. destruct (decide (j = n)) as [->|]; [assumption|].
      apply Hnone. lia.
Qed.

(** ** Counting and searching in lists *)

Lemma count_if_nonneg {A} (f : A -> bool) l : 0 <= count_if f l.
Proof. induction l as [|x l IH]; cbn; [lia|]. destruct (f x); lia. Qed.

Lemma count_if_le_length {A} (f : A -> bool) l :
  count_if f l <= Z.of_nat (length l).
Proof. induction l as [|x l IH]; cbn [count_if length]; [lia|]. destruct (f x); lia. Qed.

Lemma count_if_mono {A B} (f : A -> bool) (g : B -> bool) l l' :
  Forall2 (fun x y => f x = true -> g y = true) l l' ->
  count_if f l <= count_if g l'.
Proof.
  induction 1 as [|x y l l' Hxy _ IH]; cbn; [lia|].
  destruct (f x), (g y); try lia; now specialize (Hxy eq_refl).
Qed.

Lemma optional_eqb_eq a b : optional_eqb a b = true <-> a = b.
Proof.
  destruct a as [x|], b as [y|]; cbn; try (split; congruence).
  rewrite Z.eqb_eq. split; congruence.
Qed.

Section find_index_facts.
Context {A : Type} (eqb : A -> A -> bool).
Hypothesis eqb_eq : forall a b, eqb a b = true <-> a = b.

Lemma find_index_app l1 l2 x :
  x ∉ l1 -> find_index eqb (l1 ++ x :: l2) x = length l1.
Proof.
  induction l1 as [|y l1 IH]; intros Hx; cbn.
  - now rewrite (proj2 (eqb_eq x x) eq_refl).
  - apply not_elem_of_cons in Hx as [Hne Hx].
    destruct (eqb y x) eqn:E; [apply eqb_eq in E; congruence|]. now rewrite IH.
Qed.

Lemma find_index_notin l x : x ∉ l -> find_index eqb l x = length l.
Proof.
  induction l as [|y l IH]; intros Hx; cbn; [reflexivity|].
  apply not_elem_of_cons in Hx as [Hne Hx].
  destruct (eqb y x) eqn:E; [apply eqb_eq in E; congruence|]. now rewrite IH.
Qed.

Lemma elem_of_split_first (l : list A) (x : A) :
  x ∈ l -> exists l1 l2, l = l1 ++ x :: l2 /\ x ∉ l1.
Proof.
  induction l as [|y l IH]; intros Hx; [now apply elem_of_nil in Hx|].
  destruct (eqb y x) eqn:E.
  - apply eqb_eq in E as ->.
    exists [], l. split; [reflexivity|apply not_elem_of_nil].
  - assert (Hne : y <> x) by (intros ->; now rewrite (proj2 (eqb_eq x x)) in E).
    apply elem_of_cons in Hx as [->|Hx]; [congruence|].
    destruct (IH Hx) as (l1 & l2 & -> & Hn).
    exists (y :: l1), l2. split; [reflexivity|].
    apply not_elem_of_cons. split; [congruence|assumption].
Qed.

Lemma existsb_eqb_elem l x :
  existsb (fun y => eqb y x) l = true <-> x ∈ l.
Proof.
  rewrite existsb_exists. split.
  - intros (y & Hy & E). apply eqb_eq in E as ->. now apply list_elem_of_In.
  - intros Hx. exists x. split; [now apply list_elem_of_In|].
    now apply eqb_eq.
Qed.

End find_index_facts.

Lemma std_find_app l1 l2 x :
  x ∉ l1 -> std_find (l1 ++ x :: l2) x = length l1.
Proof. apply find_index_app, Z.eqb_eq. Qed.

Lemma std_find_notin l x : x ∉ l -> std_find l x = length l.
Proof. apply find_index_notin, Z.eqb_eq. Qed.

(** ** boost_map: one iteration of the lookup *)

Section boost_find.
Import boost_map.

Lemma reduced_hash_low_byte x :
  reduced_hash x =
  if Z.land x 255 =? 0 then 8 else if Z.land x 255 =? 1 then 9
  else Z.land x 255.
Proof.
  unfold reduced_hash, to_uchar. change 255 with (Z.ones 8).
  rewrite Z.land_ones by lia. reflexivity.
Qed.

Lemma find_loop_found fuel m hash pb info l1 l2 :
  occupied (group_at m (get pb)) = l1 ++ hash :: l2 -> hash ∉ l1 ->
  find_loop (S fuel) m hash pb info
  = Some (incr_cmps
            (add_cmps info
               (count_if (fun x => reduced_hash x =? reduced_hash hash) l1)),
          true).
Proof.
  intros Hocc Hn. cbn [find_loop]. rewrite Hocc, std_find_app by assumption.
  rewrite take_app_length, length_app. cbn [length].
  destruct (Nat.eqb_spec (length l1) (length l1 + S (length l2))); [lia|].
  reflexivity.
Qed.

Lemma find_loop_absent fuel m hash pb info :
  hash ∉ occupied (group_at m (get pb)) ->
  find_loop (S fuel) m hash pb info
  = let g := group_at m (get pb) in
    let info' :=
      add_cmps info
        (count_if (fun x => reduced_hash x =? reduced_hash hash)
                  (occupied g)) in
    if bit_set g hash then
      find_loop fuel m hash (fst (next pb (wrap (size m - 1))))
                (incr_hops info')
    else Some (info', false).
Proof.
  intros Hn. cbn [find_loop]. rewrite std_find_notin by assumption.
  rewrite take_ge by lia. rewrite Nat.eqb_refl. cbn [negb]. unfold bit_set.
  destruct (Z.land _ _ =? 0); reflexivity.
Qed.

End boost_find.

(** ** Word arithmetic: wrap-around sums, bit widths and single bits *)

Lemma wrap_add_l a b : wrap (wrap a + b) = wrap (a + b).
Proof. unfold wrap. apply Zplus_mod_idemp_l. Qed.

Lemma bit_width_pow2_pred k : 0 <= k -> bit_width (2 ^ k - 1) = k.
Proof.
  intros Hk. unfold bit_width.
  destruct (Z.eq_dec k 0) as [->|Hne]; [reflexivity|].
  assert (2 <= 2 ^ k) by (change 2 with (2 ^ 1) at 1; apply Z.pow_le_mono_r; lia).
  destruct (Z.eqb_spec (2 ^ k - 1) 0); [lia|].
  rewrite Z.sub_1_r, Z.log2_pred_pow2 by lia. lia.
Qed.

Lemma bit_width_range x : 0 <= x < modulus -> 0 <= bit_width x <= wordsize.
Proof.
  intros Hx. unfold bit_width. destruct (Z.eqb_spec x 0); [unfold wordsize; lia|].
  assert (Z.log2 x < wordsize) by (apply Z.log2_lt_pow2; [lia|apply Hx]).
  pose proof (Z.log2_nonneg x). lia.
Qed.

Lemma land_pow2_eqb a t :
  0 <= t -> (Z.land a (2 ^ t) =? 0) = negb (Z.testbit a t).
Proof.
  intros Ht. destruct (Z.testbit a t) eqn:E; cbn [negb].
  - apply Z.eqb_neq. intros H0.
    assert (Hb : Z.testbit (Z.land a (2 ^ t)) t = true)
      by (rewrite Z.land_spec, E, Z.pow2_bits_true by lia; reflexivity).
    rewrite H0, Z.bits_0 in Hb. discriminate.
  - apply Z.eqb_eq, Z.bits_inj'. intros i Hi.
    rewrite Z.land_spec, Z.bits_0, Z.pow2_bits_eqb by lia.
    destruct (Z.eqb_spec t i) as [->|]; [now rewrite E|apply andb_false_r].
Qed.

(** ** boost_map: groups and tables *)

Section boost_groups.
Import boost_map.

Lemma overflow_bit_pow2 hash : overflow_bit hash = 2 ^ (hash mod 8).
Proof.
  unfold overflow_bit, to_uchar. rewrite Z.shiftl_1_l.
  pose proof (Z.mod_pos_bound hash 8 ltac:(lia)) as Ht.
  apply Z.mod_small. split; [apply Z.lt_le_incl, pow2_pos; lia|].
  change 256 with (2 ^ 8). apply Z.pow_lt_mono_r; lia.
Qed.

Lemma bit_set_testbit g hash :
  bit_set g hash = Z.testbit (overflow g) (hash mod 8).
Proof.
  unfold bit_set. rewrite overflow_bit_pow2.
  pose proof (Z.mod_pos_bound hash 8 ltac:(lia)).
  rewrite land_pow2_eqb by lia. apply negb_involutive.
Qed.

Lemma overflow_mark_testbit g hash t :
  0 <= t < 8 ->
  Z.testbit (overflow (mark g hash)) t
  = Z.testbit (overflow g) t || (hash mod 8 =? t).
Proof.
  intros Ht. unfold mark, to_uchar. cbn [overflow]. change 256 with (2 ^ 8).
  pose proof (Z.mod_pos_bound hash 8 ltac:(lia)).
  rewrite Z.mod_pow2_bits_low, Z.lor_spec, overflow_bit_pow2 by lia.
  now rewrite Z.pow2_bits_eqb by lia.
Qed.

Lemma bit_set_mark g hash : bit_set (mark g hash) hash = true.
Proof.
  pose proof (Z.mod_pos_bound hash 8 ltac:(lia)).
  rewrite bit_set_testbit, overflow_mark_testbit, Z.eqb_refl by lia.
  apply orb_true_r.
Qed.

Lemma size_set_group m i g : size (set_group m i g) = size m.
Proof. unfold size, set_group. cbn [groups]. now rewrite length_insert. Qed.

Lemma group_at_set_group m i g j :
  group_at (set_group m i g) j
  = if decide (Z.to_nat i = Z.to_nat j /\ (Z.to_nat i < length (groups m))%nat)
    then g else group_at m j.
Proof.
  unfold group_at, set_group. cbn [groups]. rewrite list_lookup_insert.
  destruct (decide _); reflexivity.
Qed.

Lemma group0_inv : group_inv group0.
Proof.
  unfold group_inv, group_ok, group0, N. cbn [elements n overflow].
  rewrite length_replicate. lia.
Qed.

Lemma group_at_inv m i : Forall group_inv (groups m) -> group_inv (group_at m i).
Proof.
  intros HF. unfold group_at.
  destruct (groups m !! Z.to_nat i) as [g|] eqn:E; cbn [default].
  - now apply (proj1 (Forall_lookup _ _) HF _ _ E).
  - apply group0_inv.
Qed.

Lemma group_inv_push g hash :
  group_inv g -> n g < N -> group_inv (push g hash).
Proof.
  unfold group_inv, group_ok, push, N. cbn [elements n overflow].
  intros [(Hlen & Hn & Ho) Hz] Hroom.
  rewrite length_insert, (wrap_small (n g + 1)) by (rewrite modulus_eq; lia).
  lia.
Qed.

Lemma group_inv_mark g hash :
  group_inv g -> ~ n g < N -> group_inv (mark g hash).
Proof.
  unfold group_inv, group_ok, mark, to_uchar, N. cbn [elements n overflow].
  intros [(Hlen & Hn & Ho) Hz] Hfull.
  pose proof (Z.mod_pos_bound (Z.lor (overflow g) (overflow_bit hash)) 256).
  lia.
Qed.

Lemma table_inv_set_group m i g :
  table_inv m -> group_inv g -> table_inv (set_group m i g).
Proof.
  intros [HF Hs] Hg. split.
  - cbn [set_group groups]. now apply Forall_insert.
  - rewrite size_set_group. exact Hs.
Qed.

Lemma table_inv_insert_loop fuel m hash pb m' b :
  table_inv m -> insert_loop fuel m hash pb = Some (m', b) -> table_inv m'.
Proof.
  revert m pb. induction fuel as [|fuel IH]; intros m pb Hinv H; [discriminate|].
  cbn [insert_loop] in H.
  pose proof (group_at_inv m (get pb) (proj1 Hinv)) as Hg.
  destruct (Z.ltb_spec (n (group_at m (get pb))) N) as [Hroom|Hfull].
  - injection H as <- _. apply table_inv_set_group; [assumption|].
    now apply group_inv_push.
  - apply IH in H; [assumption|].
    apply table_inv_set_group; [assumption|]. apply group_inv_mark; [assumption|lia].
Qed.

Lemma table_inv_make capacity :
  0 <= capacity < modulus -> table_inv (make capacity).
Proof.
  intros Hc. split.
  - cbn [make groups]. apply Forall_replicate, group0_inv.
  - unfold size. cbn [make groups shift]. rewrite length_replicate, Z2Nat.id by lia.
    pose proof (bit_width_range (wrap (capacity - 1)) (wrap_range _)) as Hb.
    rewrite (wrap_small (bit_width _)) by (rewrite modulus_eq; unfold wordsize in *; lia).
    apply wrap_small. rewrite modulus_eq. unfold wordsize in *. lia.
Qed.

Lemma reachable_inv m : reachable m -> table_inv m.
Proof.
  induction 1 as [capacity Hc|m fuel hash m' b _ IH _ Hins].
  - now apply table_inv_make.
  - unfold insert in Hins. destruct (find fuel m hash) as [[info [|]]|]; try discriminate.
    + now injection Hins as <- _.
    + now apply table_inv_insert_loop in Hins.
Qed.

End boost_groups.

Lemma boost_find_loop_mono fuel fuel' m hash pb info r :
  (fuel <= fuel')%nat ->
  boost_map.find_loop fuel m hash pb info = Some r ->
  boost_map.find_loop fuel' m hash pb info = Some r.
Proof.
  revert fuel' pb info. induction fuel as [|fuel IH]; intros fuel' pb info Hle H;
    [discriminate|].
  destruct fuel' as [|fuel']; [lia|]. cbn [boost_map.find_loop] in *.
  destruct (negb _); [assumption|]. destruct (_ =? 0); [assumption|].
  apply IH; [lia|assumption].
Qed.

Lemma boost_insert_loop_mono fuel fuel' m hash pb r :
  (fuel <= fuel')%nat ->
  boost_map.insert_loop fuel m hash pb = Some r ->
  boost_map.insert_loop fuel' m hash pb = Some r.
Proof.
  revert fuel' m pb. induction fuel as [|fuel IH]; intros fuel' m pb Hle H;
    [discriminate|].
  destruct fuel' as [|fuel']; [lia|]. cbn [boost_map.insert_loop] in *.
  destruct (_ <? _); [assumption|]. apply IH; [lia|assumption].
Qed.

(** ** boost_map: the lookup along the probe sequence *)

Section boost_find_run.
Import boost_map.
Variables (m : table) (hash : Z).

Local Abbreviation pb0 := (prober (position_for m hash)).
Local Abbreviation mask := (wrap (size m - 1)).
Local Abbreviation rh := (fun x => reduced_hash x =? reduced_hash hash).

Lemma boost_find_stops_false i :
  find_stops m hash i = false ->
  (hash ∉ occupied (group_at m (probed m hash i))) /\
  bit_set (group_at m (probed m hash i)) hash = true.
Proof.
  unfold find_stops, has_key. intros H. apply orb_false_iff in H as [H1 H2].
  apply bool_decide_eq_false in H1. apply negb_false_iff in H2. now split.
Qed.

Lemma boost_find_skip i fuel :
  (forall j, (j < i)%nat -> find_stops m hash j = false) ->
  find_loop (i + fuel) m hash pb0 info0
  = find_loop fuel m hash (advance i pb0 mask)
      {| num_hops := wrap (Z.of_nat i);
         num_cmps := wrap (passed_cmps m hash i) |}.
Proof.
  revert fuel. induction i as [|i IH]; intros fuel Hlt; [reflexivity|].
  replace (S i + fuel)%nat with (i + S fuel)%nat by lia.
  rewrite IH by (intros j Hj; apply Hlt; lia).
  destruct (boost_find_stops_false i (Hlt i ltac:(lia))) as [Hn Hb].
  rewrite find_loop_absent by exact Hn. cbv zeta.
  change (get (advance i pb0 mask)) with (probed m hash i).
  rewrite Hb, advance_S. f_equal. unfold incr_hops, add_cmps.
  cbn [num_hops num_cmps passed_cmps].
  rewrite !wrap_add_l, Nat2Z.inj_succ. reflexivity.
Qed.

Lemma boost_find_none fuel :
  (forall j, (j < fuel)%nat -> find_stops m hash j = false) ->
  find fuel m hash = None.
Proof.
  intros Hlt. unfold find. replace fuel with (fuel + 0)%nat by lia.
  now rewrite (boost_find_skip fuel 0 Hlt).
Qed.

Lemma boost_find_true i fuel l1 l2 :
  (forall j, (j < i)%nat -> find_stops m hash j = false) ->
  occupied (group_at m (probed m hash i)) = l1 ++ hash :: l2 -> hash ∉ l1 ->
  find (S i + fuel) m hash
  = Some ({| num_hops := wrap (Z.of_nat i);
             num_cmps := wrap (passed_cmps m hash i + count_if rh l1 + 1) |},
          true).
Proof.
  intros Hlt Hocc Hn. unfold find.
  replace (S i + fuel)%nat with (i + S fuel)%nat by lia.
  rewrite (boost_find_skip i (S fuel) Hlt).
  rewrite (find_loop_found _ _ _ _ _ l1 l2) by assumption.
  unfold incr_cmps, add_cmps. cbn [num_hops num_cmps].
  now rewrite !wrap_add_l, <- Z.add_assoc, wrap_add_l, Z.add_assoc.
Qed.

Lemma boost_find_false i fuel :
  (forall j, (j < i)%nat -> find_stops m hash j = false) ->
  hash ∉ occupied (group_at m (probed m hash i)) ->
  bit_set (group_at m (probed m hash i)) hash = false ->
  find (S i + fuel) m hash
  = Some ({| num_hops := wrap (Z.of_nat i);
             num_cmps :=
               wrap (passed_cmps m hash i
                     + count_if rh (occupied (group_at m (probed m hash i)))) |},
          false).
Proof.
  intros Hlt Hn Hb. unfold find.
  replace (S i + fuel)%nat with (i + S fuel)%nat by lia.
  rewrite (boost_find_skip i (S fuel) Hlt).
  rewrite find_loop_absent by exact Hn. cbv zeta.
  change (get (advance i pb0 mask)) with (probed m hash i). rewrite Hb.
  unfold add_cmps. cbn [num_hops num_cmps]. now rewrite wrap_add_l.
Qed.

(** What a returning lookup has done. *)
Lemma boost_find_inv fuel info b :
  find fuel m hash = Some (info, b) ->
  exists i c,
    (i < fuel)%nat /\
    (forall j, (j < i)%nat -> find_stops m hash j = false) /\
    b = has_key (group_at m (probed m hash i)) hash /\
    (b = false -> bit_set (group_at m (probed m hash i)) hash = false) /\
    num_hops info = wrap (Z.of_nat i) /\
    0 <= c <= Z.of_nat (length (occupied (group_at m (probed m hash i)))) /\
    num_cmps info
    = wrap (passed_cmps m hash i + c + if b then 1 else 0).
Proof.
  intros H.
  destruct (first_or_none (find_stops m hash) fuel) as [(i & Hi & Hs & Hlt)|Hnone];
    [|rewrite (boost_find_none fuel Hnone) in H; discriminate].
  replace fuel with (S i + (fuel - S i))%nat in H by lia.
  destruct (has_key (group_at m (probed m hash i)) hash) eqn:Hkey.
  - pose proof Hkey as Hin. unfold has_key in Hin.
    apply bool_decide_eq_true in Hin.
    destruct (elem_of_split_first Z.eqb Z.eqb_eq _ _ Hin)
      as (l1 & l2 & Hocc & Hn).
    rewrite (boost_find_true i _ l1 l2 Hlt Hocc Hn) in H.
    injection H as <- <-. exists i, (count_if rh l1).
    split; [assumption|]. split; [assumption|]. split; [now rewrite Hkey|].
    split; [discriminate|]. split; [reflexivity|]. split; [|reflexivity].
    split; [apply count_if_nonneg|].
    rewrite Hocc, length_app. pose proof (count_if_le_length rh l1). lia.
  - unfold find_stops in Hs. rewrite Hkey in Hs. cbn [orb] in Hs.
    apply negb_true_iff in Hs.
    pose proof Hkey as Hin. unfold has_key in Hin.
    apply bool_decide_eq_false in Hin.
    rewrite (boost_find_false i _ Hlt Hin Hs) in H.
    injection H as <- <-.
    exists i, (count_if rh (occupied (group_at m (probed m hash i)))).
    split; [assumption|]. split; [assumption|]. split; [now rewrite Hkey|].
    split; [intros _; assumption|]. split; [reflexivity|].
    split; [|cbn [num_cmps]; f_equal; lia].
    split; [apply count_if_nonneg|apply count_if_le_length].
Qed.

End boost_find_run.

(** ** boost_map: the insertion loop along the probe sequence *)

Section boost_insert_run.
Import boost_map.
Variables (m : table) (hash : Z).

Local Abbreviation pb0 := (prober (position_for m hash)).
Local Abbreviation mask := (wrap (size m - 1)).

Lemma boost_marked_size i : size (marked m hash i) = size m.
Proof.
  induction i as [|i IH]; [reflexivity|]. cbn [marked].
  now rewrite size_set_group.
Qed.

Lemma boost_marked_shift i : shift (marked m hash i) = shift m.
Proof. induction i as [|i IH]; [reflexivity|]. exact IH. Qed.

Lemma boost_marked_group i q :
  elements (group_at (marked m hash i) q) = elements (group_at m q) /\
  n (group_at (marked m hash i) q) = n (group_at m q) /\
  forall t, 0 <= t < 8 ->
    Z.testbit (overflow (group_at m q)) t = true ->
    Z.testbit (overflow (group_at (marked m hash i) q)) t = true.
Proof.
  induction i as [|i (IHe & IHn & IHo)]; [now repeat split|].
  cbn [marked]. rewrite group_at_set_group.
  destruct (decide _) as [[E _]|_]; [|now repeat split].
  assert (Hq : group_at (marked m hash i) (probed m hash i)
               = group_at (marked m hash i) q)
    by (unfold group_at; now rewrite E).
  rewrite Hq. cbn [mark elements n]. split; [assumption|]. split; [assumption|].
  intros t Ht Hb. rewrite overflow_mark_testbit by assumption.
  rewrite (IHo t Ht Hb). reflexivity.
Qed.

Lemma boost_marked_occupied i q :
  occupied (group_at (marked m hash i) q) = occupied (group_at m q).
Proof.
  destruct (boost_marked_group i q) as (He & Hn & _). unfold occupied.
  now rewrite He, Hn.
Qed.

Lemma boost_marked_bit i j :
  (j < i)%nat -> (Z.to_nat (probed m hash j) < length (groups m))%nat ->
  bit_set (group_at (marked m hash i) (probed m hash j)) hash = true.
Proof.
  intros Hji Hr. induction i as [|i IH]; [lia|].
  cbn [marked]. rewrite group_at_set_group.
  destruct (decide _) as [_|Hne]; [apply bit_set_mark|].
  destruct (decide (j = i)) as [->|Hj]; [|apply IH; lia].
  exfalso. apply Hne. split; [reflexivity|].
  pose proof (boost_marked_size i) as Hs. unfold size in Hs. lia.
Qed.

Lemma boost_insert_skip i fuel :
  (forall j, (j < i)%nat -> has_room m hash j = false) ->
  insert_loop (i + fuel) m hash pb0
  = insert_loop fuel (marked m hash i) hash (advance i pb0 mask).
Proof.
  revert fuel. induction i as [|i IH]; intros fuel Hlt; [reflexivity|].
  replace (S i + fuel)%nat with (i + S fuel)%nat by lia.
  rewrite IH by (intros j Hj; apply Hlt; lia).
  cbn [insert_loop marked].
  change (get (advance i pb0 mask)) with (probed m hash i).
  destruct (boost_marked_group i (probed m hash i)) as (_ & -> & _).
  pose proof (Hlt i ltac:(lia)) as Hfull. unfold has_room in Hfull.
  rewrite Hfull, boost_marked_size, advance_S. reflexivity.
Qed.

Lemma boost_insert_loop_at i fuel :
  (forall j, (j < i)%nat -> has_room m hash j = false) ->
  has_room m hash i = true ->
  insert_loop (S i + fuel) m hash pb0
  = Some (inserted m hash i, true).
Proof.
  intros Hlt Hroom.
  replace (S i + fuel)%nat with (i + S fuel)%nat by lia.
  rewrite (boost_insert_skip i (S fuel) Hlt). cbn [insert_loop].
  change (get (advance i pb0 mask)) with (probed m hash i).
  destruct (boost_marked_group i (probed m hash i)) as (_ & Hn & _).
  unfold has_room in Hroom. rewrite Hn, Hroom. reflexivity.
Qed.

Lemma boost_insert_loop_none fuel :
  (forall j, (j < fuel)%nat -> has_room m hash j = false) ->
  insert_loop fuel m hash pb0 = None.
Proof.
  intros Hlt. replace fuel with (fuel + 0)%nat by lia.
  now rewrite (boost_insert_skip fuel 0 Hlt).
Qed.

Lemma boost_insert_loop_inv fuel m' b :
  insert_loop fuel m hash pb0 = Some (m', b) ->
  exists i,
    (i < fuel)%nat /\ has_room m hash i = true /\
    (forall j, (j < i)%nat -> has_room m hash j = false) /\
    b = true /\ m' = inserted m hash i.
Proof.
  intros H.
  destruct (first_or_none (has_room m hash) fuel) as [(i & Hi & Hs & Hlt)|Hnone];
    [|rewrite (boost_insert_loop_none fuel Hnone) in H; discriminate].
  replace fuel with (S i + (fuel - S i))%nat in H by lia.
  rewrite (boost_insert_loop_at i _ Hlt Hs) in H. injection H as <- <-.
  exists i. repeat split; assumption.
Qed.

End boost_insert_run.

(** ** boost_map: tables of [2^k] groups *)

Section boost_pow2.
Import boost_map.
Variables (m : table) (k hash : Z).
Hypothesis Hinv : table_inv m.
Hypothesis Hsize : size m = 2 ^ k.
Hypothesis Hk : 1 <= k < wordsize.
Hypothesis Hhash : 0 <= hash < modulus.

Lemma boost_mask : wrap (size m - 1) = 2 ^ k - 1.
Proof.
  rewrite Hsize. apply wrap_small.
  pose proof (pow2_lt_modulus k ltac:(lia)). pose proof (pow2_pos k). lia.
Qed.

Lemma boost_position_range : 0 <= position_for m hash < 2 ^ k.
Proof.
  unfold position_for. rewrite (proj2 Hinv), boost_mask, bit_width_pow2_pred by lia.
  rewrite Z.shiftr_div_pow2 by lia.
  pose proof (pow2_pos (wordsize - k) ltac:(lia)) as Hp.
  split; [apply Z.div_pos; lia|].
  apply Z.div_lt_upper_bound; [assumption|].
  rewrite <- Z.pow_add_r by lia.
  replace (wordsize - k + k) with wordsize by lia. apply Hhash.
Qed.

Lemma boost_probed_range i : 0 <= probed m hash i < size m.
Proof.
  unfold probed. rewrite boost_mask, Hsize.
  apply probe_range; [lia|apply boost_position_range].
Qed.

Lemma boost_probed_cover q :
  0 <= q < size m ->
  exists i : nat, Z.of_nat i < 2 ^ k /\ probed m hash i = q.
Proof.
  intros Hq. unfold probed. rewrite boost_mask.
  apply probe_cover; [lia|apply boost_position_range|lia].
Qed.

(** A loop that stops on a test of the group it reads stops within the
    first [2^k] iterations if it stops at all. *)
Lemma boost_first_bound (P : Z -> bool) (i : nat) :
  P (probed m hash i) = true ->
  (forall j, (j < i)%nat -> P (probed m hash j) = false) ->
  Z.of_nat i < 2 ^ k.
Proof.
  intros Hi Hlt.
  destruct (boost_probed_cover (probed m hash i) (boost_probed_range i))
    as (i0 & Hi0 & E).
  destruct (Nat.le_gt_cases i i0) as [Hle|Hgt]; [lia|].
  rewrite <- E, (Hlt i0 Hgt) in Hi. discriminate.
Qed.

Lemma boost_passed_cmps_bound i :
  0 <= passed_cmps m hash i <= 15 * Z.of_nat i.
Proof.
  clear Hsize Hk Hhash.
  induction i as [|i IH]; [cbn; lia|]. cbn [passed_cmps].
  pose proof (count_if_nonneg (fun x => reduced_hash x =? reduced_hash hash)
                (occupied (group_at m (probed m hash i)))).
  pose proof (count_if_le_length (fun x => reduced_hash x =? reduced_hash hash)
                (occupied (group_at m (probed m hash i)))) as Hc.
  destruct (group_at_inv m (probed m hash i) (proj1 Hinv)) as [(Hlen & _) _].
  unfold occupied in *. rewrite length_take in Hc. unfold N in Hlen. lia.
Qed.

End boost_pow2.

(** ** boost_map: the table after an insertion *)

Section boost_inserted.
Import boost_map.
Variables (m : table) (hash : Z).

Lemma boost_group_at_to_nat (m0 : table) q q' :
  Z.to_nat q = Z.to_nat q' -> group_at m0 q = group_at m0 q'.
Proof. intros E. unfold group_at. now rewrite E. Qed.

Lemma boost_full_in_range q :
  ~ n (group_at m q) < N -> (Z.to_nat q < length (groups m))%nat.
Proof.
  intros Hfull. apply lookup_lt_is_Some. unfold group_at in Hfull.
  destruct (groups m !! Z.to_nat q); [eauto|].
  exfalso. apply Hfull. cbn. unfold N. lia.
Qed.

Lemma boost_inserted_size i : size (inserted m hash i) = size m.
Proof. unfold inserted. cbv zeta. now rewrite size_set_group, boost_marked_size. Qed.

Lemma boost_inserted_shift i : shift (inserted m hash i) = shift m.
Proof. unfold inserted. cbn [set_group shift]. apply boost_marked_shift. Qed.

Lemma boost_inserted_probed i j :
  probed (inserted m hash i) hash j = probed m hash j.
Proof.
  unfold probed, position_for.
  now rewrite boost_inserted_size, boost_inserted_shift.
Qed.

(** Every group is either left as the marking loop made it or is the group
    that received the key. *)
Lemma boost_inserted_group i q :
  group_at (inserted m hash i) q = group_at (marked m hash i) q \/
  (Z.to_nat q = Z.to_nat (probed m hash i) /\
   (Z.to_nat q < length (groups m))%nat /\
   group_at (inserted m hash i) q = push (group_at (marked m hash i) q) hash).
Proof.
  unfold inserted. rewrite group_at_set_group.
  destruct (decide _) as [[E Hr]|_]; [right|now left].
  pose proof (boost_marked_size m hash i) as Hs. unfold size in Hs.
  split; [now symmetry|]. split; [lia|].
  now rewrite (boost_group_at_to_nat _ _ _ E).
Qed.

Lemma boost_inserted_bit i j :
  has_room m hash i = true ->
  (forall j, (j < i)%nat -> has_room m hash j = false) ->
  (j < i)%nat ->
  bit_set (group_at (inserted m hash i) (probed m hash j)) hash = true.
Proof.
  intros Hroom Hlt Hj.
  pose proof (Hlt j Hj) as Hfull. unfold has_room in Hroom, Hfull.
  apply Z.ltb_lt in Hroom. apply Z.ltb_ge in Hfull.
  assert (Hr : (Z.to_nat (probed m hash j) < length (groups m))%nat)
    by (apply boost_full_in_range; lia).
  destruct (boost_inserted_group i (probed m hash j)) as [->|(E & _ & _)].
  - now apply boost_marked_bit.
  - rewrite (boost_group_at_to_nat m _ _ E) in Hfull. lia.
Qed.

End boost_inserted.

Section boost_inserted_key.
Import boost_map.

Lemma boost_occupied_push g hash :
  length (elements g) = Z.to_nat N -> 0 <= n g < N ->
  occupied (push g hash) = occupied g ++ [hash].
Proof.
  unfold occupied, push, N. cbn [elements n]. intros Hlen Hn.
  rewrite (wrap_small (n g + 1)) by (rewrite modulus_eq; lia).
  replace (Z.to_nat (n g + 1)) with (S (Z.to_nat (n g))) by lia.
  rewrite insert_take_drop by lia.
  rewrite take_app_ge by (rewrite length_take; lia).
  rewrite length_take.
  replace (S (Z.to_nat (n g)) - Z.to_nat (n g) `min` length (elements g))%nat
    with 1%nat by lia.
  reflexivity.
Qed.

Lemma boost_inserted_occupied m hash i :
  table_inv m -> (Z.to_nat (probed m hash i) < length (groups m))%nat ->
  has_room m hash i = true ->
  occupied (group_at (inserted m hash i) (probed m hash i))
  = occupied (group_at m (probed m hash i)) ++ [hash].
Proof.
  intros Hinv Hr Hroom. unfold inserted. cbv zeta.
  rewrite group_at_set_group.
  pose proof (boost_marked_size m hash i) as Hs. unfold size in Hs.
  destruct (decide _) as [_|Hn]; [|exfalso; apply Hn; split; [reflexivity|lia]].
  destruct (boost_marked_group m hash i (probed m hash i)) as (He & Hn & _).
  destruct (group_at_inv m (probed m hash i) (proj1 Hinv)) as [(Hlen & Hnn & _) _].
  unfold has_room in Hroom. apply Z.ltb_lt in Hroom.
  rewrite boost_occupied_push by (rewrite ?He, ?Hn; lia).
  now rewrite (boost_marked_occupied m hash i).
Qed.

End boost_inserted_key.

(** ** boost_map: the claims on the lookup *)

(** C4 (as the code has it).  In each group a lookup visits, the comparisons
    added are the occupied keys that precede the exact match (all occupied
    keys when there is no match) and have the reduced hash of the target,
    plus one for the exact match when it is found.  The reduced hash is the
    low byte with 0 and 1 remapped to 8 and 9. *)
Theorem boost_find_group_cmps (fuel : nat) (m : boost_map.table) (hash : Z)
    (pb : pow2_quadratic_prober) (info : find_info) :
  let g := boost_map.group_at m (get pb) in
  let rh := fun x => boost_map.reduced_hash x =? boost_map.reduced_hash hash in
  (forall l1 l2,
     boost_map.occupied g = l1 ++ hash :: l2 -> hash ∉ l1 ->
     boost_map.find_loop (S fuel) m hash pb info
     = Some (incr_cmps (add_cmps info (count_if rh l1)), true)) /\
  ((hash ∉ boost_map.occupied g) ->
   boost_map.find_loop (S fuel) m hash pb info
   = if boost_map.bit_set g hash then
       boost_map.find_loop fuel m hash
         (fst (next pb (wrap (boost_map.size m - 1))))
         (incr_hops (add_cmps info (count_if rh (boost_map.occupied g))))
     else Some (add_cmps info (count_if rh (boost_map.occupied g)), false)) /\
  (forall x,
     boost_map.reduced_hash x
     = if Z.land x 255 =? 0 then 8 else if Z.land x 255 =? 1 then 9
       else Z.land x 255).
Proof.
  intros g rh. split; [|split].
  - intros l1 l2 Hocc Hn. now apply find_loop_found with (l2 := l2).
  - intros Hn. now rewrite find_loop_absent.
  - apply reduced_hash_low_byte.
Qed.


Lemma boost_find_group_cmps_witness :
  let m := boost_map.set_group (boost_map.make 2) 0
             (boost_map.push boost_map.group0 5) in
  boost_map.find_loop 1 m 5 (prober 0) info0
  = Some ({| num_hops := 0; num_cmps := 1 |}, true) /\
  boost_map.find_loop 1 m 7 (prober 0) info0
  = Some ({| num_hops := 0; num_cmps := 0 |}, false).
Proof.
  intros m. split.
  - apply (proj1 (boost_find_group_cmps 0 m 5 (prober 0) info0) [] []);
      [reflexivity|apply not_elem_of_nil].
  - apply (proj1 (proj2 (boost_find_group_cmps 0 m 7 (prober 0) info0))).
    change (7 ∉ [5]). intros H%list_elem_of_singleton. discriminate.
Defined.


(** C4 as stated fails: after [insert(5)] into an empty table of two groups,
    [find(5)] makes one comparison, where the description counts two (the
    key itself among the keys with its reduced hash, and the confirming
    match). *)
Lemma boost_cmps_counterexample :
  exists m,
    boost_map.insert 1 (boost_map.make 2) 5 = Some (m, true) /\
    boost_map.find 1 m 5 = Some ({| num_hops := 0; num_cmps := 1 |}, true) /\
    boost_map.cmps_as_described (boost_map.group_at m 0) 5 = 2.
Proof. eexists. split; [reflexivity|]. split; vm_compute; reflexivity. Qed.

(** ** boost_map: insertion terminates, and the inserted key is found *)

Section boost_insert_find.
Import boost_map.
Variables (m : table) (k hash : Z).
Hypothesis Hinv : table_inv m.
Hypothesis Hsize : size m = 2 ^ k.
Hypothesis Hk : 1 <= k <= 59.
Hypothesis Hhash : 0 <= hash < modulus.

Local Abbreviation stop_test :=
  (fun q => has_key (group_at m q) hash || negb (bit_set (group_at m q) hash)).

Lemma boost_k_word : 1 <= k < wordsize.
Proof. clear Hinv Hsize Hhash. unfold wordsize. lia. Qed.

Lemma boost_found_cmps_bound (i : nat) c :
  Z.of_nat i < 2 ^ k -> 0 <= c <= 15 ->
  1 <= wrap (passed_cmps m hash i + c + 1).
Proof.
  clear Hsize Hhash.
  intros Hi Hc.
  pose proof (boost_passed_cmps_bound m hash Hinv i) as Hp.
  assert (2 ^ k <= 2 ^ 59) by (apply Z.pow_le_mono_r; lia).
  rewrite wrap_small; [lia|]. rewrite modulus_eq.
  change (2 ^ 59) with 576460752303423488 in *. lia.
Qed.

Lemma boost_occupied_length q :
  Z.of_nat (length (occupied (group_at m q))) <= 15.
Proof.
  clear Hsize Hk Hhash.
  destruct (group_at_inv m q (proj1 Hinv)) as [(Hlen & _) _].
  unfold occupied. rewrite length_take. unfold N in Hlen. lia.
Qed.

(** A lookup that finds its key made at least one comparison. *)
Lemma boost_find_true_counts fuel info :
  find fuel m hash = Some (info, true) ->
  0 <= num_hops info /\ 1 <= num_cmps info.
Proof.
  intros H.
  destruct (boost_find_inv m hash fuel info true H)
    as (i & c & Hi & Hlt & Hkey & _ & Hhops & Hc & Hcmps).
  assert (Hb : Z.of_nat i < 2 ^ k).
  { apply (boost_first_bound m k hash Hinv Hsize boost_k_word Hhash stop_test i).
    - cbv beta. fold (probed m hash i). now rewrite <- Hkey.
    - exact Hlt. }
  rewrite Hhops, Hcmps. split; [apply wrap_range|].
  apply boost_found_cmps_bound; [assumption|].
  pose proof (boost_occupied_length (probed m hash i)). lia.
Qed.

End boost_insert_find.

Section boost_insert_then_find.
Import boost_map.
Variables (m : table) (k hash : Z).
Hypothesis Hinv : table_inv m.
Hypothesis Hsize : size m = 2 ^ k.
Hypothesis Hk : 1 <= k <= 59.
Hypothesis Hhash : 0 <= hash < modulus.

Lemma boost_inserted_found i :
  has_room m hash i = true ->
  (forall j, (j < i)%nat -> has_room m hash j = false) ->
  table_inv (inserted m hash i) ->
  exists fuel info,
    find fuel (inserted m hash i) hash = Some (info, true) /\
    0 <= num_hops info /\ 1 <= num_cmps info.
Proof.
  intros Hroom Hlt Hinv'.
  pose proof (boost_k_word k Hk) as Hkw.
  pose proof (boost_probed_range m k hash Hinv Hsize Hkw Hhash i) as Hr.
  assert (Hr' : (Z.to_nat (probed m hash i) < length (groups m))%nat)
    by (unfold size in Hr; lia).
  assert (Hkey : has_key (group_at (inserted m hash i) (probed m hash i)) hash
                 = true).
  { unfold has_key. apply bool_decide_eq_true.
    rewrite (boost_inserted_occupied m hash i Hinv Hr' Hroom).
    apply elem_of_app. right. apply list_elem_of_singleton. reflexivity. }
  assert (Hsize' : size (inserted m hash i) = 2 ^ k)
    by (now rewrite boost_inserted_size).
  destruct (first_or_none (find_stops (inserted m hash i) hash) (S i))
    as [(i' & Hi' & Hs & Hlt')|Hnone].
  - unfold find_stops in Hs. rewrite boost_inserted_probed in Hs.
    destruct (has_key (group_at (inserted m hash i) (probed m hash i')) hash)
      eqn:Hkey'.
    + unfold has_key in Hkey'. apply bool_decide_eq_true in Hkey'.
      rewrite <- (boost_inserted_probed m hash i i') in Hkey'.
      destruct (elem_of_split_first Z.eqb Z.eqb_eq _ _ Hkey')
        as (l1 & l2 & Hocc & Hn).
      pose proof (boost_find_true _ hash i' 0 l1 l2 Hlt' Hocc Hn) as Hf.
      eexists _, _. split; [exact Hf|].
      exact (boost_find_true_counts _ k hash Hinv' Hsize' Hk Hhash _ _ Hf).
    + cbn [orb] in Hs. apply negb_true_iff in Hs.
      destruct (decide (i' = i)) as [->|Hne]; [congruence|].
      rewrite (boost_inserted_bit m hash i i' Hroom Hlt) in Hs by lia.
      discriminate.
  - specialize (Hnone i ltac:(lia)). unfold find_stops in Hnone.
    rewrite boost_inserted_probed, Hkey in Hnone. discriminate.
Qed.

Lemma boost_insert_then_find fuel m' b :
  insert fuel m hash = Some (m', b) ->
  exists fuel' info,
    find fuel' m' hash = Some (info, true) /\
    0 <= num_hops info /\ 1 <= num_cmps info.
Proof.
  intros H. unfold insert in H.
  destruct (find fuel m hash) as [[info [|]]|] eqn:Hf; try discriminate.
  - injection H as <- _. exists fuel, info. split; [assumption|].
    exact (boost_find_true_counts m k hash Hinv Hsize Hk Hhash _ _ Hf).
  - pose proof (table_inv_insert_loop _ _ _ _ _ _ Hinv H) as Hinv'.
    destruct (boost_insert_loop_inv m hash fuel m' b H)
      as (i & _ & Hroom & Hlt & _ & ->).
    now apply boost_inserted_found.
Qed.

End boost_insert_then_find.

Section boost_termination.
Import boost_map.
Variables (m : table) (k hash : Z).
Hypothesis Hinv : table_inv m.
Hypothesis Hsize : size m = 2 ^ k.
Hypothesis Hk : 1 <= k < wordsize.
Hypothesis Hhash : 0 <= hash < modulus.
Hypothesis Habsent : forall g, g ∈ groups m -> hash ∉ occupied g.

Lemma boost_group_at_elem q :
  0 <= q < size m -> group_at m q ∈ groups m.
Proof.
  clear Hinv Hsize Hk Hhash Habsent.
  intros Hq. unfold group_at, size in *.
  destruct (lookup_lt_is_Some_2 (groups m) (Z.to_nat q) ltac:(lia)) as [g Hg].
  rewrite Hg. cbn [default]. now apply list_elem_of_lookup_2 in Hg.
Qed.

Lemma boost_absent_no_key i :
  has_key (group_at m (probed m hash i)) hash = false.
Proof.
  unfold has_key. apply bool_decide_eq_false. apply Habsent.
  apply boost_group_at_elem. now apply (boost_probed_range m k).
Qed.

Lemma boost_find_absent i :
  has_room m hash i = true ->
  forall fuel, (i < fuel)%nat ->
  exists info, find fuel m hash = Some (info, false).
Proof.
  intros Hroom fuel Hfuel.
  assert (Hs : find_stops m hash i = true).
  { unfold find_stops. rewrite boost_absent_no_key. cbn [orb].
    unfold has_room in Hroom. apply Z.ltb_lt in Hroom.
    destruct (group_at_inv m (probed m hash i) (proj1 Hinv)) as [_ Hz].
    unfold bit_set. rewrite (Hz Hroom). reflexivity. }
  destruct (first_or_none (find_stops m hash) (S i))
    as [(i' & Hi' & Hs' & Hlt')|Hnone];
    [|rewrite (Hnone i) in Hs by lia; discriminate].
  unfold find_stops in Hs'. rewrite boost_absent_no_key in Hs'.
  cbn [orb] in Hs'. apply negb_true_iff in Hs'.
  pose proof (boost_absent_no_key i') as Hk'. unfold has_key in Hk'.
  apply bool_decide_eq_false in Hk'.
  replace fuel with (S i' + (fuel - S i'))%nat by lia.
  rewrite (boost_find_false m hash i' _ Hlt' Hk' Hs'). eauto.
Qed.

Lemma boost_insert_finds_room :
  (exists g, g ∈ groups m /\ n g < N) ->
  exists i : nat,
    Z.of_nat i < 2 ^ k /\ has_room m hash i = true /\
    (forall j, (j < i)%nat -> has_room m hash j = false) /\
    forall fuel, (i < fuel)%nat ->
      insert fuel m hash = Some (inserted m hash i, true).
Proof.
  intros (g & Hg & Hn).
  apply list_elem_of_lookup_1 in Hg as [q Hq].
  pose proof (lookup_lt_Some _ _ _ Hq) as Hlen.
  destruct (boost_probed_cover m k hash Hinv Hsize Hk Hhash (Z.of_nat q))
    as (i0 & Hi0 & E); [unfold size; lia|].
  assert (H0 : has_room m hash i0 = true).
  { unfold has_room, group_at. rewrite E, Nat2Z.id, Hq. now apply Z.ltb_lt. }
  destruct (first_or_none (has_room m hash) (S i0))
    as [(i & Hi & Hroom & Hlt)|Hnone];
    [|rewrite (Hnone i0) in H0 by lia; discriminate].
  exists i. split; [lia|]. split; [assumption|]. split; [assumption|].
  intros fuel Hfuel. unfold insert.
  destruct (boost_find_absent i Hroom fuel Hfuel) as [info ->].
  replace fuel with (S i + (fuel - S i))%nat by lia.
  now apply boost_insert_loop_at.
Qed.

Lemma boost_insert_full_diverges :
  (forall g, g ∈ groups m -> n g = N) ->
  forall fuel, insert fuel m hash = None.
Proof.
  intros Hfull fuel. unfold insert.
  destruct (find fuel m hash) as [[info [|]]|] eqn:Hf; [| |reflexivity].
  - destruct (boost_find_inv m hash fuel info true Hf)
      as (i & _ & _ & _ & Hkey & _).
    rewrite boost_absent_no_key in Hkey. discriminate.
  - apply boost_insert_loop_none. intros j _. unfold has_room.
    rewrite (Hfull (group_at m (probed m hash j))); [reflexivity|].
    apply boost_group_at_elem. now apply (boost_probed_range m k).
Qed.

End boost_termination.

(** ** abseil_map: slots and windows *)

Section abseil_slots.
Import abseil_map.

Lemma abseil_slots_length cnt m first : length (slots cnt m first) = cnt.
Proof.
  revert first. induction cnt as [|c IH]; intros first; [reflexivity|].
  cbn [slots length]. now rewrite IH.
Qed.

Lemma abseil_slots_lookup cnt m first (j : nat) :
  (j < cnt)%nat ->
  slots cnt m first !! j = Some (element_at m (first + Z.of_nat j)).
Proof.
  revert first j. induction cnt as [|c IH]; intros first j Hj; [lia|].
  destruct j as [|j]; cbn [slots lookup].
  - cbn. now rewrite Z.add_0_r.
  - cbn. rewrite IH by lia. do 2 f_equal. lia.
Qed.

Lemma abseil_slots_take cnt t m first :
  (t <= cnt)%nat -> slots t m first = take t (slots cnt m first).
Proof.
  revert t first. induction cnt as [|c IH]; intros t first Ht.
  - now replace t with 0%nat by lia.
  - destruct t as [|t]; [reflexivity|]. cbn [slots take]. f_equal.
    apply IH. lia.
Qed.

Lemma abseil_window_length m pos0 : length (window m pos0) = 16%nat.
Proof. unfold window. now rewrite abseil_slots_length. Qed.

Lemma abseil_window_lookup m pos0 (j : nat) :
  (j < 16)%nat ->
  window m pos0 !! j = Some (element_at m (pos0 + Z.of_nat j)).
Proof. intros Hj. unfold window. now apply abseil_slots_lookup. Qed.

(** The scanning loops, on slot ranges that do not wrap around 2^64. *)
Lemma abseil_find_range_loop cnt m first x :
  0 <= first -> first + Z.of_nat cnt < modulus ->
  find_range_loop cnt m first x
  = first + Z.of_nat (find_index optional_eqb (slots cnt m first) x).
Proof.
  revert first. induction cnt as [|c IH]; intros first H0 Hlt; cbn; [lia|].
  destruct (optional_eqb (element_at m first) x); [lia|].
  rewrite (wrap_small (first + 1)) by lia. rewrite IH by lia. lia.
Qed.

Lemma abseil_num_cmps_loop cnt m first hash res :
  0 <= first -> first + Z.of_nat cnt < modulus ->
  0 <= res -> res + Z.of_nat cnt < modulus ->
  num_cmps_loop cnt m first hash res
  = res + count_if (low7_match hash) (slots cnt m first).
Proof.
  revert first res. induction cnt as [|c IH]; intros first res H0 Hlt Hr Hrl;
    cbn [num_cmps_loop slots count_if]; [lia|].
  rewrite (wrap_small (first + 1)) by lia.
  destruct (element_at m first) as [y|]; cbn [low7_match].
  - destruct (Z.land y 127 =? Z.land hash 127).
    + rewrite (wrap_small (res + 1)) by lia. rewrite IH by lia. lia.
    + rewrite IH by lia. lia.
  - rewrite IH by lia. lia.
Qed.

Lemma abseil_find_range m pos0 x :
  0 <= pos0 -> pos0 + 16 < modulus ->
  find_range m pos0 (wrap (pos0 + N)) x
  = pos0 + Z.of_nat (find_index optional_eqb (window m pos0) x).
Proof.
  intros H0 Hlt. unfold find_range, N.
  rewrite (wrap_small (pos0 + 16)) by lia.
  replace (pos0 + 16 - pos0) with 16 by lia.
  rewrite (wrap_small 16) by (rewrite modulus_eq; lia).
  rewrite abseil_find_range_loop by (change (Z.of_nat (Z.to_nat 16)) with 16; lia).
  reflexivity.
Qed.

Lemma abseil_num_cmps m pos0 (t : nat) hash :
  0 <= pos0 -> pos0 + 16 < modulus -> (t <= 16)%nat ->
  num_cmps m pos0 (pos0 + Z.of_nat t) hash
  = count_if (low7_match hash) (take t (window m pos0)).
Proof.
  intros H0 Hlt Ht. unfold num_cmps.
  replace (pos0 + Z.of_nat t - pos0) with (Z.of_nat t) by lia.
  rewrite (wrap_small (Z.of_nat t)) by (rewrite modulus_eq; lia).
  rewrite Nat2Z.id.
  rewrite abseil_num_cmps_loop by (rewrite ?modulus_eq in *; lia).
  unfold window. rewrite <- abseil_slots_take by (unfold N; lia). lia.
Qed.

Lemma existsb_is_empty (w : list (option Z)) :
  existsb is_empty w = true <-> None ∈ w.
Proof.
  rewrite <- (existsb_eqb_elem optional_eqb optional_eqb_eq).
  assert (E : forall l : list (option Z),
             existsb is_empty l = existsb (fun y => optional_eqb y None) l).
  { induction l as [|[y|] l IH]; cbn; congruence. }
  now rewrite E.
Qed.

End abseil_slots.

(** ** abseil_map: tables of [2^k] logical groups *)

Section abseil_pow2.
Import abseil_map.
Variables (m : table) (k : Z).
Hypothesis Hsize : size m = 2 ^ k * N.
Hypothesis Hk : 0 <= k <= 59.

Lemma abseil_size_pow2 : size m = 2 ^ (k + 4).
Proof. rewrite Hsize, Z.pow_add_r by lia. reflexivity. Qed.

Lemma abseil_size_bound : 16 <= size m /\ size m + 16 < modulus.
Proof.
  rewrite Hsize. unfold N. pose proof (pow2_pos k ltac:(lia)).
  assert (2 ^ k <= 2 ^ 59) by (apply Z.pow_le_mono_r; lia).
  rewrite modulus_eq. change (2 ^ 59) with 576460752303423488 in *. lia.
Qed.

Lemma abseil_elem_mask : wrap (size m - 1) = 2 ^ (k + 4) - 1.
Proof.
  pose proof abseil_size_bound. rewrite <- abseil_size_pow2.
  apply wrap_small. lia.
Qed.

Lemma abseil_group_mask : wrap (size m / N - 1) = 2 ^ k - 1.
Proof.
  rewrite Hsize, Z.div_mul by (unfold N; lia).
  pose proof abseil_size_bound as Hb. rewrite Hsize in Hb. unfold N in Hb.
  apply wrap_small. pose proof (pow2_pos k ltac:(lia)). lia.
Qed.

Lemma abseil_index pos : Z.land pos (wrap (size m - 1)) = pos mod size m.
Proof. rewrite abseil_elem_mask, land_mask, <- abseil_size_pow2 by lia. reflexivity. Qed.

Lemma abseil_position_range hash : 0 <= position_for m hash < size m.
Proof.
  unfold position_for. rewrite abseil_index. apply Z.mod_pos_bound.
  pose proof abseil_size_bound. lia.
Qed.

Lemma abseil_pos0 g off :
  0 <= g < 2 ^ k -> 0 <= off < N ->
  wrap (wrap (g * N) + off) = g * N + off /\ 0 <= g * N + off < size m.
Proof.
  intros Hg Hoff. pose proof abseil_size_bound as Hb.
  rewrite Hsize in *. unfold N in *.
  rewrite (wrap_small (g * 16)) by nia. rewrite wrap_small by nia. nia.
Qed.

Section one_window.
Variables (hash off : Z) (pb : pow2_quadratic_prober).
Hypothesis Hpb : 0 <= get pb < 2 ^ k.
Hypothesis Hoff : 0 <= off < N.

Lemma abseil_find_loop_found fuel info l1 l2 :
  window m (get pb * N + off) = l1 ++ Some hash :: l2 -> Some hash ∉ l1 ->
  find_loop (S fuel) m hash off pb info
  = Some (incr_cmps (add_cmps info (count_if (low7_match hash) l1)), true).
Proof.
  intros Hw Hn. cbn [find_loop].
  destruct (abseil_pos0 (get pb) off Hpb Hoff) as [-> Hr].
  pose proof abseil_size_bound as Hb.
  set (pos0 := get pb * N + off) in *.
  rewrite abseil_find_range by lia.
  rewrite Hw, (find_index_app optional_eqb optional_eqb_eq) by assumption.
  pose proof (abseil_window_length m pos0) as Hlen.
  rewrite Hw, length_app in Hlen. cbn [length] in Hlen.
  rewrite abseil_num_cmps by lia.
  rewrite Hw, take_app_length.
  rewrite (wrap_small (pos0 + N)) by (unfold N; lia).
  destruct (Z.eqb_spec (pos0 + Z.of_nat (length l1)) (pos0 + N));
    [unfold N in *; lia|].
  reflexivity.
Qed.

Lemma abseil_find_loop_absent fuel info :
  Some hash ∉ window m (get pb * N + off) ->
  find_loop (S fuel) m hash off pb info
  = let w := window m (get pb * N + off) in
    let info' := add_cmps info (count_if (low7_match hash) w) in
    if existsb is_empty w then Some (info', false)
    else find_loop fuel m hash off
           (fst (next pb (wrap (size m / N - 1)))) (incr_hops info').
Proof.
  intros Hn. cbn [find_loop].
  destruct (abseil_pos0 (get pb) off Hpb Hoff) as [-> Hr].
  pose proof abseil_size_bound as Hb.
  set (pos0 := get pb * N + off) in *.
  rewrite !abseil_find_range by lia.
  rewrite (find_index_notin optional_eqb optional_eqb_eq _ _ Hn).
  pose proof (abseil_window_length m pos0) as Hlen. rewrite Hlen.
  rewrite abseil_num_cmps by lia.
  rewrite take_ge by lia.
  rewrite (wrap_small (pos0 + N)) by (unfold N; lia).
  change (Z.of_nat 16) with N. rewrite Z.eqb_refl. cbn [negb]. cbv zeta.
  destruct (existsb is_empty (window m pos0)) eqn:E.
  - apply existsb_is_empty in E.
    destruct (elem_of_split_first optional_eqb optional_eqb_eq _ _ E)
      as (l1 & l2 & Hw & Hn1).
    rewrite Hw, (find_index_app optional_eqb optional_eqb_eq) by assumption.
    rewrite Hw, length_app in Hlen. cbn [length] in Hlen.
    destruct (Z.eqb_spec (pos0 + Z.of_nat (length l1)) (pos0 + N));
      [unfold N in *; lia|].
    reflexivity.
  - assert (Hne : None ∉ window m pos0).
    { intros Hin. apply existsb_is_empty in Hin. congruence. }
    rewrite (find_index_notin optional_eqb optional_eqb_eq _ _ Hne), Hlen.
    change (Z.of_nat 16) with N. rewrite Z.eqb_refl. reflexivity.
Qed.

End one_window.
End abseil_pow2.

(** ** abseil_map: the lookup along the probe sequence *)

Section abseil_find_run.
Import abseil_map(N, table, size, position_for, find_loop, find, window,
                  low7_match, is_empty, probed, find_stops, passed_cmps).
Variables (m : table) (k hash : Z).
Hypothesis Hsize : size m = 2 ^ k * N.
Hypothesis Hk : 0 <= k <= 59.

#[local] Opaque abseil_map.window.

Local Abbreviation off := (position_for m hash mod N).
Local Abbreviation pb0 := (prober (position_for m hash / N)).
Local Abbreviation mask := (wrap (size m / N - 1)).

Lemma abseil_off_range : 0 <= off < N.
Proof. clear Hsize Hk. apply Z.mod_pos_bound. unfold N. lia. Qed.

Lemma abseil_start_range : 0 <= position_for m hash / N < 2 ^ k.
Proof.
  pose proof (abseil_position_range m k Hsize Hk hash) as Hr.
  rewrite Hsize in Hr. unfold N in *.
  split; [apply Z.div_pos; lia|apply Z.div_lt_upper_bound; lia].
Qed.

Lemma abseil_advance_range i : 0 <= get (advance i pb0 mask) < 2 ^ k.
Proof.
  rewrite (abseil_group_mask m k Hsize Hk).
  apply probe_range; [unfold wordsize; lia|apply abseil_start_range].
Qed.

Lemma abseil_probed_range i : 0 <= probed m hash i < size m.
Proof.
  unfold probed.
  apply (abseil_pos0 m k Hsize Hk);
    [apply abseil_advance_range|apply abseil_off_range].
Qed.

Lemma abseil_probed_cover g :
  0 <= g < 2 ^ k ->
  exists i : nat, Z.of_nat i < 2 ^ k /\ probed m hash i = g * N + off.
Proof.
  intros Hg. unfold probed. rewrite (abseil_group_mask m k Hsize Hk).
  destruct (probe_cover k (position_for m hash / N) g)
    as (i & Hi & E); [unfold wordsize; lia|apply abseil_start_range|lia|].
  exists i. split; [assumption|]. now rewrite E.
Qed.

(** A loop that stops on a test of the window it reads stops within the
    first [2^k] iterations if it stops at all. *)
Lemma abseil_first_bound (P : Z -> bool) (i : nat) :
  P (probed m hash i) = true ->
  (forall j, (j < i)%nat -> P (probed m hash j) = false) ->
  Z.of_nat i < 2 ^ k.
Proof.
  intros Hi Hlt.
  destruct (abseil_probed_cover (get (advance i pb0 mask))
              (abseil_advance_range i)) as (i0 & Hi0 & E).
  fold (probed m hash i) in E.
  destruct (Nat.le_gt_cases i i0) as [Hle|Hgt]; [lia|].
  rewrite <- E, (Hlt i0 Hgt) in Hi. discriminate.
Qed.

Lemma abseil_find_stops_false i :
  find_stops m hash i = false ->
  (Some hash ∉ window m (probed m hash i)) /\
  existsb is_empty (window m (probed m hash i)) = false.
Proof.
  clear Hsize Hk.
  unfold find_stops. intros H. apply orb_false_iff in H as [H1 H2].
  split; [|assumption]. intros Hin.
  apply (existsb_eqb_elem optional_eqb optional_eqb_eq) in Hin. congruence.
Qed.

Lemma abseil_find_skip i fuel :
  (forall j, (j < i)%nat -> find_stops m hash j = false) ->
  find_loop (i + fuel) m hash off pb0 info0
  = find_loop fuel m hash off (advance i pb0 mask)
      {| num_hops := wrap (Z.of_nat i);
         num_cmps := wrap (passed_cmps m hash i) |}.
Proof.
  revert fuel. induction i as [|i IH]; intros fuel Hlt; [reflexivity|].
  replace (S i + fuel)%nat with (i + S fuel)%nat by lia.
  rewrite IH by (intros j Hj; apply Hlt; lia).
  destruct (abseil_find_stops_false i (Hlt i ltac:(lia))) as [Hn He].
  rewrite (abseil_find_loop_absent m k Hsize Hk hash off _
             (abseil_advance_range i) abseil_off_range) by exact Hn.
  cbv zeta. fold (probed m hash i).
  rewrite He, advance_S. f_equal. unfold incr_hops, add_cmps.
  cbn [num_hops num_cmps passed_cmps].
  rewrite !wrap_add_l, Nat2Z.inj_succ. reflexivity.
Qed.

Lemma abseil_find_none fuel :
  (forall j, (j < fuel)%nat -> find_stops m hash j = false) ->
  find fuel m hash = None.
Proof.
  intros Hlt. unfold find. cbv zeta. replace fuel with (fuel + 0)%nat by lia.
  now rewrite (abseil_find_skip fuel 0 Hlt).
Qed.

Lemma abseil_find_true i fuel l1 l2 :
  (forall j, (j < i)%nat -> find_stops m hash j = false) ->
  window m (probed m hash i) = l1 ++ Some hash :: l2 -> Some hash ∉ l1 ->
  find (S i + fuel) m hash
  = Some ({| num_hops := wrap (Z.of_nat i);
             num_cmps :=
               wrap (passed_cmps m hash i
                     + count_if (low7_match hash) l1 + 1) |},
          true).
Proof.
  intros Hlt Hw Hn. unfold find. cbv zeta.
  replace (S i + fuel)%nat with (i + S fuel)%nat by lia.
  rewrite (abseil_find_skip i (S fuel) Hlt).
  rewrite (abseil_find_loop_found m k Hsize Hk hash off _
             (abseil_advance_range i) abseil_off_range _ _ l1 l2)
    by assumption.
  unfold incr_cmps, add_cmps. cbn [num_hops num_cmps].
  now rewrite !wrap_add_l, <- Z.add_assoc, wrap_add_l, Z.add_assoc.
Qed.

Lemma abseil_find_false i fuel :
  (forall j, (j < i)%nat -> find_stops m hash j = false) ->
  Some hash ∉ window m (probed m hash i) ->
  existsb is_empty (window m (probed m hash i)) = true ->
  find (S i + fuel) m hash
  = Some ({| num_hops := wrap (Z.of_nat i);
             num_cmps :=
               wrap (passed_cmps m hash i
                     + count_if (low7_match hash)
                         (window m (probed m hash i))) |},
          false).
Proof.
  intros Hlt Hn He. unfold find. cbv zeta.
  replace (S i + fuel)%nat with (i + S fuel)%nat by lia.
  rewrite (abseil_find_skip i (S fuel) Hlt).
  rewrite (abseil_find_loop_absent m k Hsize Hk hash off _
             (abseil_advance_range i) abseil_off_range) by exact Hn.
  cbv zeta. fold (probed m hash i). rewrite He.
  unfold add_cmps. cbn [num_hops num_cmps]. now rewrite wrap_add_l.
Qed.

(** What a returning lookup has done. *)
Lemma abseil_find_inv fuel info b :
  find fuel m hash = Some (info, b) ->
  exists i c,
    (i < fuel)%nat /\
    (forall j, (j < i)%nat -> find_stops m hash j = false) /\
    (b = true <-> Some hash ∈ window m (probed m hash i)) /\
    (b = false -> existsb is_empty (window m (probed m hash i)) = true) /\
    num_hops info = wrap (Z.of_nat i) /\
    0 <= c <= 16 /\
    num_cmps info = wrap (passed_cmps m hash i + c + if b then 1 else 0).
Proof.
  intros H.
  destruct (first_or_none (find_stops m hash) fuel) as [(i & Hi & Hs & Hlt)|Hnone];
    [|rewrite (abseil_find_none fuel Hnone) in H; discriminate].
  replace fuel with (S i + (fuel - S i))%nat in H by lia.
  pose proof (abseil_window_length m (probed m hash i)) as Hlen.
  destruct (decide (Some hash ∈ window m (probed m hash i))) as [Hin|Hin].
  - destruct (elem_of_split_first optional_eqb optional_eqb_eq _ _ Hin)
      as (l1 & l2 & Hw & Hn).
    rewrite (abseil_find_true i _ l1 l2 Hlt Hw Hn) in H.
    injection H as <- <-. exists i, (count_if (low7_match hash) l1).
    split; [assumption|]. split; [assumption|]. split; [tauto|].
    split; [discriminate|]. split; [reflexivity|]. split; [|reflexivity].
    split; [apply count_if_nonneg|].
    rewrite Hw, length_app in Hlen.
    pose proof (count_if_le_length (low7_match hash) l1). lia.
  - assert (He : existsb is_empty (window m (probed m hash i)) = true).
    { unfold find_stops in Hs. apply orb_true_iff in Hs as [Hs|Hs]; [|assumption].
      apply (existsb_eqb_elem optional_eqb optional_eqb_eq) in Hs. tauto. }
    rewrite (abseil_find_false i _ Hlt Hin He) in H.
    injection H as <- <-.
    exists i, (count_if (low7_match hash) (window m (probed m hash i))).
    split; [assumption|]. split; [assumption|].
    split; [split; [discriminate|tauto]|].
    split; [intros _; assumption|]. split; [reflexivity|].
    split; [|rewrite Z.add_0_r; reflexivity].
    split; [apply count_if_nonneg|].
    pose proof (count_if_le_length (low7_match hash)
                  (window m (probed m hash i))). lia.
Qed.

Lemma abseil_passed_cmps_bound i :
  0 <= passed_cmps m hash i <= 16 * Z.of_nat i.
Proof.
  clear Hsize Hk.
  induction i as [|i IH]; [cbn; lia|]. cbn [passed_cmps].
  pose proof (count_if_nonneg (low7_match hash) (window m (probed m hash i))).
  pose proof (count_if_le_length (low7_match hash)
                (window m (probed m hash i))) as Hc.
  rewrite abseil_window_length in Hc. lia.
Qed.

(** A lookup that finds its key made at least one comparison. *)
Lemma abseil_find_true_counts fuel info :
  find fuel m hash = Some (info, true) ->
  0 <= num_hops info /\ 1 <= num_cmps info.
Proof.
  intros H.
  destruct (abseil_find_inv fuel info true H)
    as (i & c & Hi & Hlt & Hkey & _ & Hhops & Hc & Hcmps).
  assert (Hb : Z.of_nat i < 2 ^ k).
  { apply (abseil_first_bound
             (fun q => existsb (fun x => optional_eqb x (Some hash)) (window m q)
                       || existsb is_empty (window m q)) i).
    - cbv beta. apply orb_true_iff. left.
      apply (existsb_eqb_elem optional_eqb optional_eqb_eq). now apply Hkey.
    - exact Hlt. }
  rewrite Hhops, Hcmps. split; [apply wrap_range|].
  pose proof (abseil_passed_cmps_bound i) as Hp.
  assert (2 ^ k <= 2 ^ 59) by (apply Z.pow_le_mono_r; lia).
  rewrite wrap_small; [lia|]. rewrite modulus_eq.
  change (2 ^ 59) with 576460752303423488 in *. lia.
Qed.

#[local] Transparent abseil_map.window.

End abseil_find_run.

(** ** abseil_map: the insertion loop *)

Lemma wrap_add_r a b : wrap (a + wrap b) = wrap (a + b).
Proof. unfold wrap. apply Zplus_mod_idemp_r. Qed.

Section abseil_insert_any.
Import abseil_map.

Lemma abseil_find_range_loop_cases cnt m first x :
  0 <= first < modulus ->
  find_range_loop cnt m first x = wrap (first + Z.of_nat cnt) \/
  optional_eqb (element_at m (find_range_loop cnt m first x)) x = true.
Proof.
  revert first. induction cnt as [|c IH]; intros first Hr.
  - left. cbn. rewrite Z.add_0_r. symmetry. now apply wrap_small.
  - cbn [find_range_loop].
    destruct (optional_eqb (element_at m first) x) eqn:E; [now right|].
    destruct (IH (wrap (first + 1)) (wrap_range _)) as [->|H]; [left|now right].
    rewrite wrap_add_l. f_equal. lia.
Qed.

(** The insertion loop writes the key to a slot that was empty. *)
Lemma abseil_insert_loop_writes fuel m hash off pb m' b :
  insert_loop fuel m hash off pb = Some (m', b) ->
  exists pos1,
    element_at m pos1 = None /\ m' = set_element_at m pos1 (Some hash) /\
    b = true.
Proof.
  revert pb. induction fuel as [|fuel IH]; intros pb H; [discriminate|].
  cbn [insert_loop] in H.
  set (pos0 := wrap (wrap (get pb * N) + off)) in *.
  destruct (Z.eqb_spec (find_range m pos0 (wrap (pos0 + N)) None)
              (wrap (pos0 + N))) as [E|E]; cbn [negb] in H.
  - now apply IH in H.
  - injection H as <- <-. eexists. split; [|split; reflexivity].
    unfold find_range in *.
    set (cnt := Z.to_nat (wrap (wrap (pos0 + N) - pos0))) in *.
    destruct (abseil_find_range_loop_cases cnt m pos0 None (wrap_range _))
      as [Hend|Hstop].
    + exfalso. apply E. rewrite Hend. subst cnt.
      rewrite Z2Nat.id by apply wrap_range.
      rewrite wrap_add_r.
      replace (pos0 + (wrap (pos0 + N) - pos0)) with (wrap (pos0 + N)) by lia.
      apply wrap_small, wrap_range.
    + now apply optional_eqb_eq in Hstop.
Qed.

Lemma abseil_size_set_element_at m pos x :
  size (set_element_at m pos x) = size m.
Proof. unfold size, set_element_at. cbn [elements]. now rewrite length_insert. Qed.

(** Writing to an empty slot leaves every occupied slot as it was. *)
Lemma abseil_write_keeps m pos1 y idx x :
  element_at m pos1 = None ->
  elements m !! idx = Some (Some x) ->
  elements (set_element_at m pos1 y) !! idx = Some (Some x).
Proof.
  unfold element_at, set_element_at. cbn [elements]. intros He Hx.
  destruct (decide (Z.to_nat (Z.land pos1 (wrap (size m - 1))) = idx)) as [<-|Hne].
  - rewrite Hx in He. discriminate.
  - now rewrite list_lookup_insert_ne.
Qed.

Lemma abseil_write_element_at m pos1 y pos x :
  element_at m pos1 = None ->
  element_at m pos = Some x ->
  element_at (set_element_at m pos1 y) pos = Some x.
Proof.
  intros He Hx. unfold element_at in Hx |- *.
  rewrite abseil_size_set_element_at.
  destruct (elements m !! Z.to_nat (Z.land pos (wrap (size m - 1)))) as [o|] eqn:E;
    cbn in Hx; [|discriminate]. subst o.
  now rewrite (abseil_write_keeps m pos1 y _ x He E).
Qed.

End abseil_insert_any.

Section abseil_insert_run.
Import abseil_map.
Variables (m : table) (k hash : Z).
Hypothesis Hsize : size m = 2 ^ k * N.
Hypothesis Hk : 0 <= k <= 59.

#[local] Opaque abseil_map.window.

Local Abbreviation off := (position_for m hash mod N).
Local Abbreviation pb0 := (prober (position_for m hash / N)).
Local Abbreviation mask := (wrap (size m / N - 1)).

Lemma abseil_insert_loop_step fuel i :
  insert_loop (S fuel) m hash off (advance i pb0 mask)
  = if has_room m hash i then Some (inserted m hash i, true)
    else insert_loop fuel m hash off (advance (S i) pb0 mask).
Proof.
  cbn [insert_loop].
  destruct (abseil_pos0 m k Hsize Hk _ off
              (abseil_advance_range m k hash Hsize Hk i)
              (abseil_off_range m hash)) as [-> Hr].
  fold (probed m hash i) in Hr |- *. pose proof (abseil_size_bound m k Hsize Hk) as Hb.
  rewrite abseil_find_range by lia.
  rewrite (wrap_small (probed m hash i + N)) by (unfold N; lia).
  pose proof (abseil_window_length m (probed m hash i)) as Hlen.
  unfold has_room, inserted. cbv zeta.
  destruct (existsb is_empty (window m (probed m hash i))) eqn:E.
  - apply existsb_is_empty in E.
    destruct (elem_of_split_first optional_eqb optional_eqb_eq _ _ E)
      as (l1 & l2 & Hw & Hn1).
    rewrite Hw, (find_index_app optional_eqb optional_eqb_eq) by assumption.
    rewrite Hw, length_app in Hlen. cbn [length] in Hlen.
    destruct (Z.eqb_spec (probed m hash i + Z.of_nat (length l1))
                (probed m hash i + N)); [unfold N in *; lia|].
    reflexivity.
  - assert (Hne : None ∉ window m (probed m hash i)).
    { intros Hin. apply existsb_is_empty in Hin. congruence. }
    rewrite (find_index_notin optional_eqb optional_eqb_eq _ _ Hne), Hlen.
    change (Z.of_nat 16) with N. rewrite Z.eqb_refl. cbn [negb].
    now rewrite advance_S.
Qed.

Lemma abseil_insert_skip i fuel :
  (forall j, (j < i)%nat -> has_room m hash j = false) ->
  insert_loop (i + fuel) m hash off pb0
  = insert_loop fuel m hash off (advance i pb0 mask).
Proof.
  revert fuel. induction i as [|i IH]; intros fuel Hlt; [reflexivity|].
  replace (S i + fuel)%nat with (i + S fuel)%nat by lia.
  rewrite IH by (intros j Hj; apply Hlt; lia).
  now rewrite abseil_insert_loop_step, (Hlt i) by lia.
Qed.

Lemma abseil_insert_loop_at i fuel :
  (forall j, (j < i)%nat -> has_room m hash j = false) ->
  has_room m hash i = true ->
  insert_loop (S i + fuel) m hash off pb0 = Some (inserted m hash i, true).
Proof.
  intros Hlt Hroom.
  replace (S i + fuel)%nat with (i + S fuel)%nat by lia.
  now rewrite (abseil_insert_skip i (S fuel) Hlt), abseil_insert_loop_step, Hroom.
Qed.

Lemma abseil_insert_loop_none fuel :
  (forall j, (j < fuel)%nat -> has_room m hash j = false) ->
  insert_loop fuel m hash off pb0 = None.
Proof.
  intros Hlt. replace fuel with (fuel + 0)%nat by lia.
  now rewrite (abseil_insert_skip fuel 0 Hlt).
Qed.

Lemma abseil_insert_loop_inv fuel m' b :
  insert_loop fuel m hash off pb0 = Some (m', b) ->
  exists i,
    (i < fuel)%nat /\ has_room m hash i = true /\
    (forall j, (j < i)%nat -> has_room m hash j = false) /\
    b = true /\ m' = inserted m hash i.
Proof.
  intros H.
  destruct (first_or_none (has_room m hash) fuel) as [(i & Hi & Hs & Hlt)|Hnone];
    [|rewrite (abseil_insert_loop_none fuel Hnone) in H; discriminate].
  replace fuel with (S i + (fuel - S i))%nat in H by lia.
  rewrite (abseil_insert_loop_at i _ Hlt Hs) in H.
  assert (m' = inserted m hash i /\ b = true) as [-> ->]
    by (split; congruence).
  exists i. repeat split; assumption.
Qed.

(** The table after the key went to the first empty slot of window [i]. *)
Lemma abseil_inserted_size i : size (inserted m hash i) = size m.
Proof. clear Hsize Hk. apply abseil_size_set_element_at. Qed.

Lemma abseil_inserted_probed i j :
  probed (inserted m hash i) hash j = probed m hash j.
Proof.
  clear Hsize Hk. unfold probed, position_for.
  now rewrite abseil_inserted_size.
Qed.

Lemma abseil_first_empty i :
  has_room m hash i = true ->
  exists t : nat,
    (t < 16)%nat /\
    find_index optional_eqb (window m (probed m hash i)) None = t /\
    element_at m (probed m hash i + Z.of_nat t) = None.
Proof.
  clear Hsize Hk.
  intros Hroom. unfold has_room in Hroom. apply existsb_is_empty in Hroom.
  destruct (elem_of_split_first optional_eqb optional_eqb_eq _ _ Hroom)
    as (l1 & l2 & Hw & Hn1).
  pose proof (abseil_window_length m (probed m hash i)) as Hlen.
  rewrite Hw, length_app in Hlen. cbn [length] in Hlen.
  exists (length l1). split; [lia|].
  split; [now rewrite Hw, (find_index_app optional_eqb optional_eqb_eq)|].
  assert (Hl : window m (probed m hash i) !! length l1 = Some None)
    by (rewrite Hw; apply list_lookup_middle; reflexivity).
  rewrite abseil_window_lookup in Hl by lia. congruence.
Qed.

Lemma abseil_inserted_keeps i pos x :
  has_room m hash i = true ->
  element_at m pos = Some x -> element_at (inserted m hash i) pos = Some x.
Proof.
  clear Hsize Hk.
  intros Hroom Hx. destruct (abseil_first_empty i Hroom) as (t & _ & Et & He).
  unfold inserted. cbv zeta. rewrite Et. now apply abseil_write_element_at.
Qed.

Lemma abseil_inserted_key i :
  has_room m hash i = true ->
  Some hash ∈ window (inserted m hash i) (probed m hash i).
Proof.
  intros Hroom. destruct (abseil_first_empty i Hroom) as (t & Ht & Et & He).
  apply list_elem_of_lookup. exists t.
  rewrite abseil_window_lookup by lia. f_equal. unfold inserted. cbv zeta. rewrite Et.
  unfold element_at. rewrite abseil_size_set_element_at.
  unfold set_element_at. cbn [elements].
  rewrite list_lookup_insert_eq; [reflexivity|].
  rewrite (abseil_index m k Hsize Hk).
  pose proof (abseil_size_bound m k Hsize Hk) as Hb.
  pose proof (Z.mod_pos_bound (probed m hash i + Z.of_nat t) (size m) ltac:(lia)) as Hm.
  unfold size in *. lia.
Qed.

Lemma abseil_inserted_no_empty i q :
  has_room m hash i = true ->
  existsb is_empty (window m q) = false ->
  existsb is_empty (window (inserted m hash i) q) = false.
Proof.
  clear Hsize Hk.
  intros Hroom Hfull.
  destruct (existsb is_empty (window (inserted m hash i) q)) eqn:E;
    [exfalso|reflexivity].
  apply existsb_is_empty, list_elem_of_lookup in E as [j Hj].
  pose proof (lookup_lt_Some _ _ _ Hj) as Hlt.
  rewrite abseil_window_length in Hlt.
  rewrite abseil_window_lookup in Hj by lia.
  destruct (element_at m (q + Z.of_nat j)) as [x|] eqn:Ex.
  - rewrite (abseil_inserted_keeps i _ x Hroom Ex) in Hj. discriminate.
  - assert (Hin : None ∈ window m q).
    { apply list_elem_of_lookup. exists j.
      rewrite abseil_window_lookup by lia. now rewrite Ex. }
    apply existsb_is_empty in Hin. congruence.
Qed.

#[local] Transparent abseil_map.window.

End abseil_insert_run.

Section abseil_insert_then_find.
Import abseil_map(N, table, size, position_for, find, insert, window,
                  is_empty, probed, find_stops, has_room, inserted).
Variables (m : table) (k hash : Z).
Hypothesis Hsize : size m = 2 ^ k * N.
Hypothesis Hk : 0 <= k <= 59.

Lemma abseil_inserted_found i :
  has_room m hash i = true ->
  (forall j, (j < i)%nat -> has_room m hash j = false) ->
  exists fuel info,
    find fuel (inserted m hash i) hash = Some (info, true) /\
    0 <= num_hops info /\ 1 <= num_cmps info.
Proof.
  intros Hroom Hlt.
  pose proof (abseil_inserted_key m k hash Hsize Hk i Hroom) as Hkey.
  assert (Hsize' : size (inserted m hash i) = 2 ^ k * N)
    by (now rewrite abseil_inserted_size).
  destruct (first_or_none (find_stops (inserted m hash i) hash) (S i))
    as [(i' & Hi' & Hs & Hlt')|Hnone].
  - destruct (decide (Some hash ∈ window (inserted m hash i)
                                     (probed (inserted m hash i) hash i')))
      as [Hin|Hin].
    + destruct (elem_of_split_first optional_eqb optional_eqb_eq _ _ Hin)
        as (l1 & l2 & Hw & Hn).
      pose proof (abseil_find_true _ k hash Hsize' Hk i' 0 l1 l2 Hlt' Hw Hn)
        as Hf.
      eexists _, _. split; [exact Hf|].
      exact (abseil_find_true_counts _ k hash Hsize' Hk _ _ Hf).
    + exfalso. unfold find_stops in Hs.
      apply orb_true_iff in Hs as [Hs|Hs].
      * apply (existsb_eqb_elem optional_eqb optional_eqb_eq) in Hs. tauto.
      * rewrite abseil_inserted_probed in Hs, Hin.
        destruct (decide (i' = i)) as [->|Hne]; [tauto|].
        rewrite (abseil_inserted_no_empty m hash i _ Hroom) in Hs;
          [discriminate|].
        apply (Hlt i'). lia.
  - specialize (Hnone i ltac:(lia)). unfold find_stops in Hnone.
    rewrite abseil_inserted_probed in Hnone.
    apply orb_false_iff in Hnone as [Hnone _].
    apply (existsb_eqb_elem optional_eqb optional_eqb_eq) in Hkey. congruence.
Qed.

Lemma abseil_insert_then_find fuel m' b :
  insert fuel m hash = Some (m', b) ->
  exists fuel' info,
    find fuel' m' hash = Some (info, true) /\
    0 <= num_hops info /\ 1 <= num_cmps info.
Proof.
  intros H. unfold insert in H.
  destruct (find fuel m hash) as [[info [|]]|] eqn:Hf; try discriminate.
  - injection H as <- _. exists fuel, info. split; [assumption|].
    exact (abseil_find_true_counts m k hash Hsize Hk _ _ Hf).
  - cbv zeta in H.
    destruct (abseil_insert_loop_inv m k hash Hsize Hk fuel m' b H)
      as (i & _ & Hroom & Hlt & _ & ->).
    now apply abseil_inserted_found.
Qed.

End abseil_insert_then_find.

(** ** abseil_map: the claims on the lookup *)

(** C3 (as the code has it).  In each window a lookup visits, the
    comparisons added are the slots, up to the exact match if there is one
    and over the whole window otherwise, whose key agrees with the target
    on its low 7 bits; an exact match adds one comparison and returns
    found=true; without a match the lookup returns found=false if any of
    the 16 slots is empty and otherwise moves to the next window, adding
    one hop. *)
Theorem abseil_find_window_cmps (k : Z) (m : abseil_map.table) (fuel : nat)
    (hash off : Z) (pb : pow2_quadratic_prober) (info : find_info) :
  abseil_map.size m = 2 ^ k * abseil_map.N -> 0 <= k <= 59 ->
  0 <= get pb < 2 ^ k -> 0 <= off < abseil_map.N ->
  let w := abseil_map.window m (get pb * abseil_map.N + off) in
  let cnt := count_if (abseil_map.low7_match hash) in
  (forall l1 l2,
     w = l1 ++ Some hash :: l2 -> Some hash ∉ l1 ->
     abseil_map.find_loop (S fuel) m hash off pb info
     = Some (incr_cmps (add_cmps info (cnt l1)), true)) /\
  ((Some hash ∉ w) -> (None ∈ w) ->
   abseil_map.find_loop (S fuel) m hash off pb info
   = Some (add_cmps info (cnt w), false)) /\
  ((Some hash ∉ w) -> (None ∉ w) ->
   abseil_map.find_loop (S fuel) m hash off pb info
   = abseil_map.find_loop fuel m hash off
       (fst (next pb (wrap (abseil_map.size m / abseil_map.N - 1))))
       (incr_hops (add_cmps info (cnt w)))).
Proof.
  intros Hsize Hk Hpb Hoff w cnt. subst w cnt. split; [|split].
  - intros l1 l2 Hw Hn.
    now apply (abseil_find_loop_found m k Hsize Hk hash off pb Hpb Hoff)
      with (l2 := l2).
  - intros Hn He.
    rewrite (abseil_find_loop_absent m k Hsize Hk hash off pb Hpb Hoff)
      by assumption.
    cbv zeta. apply existsb_is_empty in He. now rewrite He.
  - intros Hn He.
    rewrite (abseil_find_loop_absent m k Hsize Hk hash off pb Hpb Hoff)
      by assumption.
    cbv zeta.
    destruct (existsb abseil_map.is_empty _) eqn:E; [|reflexivity].
    apply existsb_is_empty in E. tauto.
Qed.

Lemma abseil_find_window_cmps_witness :
  let m := abseil_map.set_element_at (abseil_map.make 1) 5 (Some 643) in
  abseil_map.find_loop 1 m 643 5 (prober 0) info0
  = Some ({| num_hops := 0; num_cmps := 1 |}, true) /\
  abseil_map.find_loop 1 m 3 0 (prober 0) info0
  = Some ({| num_hops := 0; num_cmps := 1 |}, false).
Proof.
  intros m.
  assert (Hs : abseil_map.size m = 2 ^ 0 * abseil_map.N) by reflexivity.
  assert (Hk : 0 <= 0 <= 59) by lia.
  assert (Hpb : 0 <= get (prober 0) < 2 ^ 0) by (vm_compute; split; congruence).
  assert (H5 : 0 <= 5 < abseil_map.N) by (unfold abseil_map.N; lia).
  assert (H0 : 0 <= 0 < abseil_map.N) by (unfold abseil_map.N; lia).
  split.
  - apply (proj1 (abseil_find_window_cmps 0 m 0 643 5 (prober 0) info0
                    Hs Hk Hpb H5) [] (replicate 15 None));
      [reflexivity|apply not_elem_of_nil].
  - apply (proj1 (proj2 (abseil_find_window_cmps 0 m 0 3 0 (prober 0) info0
                           Hs Hk Hpb H0))).
    + change (Some 3 ∉ replicate 5 None ++ Some 643 :: replicate 10 None).
      intros [H|H]%elem_of_app.
      * apply elem_of_replicate in H as [? _]. discriminate.
      * apply elem_of_cons in H as [H|H]; [discriminate|].
        apply elem_of_replicate in H as [? _]. discriminate.
    + change (None ∈ replicate 5 None ++ Some 643 :: replicate 10 None).
      apply elem_of_app. left. apply elem_of_replicate. split; [reflexivity|lia].
Defined.

(** C3 as stated fails: key 643 sits in slot 5 of a 16-slot table; a lookup
    of the absent key 3 scans the window of slots 0..15 and counts slot 5,
    which matches on the low 7 bits, although slot 0, the first empty slot,
    comes before it. *)
Lemma abseil_cmps_counterexample :
  exists m,
    abseil_map.insert 1 (abseil_map.make 1) 643 = Some (m, true) /\
    abseil_map.find 1 m 3 = Some ({| num_hops := 0; num_cmps := 1 |}, false) /\
    abseil_map.cmps_as_described m 0 3 = 0.
Proof. eexists. split; [reflexivity|]. split; vm_compute; reflexivity. Qed.

(** ** abseil_map: group saturation *)

Lemma forallb_negb_existsb {A} (f : A -> bool) l :
  forallb (fun x => negb (f x)) l = negb (existsb f l).
Proof.
  induction l as [|x l IH]; [reflexivity|]. cbn. rewrite IH.
  now destruct (f x).
Qed.

Lemma count_if_pointwise {A} (f g : A -> bool) l :
  (forall x, x ∈ l -> f x = true -> g x = true) ->
  count_if f l <= count_if g l.
Proof.
  induction l as [|x l IH]; intros H; cbn; [lia|].
  assert (IH' : count_if f l <= count_if g l)
    by (apply IH; intros y Hy; apply H; now right).
  pose proof (H x ltac:(left)) as Hx.
  destruct (f x), (g x); try lia; now specialize (Hx eq_refl).
Qed.

Section abseil_saturation.
Import abseil_map(N, table, elements, size, find_range, num_full_loop,
                  num_full, pr_group_full, window, is_empty, sliding_full).
Variables (m : table) (k : Z).
Hypothesis Hsize : size m = 2 ^ k * N.
Hypothesis Hk : 0 <= k <= 59.

Lemma abseil_window_full_test pos :
  0 <= pos < size m ->
  (find_range m pos (wrap (pos + N)) None =? wrap (pos + N))
  = forallb (fun x => negb (is_empty x)) (window m pos).
Proof.
  intros Hpos. pose proof (abseil_size_bound m k Hsize Hk) as Hb.
  rewrite abseil_find_range by lia.
  rewrite (wrap_small (pos + N)) by (unfold N; lia).
  rewrite forallb_negb_existsb.
  pose proof (abseil_window_length m pos) as Hlen.
  destruct (existsb is_empty (window m pos)) eqn:E; cbn [negb].
  - apply existsb_is_empty in E.
    destruct (elem_of_split_first optional_eqb optional_eqb_eq _ _ E)
      as (l1 & l2 & Hw & Hn1).
    rewrite Hw, (find_index_app optional_eqb optional_eqb_eq) by assumption.
    rewrite Hw, length_app in Hlen. cbn [length] in Hlen.
    apply Z.eqb_neq. unfold N. lia.
  - assert (Hne : None ∉ window m pos).
    { intros Hin. apply existsb_is_empty in Hin. congruence. }
    rewrite (find_index_notin optional_eqb optional_eqb_eq _ _ Hne), Hlen.
    apply Z.eqb_refl.
Qed.

Lemma abseil_num_full_loop cnt pos acc :
  0 <= pos -> pos + Z.of_nat cnt <= size m ->
  0 <= acc -> acc + Z.of_nat cnt < modulus ->
  num_full_loop cnt m pos acc
  = acc + count_if (fun p => forallb (fun x => negb (is_empty x)) (window m p))
                   (seqZ pos (Z.of_nat cnt)).
Proof.
  revert pos acc. induction cnt as [|c IH]; intros pos acc Hp Hle Ha Hlt.
  - cbn [num_full_loop]. rewrite seqZ_nil by lia. cbn [count_if]. lia.
  - cbn [num_full_loop]. rewrite seqZ_cons by lia. cbn [count_if].
    pose proof (abseil_size_bound m k Hsize Hk) as Hb.
    rewrite abseil_window_full_test by lia.
    rewrite (wrap_small (pos + 1)) by lia.
    replace (Z.pred (Z.of_nat (S c))) with (Z.of_nat c) by lia.
    replace (Z.succ pos) with (pos + 1) by lia.
    destruct (forallb _ (window m pos)).
    + rewrite (wrap_small (acc + 1)) by lia. rewrite IH by lia. lia.
    + rewrite IH by lia. lia.
Qed.

Lemma abseil_num_full_sliding : num_full m = sliding_full m.
Proof.
  unfold num_full, sliding_full.
  pose proof (abseil_size_bound m k Hsize Hk) as Hb.
  rewrite abseil_num_full_loop by (unfold size in *; lia).
  reflexivity.
Qed.

End abseil_saturation.

(** C2 (as the code has it).  [pr_group_full] is the fraction, among the
    [capacity * 16] windows of 16 consecutive slots that start at each slot
    index and wrap around the end of the array, of those holding no empty
    slot. *)
Theorem abseil_pr_group_full_sliding (k : Z) (m : abseil_map.table) :
  abseil_map.size m = 2 ^ k * abseil_map.N -> 0 <= k <= 59 ->
  abseil_map.pr_group_full m
  = finite (inject_Z (abseil_map.sliding_full m) / inject_Z (2 ^ k * 16)) /\
  forall (p : Z) (j : nat),
    (j < 16)%nat ->
    abseil_map.window m p !! j
    = Some (default None
              (abseil_map.elements m
                 !! Z.to_nat ((p + Z.of_nat j) mod abseil_map.size m))).
Proof.
  intros Hsize Hk. split.
  - unfold abseil_map.pr_group_full.
    rewrite (abseil_num_full_sliding m k Hsize Hk), Hsize.
    apply float_div_finite. pose proof (pow2_pos k ltac:(lia)).
    unfold abseil_map.N. lia.
  - intros p j Hj. rewrite abseil_window_lookup by assumption.
    unfold abseil_map.element_at. now rewrite (abseil_index m k Hsize Hk).
Qed.

Lemma abseil_pr_group_full_sliding_witness :
  abseil_map.pr_group_full (abseil_map.make 2)
  = finite (inject_Z (abseil_map.sliding_full (abseil_map.make 2))
            / inject_Z (2 ^ 1 * 16)).
Proof.
  apply (abseil_pr_group_full_sliding 1 (abseil_map.make 2));
    [reflexivity|lia].
Defined.

(** C2 as stated fails: after the keys 0..15 went into a table of two
    logical groups, slots 0..15 are occupied and slots 16..31 empty; one of
    the two aligned windows is full, but only one of the 32 windows the code
    counts. *)
Lemma abseil_pr_group_full_counterexample :
  exists m,
    insert_all abseil 1 (abseil_map.make 2) (seqZ 0 16) = Some m /\
    abseil_map.pr_group_full m = finite (1 # 32) /\
    abseil_map.pr_group_full_as_described m = (1 # 2)%Q.
Proof.
  exists {| abseil_map.elements := (Some <$> seqZ 0 16) ++ replicate 16 None |}.
  repeat split; vm_compute; reflexivity.
Qed.

(** ** Insertion only adds *)

Lemma Qdiv_inject_mono a b s :
  a <= b -> 0 <= s -> (inject_Z a / inject_Z s <= inject_Z b / inject_Z s)%Q.
Proof.
  intros Hab Hs. unfold Qdiv. apply Qmult_le_compat_r.
  - now rewrite <- Zle_Qle.
  - apply Qinv_le_0_compat. change 0%Q with (inject_Z 0). now rewrite <- Zle_Qle.
Qed.

Section boost_preserved.
Import boost_map.

Lemma boost_preserved_refl m : preserved m m.
Proof. split; [reflexivity|]. intros q. repeat split; [lia|reflexivity|auto]. Qed.

Lemma boost_preserved_trans m1 m2 m3 :
  preserved m1 m2 -> preserved m2 m3 -> preserved m1 m3.
Proof.
  intros [Hl1 H1] [Hl2 H2]. split; [congruence|]. intros q.
  destruct (H1 q) as (Hn1 & Hp1 & Hb1), (H2 q) as (Hn2 & Hp2 & Hb2).
  split; [lia|]. split; [now transitivity (occupied (group_at m2 q))|].
  intros t Ht Hb. now apply Hb2, Hb1.
Qed.

Lemma boost_occupied_push_prefix g hash :
  n g < N -> occupied g `prefix_of` occupied (push g hash).
Proof.
  intros Hroom. unfold occupied, push. cbn [elements n].
  assert (Hle : (Z.to_nat (n g) <= Z.to_nat (wrap (n g + 1)))%nat).
  { destruct (Z.le_gt_cases 0 (n g)).
    - rewrite wrap_small by (unfold N in *; rewrite modulus_eq; lia). lia.
    - lia. }
  rewrite <- (take_insert_ge (elements g) _ (Z.to_nat (n g)) hash) by lia.
  set (l := <[Z.to_nat (n g) := hash]> (elements g)).
  replace (take (Z.to_nat (n g)) l)
    with (take (Z.to_nat (n g)) (take (Z.to_nat (wrap (n g + 1))) l))
    by (rewrite take_take; f_equal; lia).
  apply prefix_take.
Qed.

Lemma boost_inserted_preserved m hash i :
  has_room m hash i = true -> preserved m (inserted m hash i).
Proof.
  intros Hroom. unfold has_room in Hroom. apply Z.ltb_lt in Hroom. split.
  - pose proof (boost_inserted_size m hash i) as Hs. unfold size in Hs. lia.
  - intros q. destruct (boost_marked_group m hash i q) as (He & Hn & Hb).
    assert (Hocc : occupied (group_at (marked m hash i) q)
                   = occupied (group_at m q))
      by apply boost_marked_occupied.
    destruct (boost_inserted_group m hash i q) as [->|(E & _ & ->)].
    + rewrite Hn, Hocc. repeat split; [lia|reflexivity|assumption].
    + rewrite (boost_group_at_to_nat m _ _ E) in *.
      assert (Hroom' : n (group_at (marked m hash i) (probed m hash i)) < N)
        by (destruct (boost_marked_group m hash i (probed m hash i))
              as (_ & -> & _); assumption).
      rewrite (boost_group_at_to_nat (marked m hash i) _ _ E) in *.
      split; [|split].
      * cbn [push n]. rewrite Hn.
        destruct (Z.le_gt_cases 0 (n (group_at m (probed m hash i)))).
        -- rewrite wrap_small by (unfold N in *; rewrite modulus_eq; lia). lia.
        -- pose proof (wrap_range (n (group_at m (probed m hash i)) + 1)). lia.
      * rewrite <- Hocc. now apply boost_occupied_push_prefix.
      * cbn [push overflow]. assumption.
Qed.

Lemma boost_insert_preserved fuel m hash m' b :
  insert fuel m hash = Some (m', b) ->
  preserved m m' /\ (b = false -> m' = m).
Proof.
  intros H. unfold insert in H.
  destruct (find fuel m hash) as [[info [|]]|]; try discriminate.
  - injection H as <- <-. split; [apply boost_preserved_refl|reflexivity].
  - destruct (boost_insert_loop_inv m hash fuel m' b H)
      as (i & _ & Hroom & _ & -> & ->).
    split; [now apply boost_inserted_preserved|discriminate].
Qed.

Lemma boost_num_full_mono m m' :
  preserved m m' -> table_inv m' -> num_full m <= num_full m'.
Proof.
  intros [Hlen Hp] [HF _]. unfold num_full. apply count_if_mono.
  apply Forall2_same_length_lookup_2; [now symmetry|].
  intros q g g' Hg Hg' Hfull. apply Z.eqb_eq in Hfull. apply Z.eqb_eq.
  destruct (Hp (Z.of_nat q)) as (Hn & _). unfold group_at in Hn.
  rewrite Nat2Z.id, Hg, Hg' in Hn. cbn in Hn.
  destruct (proj1 (Forall_lookup _ _) HF _ _ Hg') as [(_ & Hr & _) _]. lia.
Qed.

End boost_preserved.

Section abseil_preserved.
Import abseil_map.

Lemma abseil_preserved_refl m : preserved m m.
Proof. split; [reflexivity|auto]. Qed.

Lemma abseil_preserved_trans m1 m2 m3 :
  preserved m1 m2 -> preserved m2 m3 -> preserved m1 m3.
Proof. intros [Hl1 H1] [Hl2 H2]. split; [congruence|]. auto. Qed.

Lemma abseil_insert_preserved fuel m hash m' b :
  insert fuel m hash = Some (m', b) ->
  preserved m m' /\ (b = false -> m' = m).
Proof.
  intros H. unfold insert in H.
  destruct (find fuel m hash) as [[info [|]]|]; try discriminate.
  - injection H as <- <-. split; [apply abseil_preserved_refl|reflexivity].
  - cbv zeta in H.
    destruct (abseil_insert_loop_writes _ _ _ _ _ _ _ H) as (pos1 & He & -> & ->).
    split; [|discriminate]. split.
    + unfold set_element_at. cbn [elements]. apply length_insert.
    + intros idx x Hx. now apply abseil_write_keeps.
Qed.

Lemma abseil_sliding_full_mono m m' :
  preserved m m' -> sliding_full m <= sliding_full m'.
Proof.
  intros [Hlen Hp]. unfold sliding_full.
  assert (Hs : size m' = size m) by (unfold size; lia). rewrite Hs.
  apply count_if_pointwise. intros p _ Hfull.
  rewrite forallb_negb_existsb in *. apply negb_true_iff in Hfull.
  apply negb_true_iff.
  destruct (existsb is_empty (window m' p)) eqn:E; [exfalso|reflexivity].
  apply existsb_is_empty, list_elem_of_lookup in E as [j Hj].
  pose proof (lookup_lt_Some _ _ _ Hj) as Hlt.
  rewrite abseil_window_length in Hlt.
  rewrite abseil_window_lookup in Hj by lia.
  assert (Hin : None ∈ window m p); [|apply existsb_is_empty in Hin; congruence].
  apply list_elem_of_lookup. exists j. rewrite abseil_window_lookup by lia.
  f_equal. unfold element_at in *. rewrite Hs in Hj.
  destruct (elements m !! _) as [[x|]|] eqn:Ex; [|reflexivity..].
  rewrite (Hp _ _ Ex) in Hj. cbn in Hj. congruence.
Qed.

End abseil_preserved.

(** ** Both tables *)

Lemma reachable_insert v fuel (m m' : table v) hash b :
  reachable v m -> 0 <= hash < modulus ->
  insert v fuel m hash = Some (m', b) -> reachable v m'.
Proof.
  destruct v; cbn [reachable insert table] in *; intros Hr Hh Hi.
  - exact (boost_map.reachable_insert _ _ _ _ _ Hr Hh Hi).
  - exact (abseil_map.reachable_insert _ _ _ _ _ Hr Hh Hi).
Qed.

Lemma reachable_insert_all v fuel (m m' : table v) keys :
  reachable v m -> Forall (fun hash => 0 <= hash < modulus) keys ->
  insert_all v fuel m keys = Some m' -> reachable v m'.
Proof.
  revert m. induction keys as [|hash keys IH]; intros m Hr Hk H; cbn in H.
  - now injection H as <-.
  - apply Forall_cons in Hk as [Hh Hk].
    destruct (insert v fuel m hash) as [[m1 b]|] eqn:Hi; [|discriminate].
    apply (IH m1); [|assumption..]. now apply (reachable_insert v fuel m m1 hash b).
Qed.

Lemma insert_preserved v fuel (m m' : table v) hash b :
  insert v fuel m hash = Some (m', b) ->
  preserved v m m' /\ (b = false -> m' = m).
Proof.
  destruct v; cbn [preserved insert table] in *.
  - apply boost_insert_preserved.
  - apply abseil_insert_preserved.
Qed.

Lemma preserved_refl v (m : table v) : preserved v m m.
Proof. destruct v; [apply boost_preserved_refl|apply abseil_preserved_refl]. Qed.

Lemma preserved_trans v (m1 m2 m3 : table v) :
  preserved v m1 m2 -> preserved v m2 m3 -> preserved v m1 m3.
Proof.
  destruct v; [apply boost_preserved_trans|apply abseil_preserved_trans].
Qed.

Lemma insert_all_preserved v fuel (m m' : table v) keys :
  insert_all v fuel m keys = Some m' -> preserved v m m'.
Proof.
  revert m. induction keys as [|hash keys IH]; intros m H; cbn in H.
  - injection H as <-. apply preserved_refl.
  - destruct (insert v fuel m hash) as [[m1 b]|] eqn:Hi; [|discriminate].
    apply (preserved_trans v m m1 m'); [|now apply IH].
    now apply (insert_preserved v fuel m m1 hash b).
Qed.

Lemma pr_group_full_mono v k (m m' : table v) :
  reachable v m' -> has_capacity v m (2 ^ k) -> 0 <= k <= 59 ->
  preserved v m m' ->
  exists p p',
    pr_group_full v m = finite p /\ pr_group_full v m' = finite p' /\
    (p <= p')%Q.
Proof.
  destruct v; cbn [reachable has_capacity preserved pr_group_full table];
    intros Hr Hc Hk Hp; pose proof (pow2_pos k ltac:(lia)) as Hpos.
  - unfold boost_map.pr_group_full.
    assert (Hs : boost_map.size m' = boost_map.size m)
      by (unfold boost_map.size; destruct Hp as [-> _]; reflexivity).
    rewrite Hs, !float_div_finite by lia.
    do 2 eexists. split; [reflexivity|]. split; [reflexivity|].
    apply Qdiv_inject_mono; [|unfold boost_map.size; lia].
    apply boost_num_full_mono; [assumption|now apply reachable_inv].
  - unfold abseil_map.pr_group_full.
    assert (Hs : abseil_map.size m' = abseil_map.size m)
      by (unfold abseil_map.size; destruct Hp as [-> _]; reflexivity).
    rewrite (abseil_num_full_sliding m k Hc Hk).
    rewrite (abseil_num_full_sliding m' k) by (assumption || congruence).
    rewrite Hs, !float_div_finite by (unfold abseil_map.N in Hc; lia).
    do 2 eexists. split; [reflexivity|]. split; [reflexivity|].
    apply Qdiv_inject_mono; [|unfold abseil_map.size; lia].
    now apply abseil_sliding_full_mono.
Qed.

(** C7.  In a reachable table of [2^k] groups, if [insert hash] returns, a
    following [find hash] returns found=true, having counted no negative
    number of hops and at least one comparison. *)
Theorem insert_then_find (v : variant) (k : Z) (fuel : nat) (m m' : table v)
    (hash : Z) (b : bool) :
  reachable v m -> has_capacity v m (2 ^ k) ->
  min_log2_capacity v <= k <= 59 -> 0 <= hash < modulus ->
  insert v fuel m hash = Some (m', b) ->
  exists fuel' info,
    find v fuel' m' hash = Some (info, true) /\
    0 <= num_hops info /\ 1 <= num_cmps info.
Proof.
  destruct v; cbn [reachable has_capacity min_log2_capacity insert find table];
    intros Hr Hc Hk Hh Hi.
  - apply (boost_insert_then_find m k hash (reachable_inv m Hr) Hc Hk Hh
             fuel m' b Hi).
  - apply (abseil_insert_then_find m k hash Hc Hk fuel m' b Hi).
Qed.

Lemma insert_then_find_witness :
  (exists fuel' info,
     find boost fuel'
       (boost_map.set_group (boost_map.make 2) 0
          (boost_map.push boost_map.group0 5)) 5 = Some (info, true) /\
     0 <= num_hops info /\ 1 <= num_cmps info) /\
  (exists fuel' info,
     find abseil fuel'
       (abseil_map.set_element_at (abseil_map.make 1) 5 (Some 643)) 643
     = Some (info, true) /\
     0 <= num_hops info /\ 1 <= num_cmps info).
Proof.
  split.
  - apply (insert_then_find boost 1 1 (boost_map.make 2) _ 5 true).
    + apply boost_map.reachable_make. rewrite modulus_eq. lia.
    + reflexivity.
    + cbn. lia.
    + rewrite modulus_eq. lia.
    + reflexivity.
  - apply (insert_then_find abseil 0 1 (abseil_map.make 1) _ 643 true).
    + apply abseil_map.reachable_make. rewrite modulus_eq. lia.
    + reflexivity.
    + cbn. lia.
    + rewrite modulus_eq. lia.
    + reflexivity.
Defined.

(** C8.  Whatever the table and the keys, a sequence of insertions that
    returns leaves every key where it was: no group loses a key or shrinks,
    no overflow bit is cleared and no occupied slot is emptied
    ([preserved]).  A lookup returns no table (the model of a [const] member
    function), and an insertion that only looks up, because the key is
    present, returns the table as it was.  In a reachable table of [2^k]
    groups [pr_group_full] is finite before and after and does not
    decrease. *)
Theorem insertion_only_adds (v : variant) (fuel : nat) (m m' : table v)
    (keys : list Z) :
  insert_all v fuel m keys = Some m' ->
  preserved v m m' /\
  (forall fuel' hash m'',
     insert v fuel' m hash = Some (m'', false) -> m'' = m) /\
  (forall k,
     reachable v m -> has_capacity v m (2 ^ k) ->
     min_log2_capacity v <= k <= 59 ->
     Forall (fun hash => 0 <= hash < modulus) keys ->
     exists p p',
       pr_group_full v m = finite p /\ pr_group_full v m' = finite p' /\
       (p <= p')%Q).
Proof.
  intros Hall.
  pose proof (insert_all_preserved v fuel m m' keys Hall) as Hp.
  split; [assumption|]. split.
  - intros fuel' hash m'' Hi.
    now apply (proj2 (insert_preserved v fuel' m m'' hash false Hi)).
  - intros k Hr Hc Hk Hkeys.
    apply (pr_group_full_mono v k); [|assumption| |assumption].
    + now apply (reachable_insert_all v fuel m m' keys).
    + destruct v; cbn in Hk; lia.
Qed.

Lemma insertion_only_adds_witness :
  let b0 := {| boost_map.groups :=
                 [boost_map.mk_group (seqZ 0 15) 15 128;
                  boost_map.mk_group (15 :: replicate 14 0) 1 0];
               boost_map.shift := 63 |} in
  let b1 := {| boost_map.groups :=
                 [boost_map.mk_group (seqZ 0 15) 15 255;
                  boost_map.mk_group (seqZ 15 15) 15 0];
               boost_map.shift := 63 |} in
  let a0 := {| abseil_map.elements := (Some <$> seqZ 0 15) ++ [None] |} in
  let a1 := {| abseil_map.elements := Some <$> seqZ 0 16 |} in
  (boost_map.preserved b0 b1 /\
   pr_group_full boost b0 = finite (1 # 2) /\
   exists p p',
     pr_group_full boost b0 = finite p /\
     pr_group_full boost b1 = finite p' /\ (p <= p')%Q) /\
  (abseil_map.preserved a0 a1 /\
   pr_group_full abseil a0 = finite (0 # 16) /\
   exists p p',
     pr_group_full abseil a0 = finite p /\
     pr_group_full abseil a1 = finite p' /\ (p <= p')%Q).
Proof.
  intros b0 b1 a0 a1. split.
  - destruct (insertion_only_adds boost 2 b0 b1 (seqZ 16 14))
      as (Hp & _ & Hpr); [vm_compute; reflexivity|].
    split; [exact Hp|]. split; [vm_compute; reflexivity|].
    apply (Hpr 1).
    + apply (reachable_insert_all boost 2 (boost_map.make 2) b0 (seqZ 0 16));
        [apply boost_map.reachable_make; rewrite modulus_eq; lia|
        |vm_compute; reflexivity].
      apply Forall_forall. intros x Hx%elem_of_seqZ. rewrite modulus_eq. lia.
    + reflexivity.
    + cbn. lia.
    + apply Forall_forall. intros x Hx%elem_of_seqZ. rewrite modulus_eq. lia.
  - destruct (insertion_only_adds abseil 1 a0 a1 [15])
      as (Hp & _ & Hpr); [vm_compute; reflexivity|].
    split; [exact Hp|]. split; [vm_compute; reflexivity|].
    apply (Hpr 0).
    + apply (reachable_insert_all abseil 1 (abseil_map.make 1) a0 (seqZ 0 15));
        [apply abseil_map.reachable_make; rewrite modulus_eq; lia|
        |vm_compute; reflexivity].
      apply Forall_forall. intros x Hx%elem_of_seqZ. rewrite modulus_eq. lia.
    + reflexivity.
    + cbn. lia.
    + apply Forall_cons. split; [rewrite modulus_eq; lia|apply Forall_nil_2].
Defined.

(** C9.  At load factor 0 the target size is 0 for every capacity, no loop
    body runs and the four means are reported as 0.  [mean] tests the sample
    count before it divides: the quotient it avoids, a division by zero, is
    never a finite value. *)
Theorem stats_row_zero_load (draw : Z -> nat -> Z) (fuel : nat) (v : variant)
    (capacity : Z) :
  0 <= capacity < modulus ->
  target_size v capacity (finite 0) = Some 0 /\
  (forall x, mean x 0 = finite 0) /\
  (forall x q, float_div x 0 <> finite q) /\
  stats_row draw fuel v capacity (finite 0)
  = Some {| load_factor := finite 0;
            pr_full := pr_group_full v (make v capacity);
            hops_successful := finite 0; cmps_successful := finite 0;
            hops_unsuccessful := finite 0; cmps_unsuccessful := finite 0 |}.
Proof.
  intros Hc. pose proof (target_size_zero v capacity Hc) as Ht.
  split; [assumption|]. split; [reflexivity|].
  split; [intros x q; unfold float_div; cbn; destruct (x =? 0); discriminate|].
  unfold stats_row. rewrite Ht.
  destruct fuel; reflexivity.
Qed.

Lemma stats_row_zero_load_witness :
  stats_row (fun _ i => Z.of_nat i) 0 boost 131072 (finite 0)
  = Some {| load_factor := finite 0;
            pr_full := pr_group_full boost (make boost 131072);
            hops_successful := finite 0; cmps_successful := finite 0;
            hops_unsuccessful := finite 0; cmps_unsuccessful := finite 0 |} /\
  stats_row (fun _ i => Z.of_nat i) 0 abseil 0 (finite 0)
  = Some {| load_factor := finite 0; pr_full := nan;
            hops_successful := finite 0; cmps_successful := finite 0;
            hops_unsuccessful := finite 0; cmps_unsuccessful := finite 0 |}.
Proof.
  split.
  - apply (stats_row_zero_load (fun _ i => Z.of_nat i) 0 boost 131072).
    rewrite modulus_eq. lia.
  - apply (stats_row_zero_load (fun _ i => Z.of_nat i) 0 abseil 0).
    rewrite modulus_eq. lia.
Defined.

(** C10.  In a reachable [boost_map] of [2^k] groups, inserting an absent key
    returns whenever some group has room: the key is appended to the first
    probed group with fewer than 15 keys, which is reached within the first
    [2^k] iterations.  The loop has no other exit: when every group holds 15
    keys the insertion of an absent key returns for no amount of fuel. *)
Theorem boost_insert_termination (k : Z) (m : boost_map.table) (hash : Z) :
  boost_map.reachable m -> boost_map.size m = 2 ^ k -> 1 <= k < wordsize ->
  0 <= hash < modulus ->
  (forall g, g ∈ boost_map.groups m -> hash ∉ boost_map.occupied g) ->
  ((exists g, g ∈ boost_map.groups m /\ boost_map.n g < boost_map.N) ->
   exists i : nat,
     Z.of_nat i < 2 ^ k /\
     boost_map.n (boost_map.group_at m (boost_map.probed m hash i))
     < boost_map.N /\
     (forall j, (j < i)%nat ->
        boost_map.N
        <= boost_map.n (boost_map.group_at m (boost_map.probed m hash j))) /\
     forall fuel, (i < fuel)%nat ->
       exists m',
         boost_map.insert fuel m hash = Some (m', true) /\
         boost_map.occupied
           (boost_map.group_at m' (boost_map.probed m hash i))
         = boost_map.occupied
             (boost_map.group_at m (boost_map.probed m hash i)) ++ [hash]) /\
  ((forall g, g ∈ boost_map.groups m -> boost_map.n g = boost_map.N) ->
   forall fuel, boost_map.insert fuel m hash = None).
Proof.
  intros Hr Hsize Hk Hh Habs. pose proof (reachable_inv m Hr) as Hinv. split.
  - intros Hroom.
    destruct (boost_insert_finds_room m k hash Hinv Hsize Hk Hh Habs Hroom)
      as (i & Hi & Hri & Hlt & Hins).
    exists i. split; [assumption|]. split; [now apply Z.ltb_lt|].
    split; [intros j Hj; now apply Z.ltb_ge, (Hlt j)|].
    intros fuel Hfuel. exists (boost_map.inserted m hash i).
    split; [now apply Hins|].
    apply boost_inserted_occupied; [assumption| |assumption].
    pose proof (boost_probed_range m k hash Hinv Hsize Hk Hh i) as Hp.
    unfold boost_map.size in Hp. lia.
  - now apply (boost_insert_full_diverges m k hash Hinv Hsize Hk Hh Habs).
Qed.

Lemma boost_insert_termination_witness :
  (exists i : nat,
     Z.of_nat i < 2 ^ 1 /\
     forall fuel, (i < fuel)%nat ->
       exists m', boost_map.insert fuel (boost_map.make 2) 7 = Some (m', true)) /\
  (forall fuel,
     boost_map.insert fuel
       {| boost_map.groups :=
            [boost_map.mk_group (seqZ 0 15) 15 255;
             boost_map.mk_group (seqZ 15 15) 15 0];
          boost_map.shift := 63 |} 100 = None).
Proof.
  assert (Hmake : boost_map.reachable (boost_map.make 2))
    by (apply boost_map.reachable_make; rewrite modulus_eq; lia).
  assert (Hk : 1 <= 1 < wordsize) by (unfold wordsize; lia).
  split.
  - assert (Habs : forall g, g ∈ boost_map.groups (boost_map.make 2) ->
                     7 ∉ boost_map.occupied g).
    { intros g Hg.
      change (g ∈ replicate (Z.to_nat 2) boost_map.group0) in Hg.
      apply elem_of_replicate in Hg as [-> _]. apply not_elem_of_nil. }
    destruct (boost_insert_termination 1 (boost_map.make 2) 7 Hmake eq_refl Hk
                ltac:(rewrite modulus_eq; lia) Habs) as [Hroom _].
    destruct Hroom as (i & Hi & _ & _ & Hins).
    { exists boost_map.group0. split; [|reflexivity].
      change (boost_map.group0 ∈ replicate (Z.to_nat 2) boost_map.group0).
      apply elem_of_replicate. split; [reflexivity|]. cbn. lia. }
    exists i. split; [assumption|]. intros fuel Hfuel.
    destruct (Hins fuel Hfuel) as (m' & E & _). eauto.
  - set (full := {| boost_map.groups := _; boost_map.shift := 63 |}).
    assert (Hfull : boost_map.reachable full).
    { apply (reachable_insert_all boost 2 (boost_map.make 2) full (seqZ 0 30));
        [exact Hmake| |vm_compute; reflexivity].
      apply Forall_forall. intros x Hx%elem_of_seqZ. rewrite modulus_eq. lia. }
    assert (Hcases : forall g, g ∈ boost_map.groups full ->
                       g = boost_map.mk_group (seqZ 0 15) 15 255 \/
                       g = boost_map.mk_group (seqZ 15 15) 15 0).
    { intros g Hg. cbn [full boost_map.groups] in Hg.
      apply elem_of_cons in Hg as [->|Hg]; [now left|].
      apply list_elem_of_singleton in Hg as ->. now right. }
    apply (boost_insert_termination 1 full 100 Hfull eq_refl Hk
             ltac:(rewrite modulus_eq; lia)).
    + intros g Hg. destruct (Hcases g Hg) as [->| ->].
      * change (100 ∉ seqZ 0 15). rewrite elem_of_seqZ. lia.
      * change (100 ∉ seqZ 15 15). rewrite elem_of_seqZ. lia.
    + intros g Hg. destruct (Hcases g Hg) as [->| ->]; reflexivity.
Defined.

(** * Further properties *)

(** ** The prober's flag and bounds *)

Lemma advance_step i pb mask :
  0 <= step pb < modulus ->
  step (advance i pb mask) = wrap (step pb + Z.of_nat i).
Proof.
  intros Hs. induction i as [|i IH].
  - cbn [advance]. rewrite Z.add_0_r. symmetry. now apply wrap_small.
  - rewrite advance_S. unfold next. cbn [fst step]. rewrite IH, wrap_add_l.
    f_equal. lia.
Qed.

(** X1.  Counting calls from a fresh prober, the call number [i+1] of [next]
    returns true exactly when [i+1 <= mask]: a loop that runs while [next]
    returns true makes [mask] calls and so reads [mask+1] positions. *)
Theorem next_flag_counts_calls (mask p : Z) (i : nat) :
  Z.of_nat i + 1 < modulus ->
  (snd (next (advance i (prober p) mask) mask) = true
   <-> Z.of_nat i + 1 <= mask).
Proof.
  intros Hi. unfold next at 1. cbn [snd].
  rewrite advance_step by (cbn; rewrite modulus_eq; lia).
  cbn [prober step]. rewrite Z.add_0_l, wrap_add_l.
  rewrite wrap_small by lia. apply Z.leb_le.
Qed.

Lemma next_flag_counts_calls_witness :
  snd (next (advance 6 (prober 3) 7) 7) = true <-> 6 + 1 <= 7.
Proof.
  apply (next_flag_counts_calls 7 3 6). rewrite modulus_eq. lia.
Defined.

Lemma land_upper_bound a b : 0 <= a -> 0 <= b -> Z.land a b <= b.
Proof.
  intros Ha Hb.
  assert (Hd : Z.land (Z.ldiff b a) (Z.land a b) = 0).
  { apply Z.bits_inj'. intros n Hn.
    rewrite !Z.land_spec, Z.ldiff_spec, Z.bits_0.
    destruct (Z.testbit a n), (Z.testbit b n); reflexivity. }
  assert (Hs : Z.ldiff b a + Z.land a b = b).
  { rewrite Z.add_nocarry_lxor, Z.lxor_lor by assumption.
    apply Z.bits_inj'. intros n Hn.
    rewrite Z.lor_spec, Z.land_spec, Z.ldiff_spec.
    destruct (Z.testbit a n), (Z.testbit b n); reflexivity. }
  assert (0 <= Z.ldiff b a) by (apply Z.ldiff_nonneg; now left).
  lia.
Qed.

(** X2.  Whatever the state of the prober and whatever the non-negative
    mask, the position after [next] lies in [0 .. mask]: a table of
    [mask+1] slots is never indexed out of range after the first step. *)
Theorem next_position_in_range (pb : pow2_quadratic_prober) (mask : Z) :
  0 <= mask -> 0 <= get (fst (next pb mask)) <= mask.
Proof.
  intros Hm. unfold next, get. cbn [fst pos].
  pose proof (wrap_range (pos pb + wrap (step pb + 1))) as Hw. split.
  - apply Z.land_nonneg. now right.
  - apply land_upper_bound; lia.
Qed.

Lemma next_position_in_range_witness :
  0 <= get (fst (next {| pos := 100; step := 41 |} 5)) <= 5.
Proof. apply (next_position_in_range {| pos := 100; step := 41 |} 5). lia. Defined.

(** ** Lookup accounting *)

(** X3.  [operator+=] adds componentwise modulo 2^64: accumulation is
    associative and commutative, and the zero-initialised record is neutral
    for every record whose counters are in range. *)
Theorem info_add_monoid (a b c : find_info) :
  info_add (info_add a b) c = info_add a (info_add b c) /\
  info_add a b = info_add b a /\
  (0 <= num_hops a < modulus -> 0 <= num_cmps a < modulus ->
   info_add info0 a = a /\ info_add a info0 = a).
Proof.
  unfold info_add. cbn [num_hops num_cmps info0]. split; [|split].
  - now rewrite !wrap_add_l, !wrap_add_r, !Z.add_assoc.
  - now rewrite (Z.add_comm (num_hops a)), (Z.add_comm (num_cmps a)).
  - intros Hh Hc. destruct a as [h n]. cbn [num_hops num_cmps] in *.
    rewrite !Z.add_0_l, !Z.add_0_r, !wrap_small by assumption. now split.
Qed.

Lemma info_add_monoid_witness :
  info_add info0 {| num_hops := 2; num_cmps := 7 |}
  = {| num_hops := 2; num_cmps := 7 |}.
Proof.
  apply (info_add_monoid {| num_hops := 2; num_cmps := 7 |} info0 info0);
    cbn [num_hops num_cmps]; rewrite modulus_eq; lia.
Defined.

(** ** Lookups in a freshly built table *)

Section fresh_tables.

Lemma boost_make_size c : 0 <= c -> boost_map.size (boost_map.make c) = c.
Proof.
  intros Hc. unfold boost_map.size, boost_map.make. cbn [boost_map.groups].
  rewrite length_replicate. lia.
Qed.

Lemma boost_make_group_at c q :
  boost_map.group_at (boost_map.make c) q = boost_map.group0.
Proof.
  unfold boost_map.group_at, boost_map.make. cbn [boost_map.groups].
  destruct (replicate (Z.to_nat c) boost_map.group0 !! Z.to_nat q) as [g|] eqn:E;
    [|reflexivity].
  apply lookup_replicate in E as [-> _]. reflexivity.
Qed.

Lemma abseil_make_size k :
  0 <= k <= 59 ->
  abseil_map.size (abseil_map.make (2 ^ k)) = 2 ^ k * abseil_map.N.
Proof.
  intros Hk. unfold abseil_map.size, abseil_map.make. cbn [abseil_map.elements].
  rewrite length_replicate. unfold abseil_map.N.
  pose proof (pow2_pos k ltac:(lia)).
  assert (2 ^ k <= 2 ^ 59) by (apply Z.pow_le_mono_r; lia).
  change (2 ^ 59) with 576460752303423488 in *.
  rewrite wrap_small by (rewrite modulus_eq; lia). lia.
Qed.

Lemma abseil_make_element_at c pos :
  abseil_map.element_at (abseil_map.make c) pos = None.
Proof.
  unfold abseil_map.element_at, abseil_map.make. cbn [abseil_map.elements].
  destruct (replicate _ None !! _) as [x|] eqn:E; [|reflexivity].
  apply lookup_replicate in E as [-> _]. reflexivity.
Qed.

Lemma abseil_make_window c q :
  abseil_map.window (abseil_map.make c) q = replicate 16 None.
Proof.
  apply list_eq_same_length with 16%nat;
    [apply length_replicate|apply abseil_window_length|].
  intros j x y Hj Hx Hy. rewrite abseil_window_lookup in Hx by assumption.
  apply lookup_replicate in Hy as [-> _].
  rewrite abseil_make_element_at in Hx. congruence.
Qed.

End fresh_tables.

(** X4.  In a table just built with [2^k] groups every lookup returns
    found=false in its first iteration, with no hop and no comparison. *)
Theorem find_in_fresh_table (v : variant) (k hash : Z) (fuel : nat) :
  min_log2_capacity v <= k <= 59 -> 0 <= hash < modulus ->
  find v (S fuel) (make v (2 ^ k)) hash = Some (info0, false).
Proof.
  destruct v; cbn [min_log2_capacity find make]; intros Hk Hh.
  - unfold boost_map.find. rewrite find_loop_absent;
      rewrite boost_make_group_at; [reflexivity|apply not_elem_of_nil].
  - pose proof (abseil_make_size k Hk) as Hs.
    change (S fuel) with (1 + fuel)%nat.
    rewrite (abseil_find_false _ k hash Hs Hk 0 fuel).
    + rewrite abseil_make_window. reflexivity.
    + intros j Hj. lia.
    + rewrite abseil_make_window. intros H.
      apply elem_of_replicate in H as [? _]. discriminate.
    + rewrite abseil_make_window. reflexivity.
Qed.

Lemma find_in_fresh_table_witness :
  find boost 1 (make boost (2 ^ 3)) 12345 = Some (info0, false) /\
  find abseil 1 (make abseil (2 ^ 0)) 12345 = Some (info0, false).
Proof.
  split.
  - apply (find_in_fresh_table boost 3 12345 0);
      [cbn; lia|rewrite modulus_eq; lia].
  - apply (find_in_fresh_table abseil 0 12345 0);
      [cbn; lia|rewrite modulus_eq; lia].
Defined.

(** ** The invariant of reachable [boost_map] tables *)

(** X5.  In every table of [2^k] groups ([k >= 1]) built by the constructor
    and grown by [insert], each group has its 15-entry array, holds between
    0 and 15 keys, keeps its overflow marker within a byte, and has no
    overflow bit set while it still has room; [shift] is [64 - k]; and every
    group index a probing loop reads lies inside the vector. *)
Theorem boost_reachable_invariant (k : Z) (m : boost_map.table) :
  boost_map.reachable m -> boost_map.size m = 2 ^ k -> 1 <= k < wordsize ->
  (forall g, g ∈ boost_map.groups m ->
     length (boost_map.elements g) = 15%nat /\
     0 <= boost_map.n g <= 15 /\
     Z.of_nat (length (boost_map.occupied g)) = boost_map.n g /\
     0 <= boost_map.overflow g < 256 /\
     (boost_map.n g < 15 -> boost_map.overflow g = 0)) /\
  boost_map.shift m = wordsize - k /\
  forall hash (i : nat),
    0 <= hash < modulus ->
    0 <= boost_map.probed m hash i < boost_map.size m.
Proof.
  intros Hr Hsize Hk. pose proof (reachable_inv m Hr) as Hinv.
  destruct Hinv as [HF Hs]. split; [|split].
  - intros g Hg.
    destruct (proj1 (Forall_forall _ _) HF g Hg) as [(Hl & Hn & Ho) Hz].
    unfold boost_map.N in *. unfold boost_map.occupied.
    rewrite length_take. repeat split; try lia; exact Hz.
  - rewrite Hs, (boost_mask m k Hsize Hk).
    now rewrite bit_width_pow2_pred by lia.
  - intros hash i Hh.
    exact (boost_probed_range m k hash (conj HF Hs) Hsize Hk Hh i).
Qed.

Lemma boost_reachable_invariant_witness :
  let b0 := {| boost_map.groups :=
                 [boost_map.mk_group (seqZ 0 15) 15 128;
                  boost_map.mk_group (15 :: replicate 14 0) 1 0];
               boost_map.shift := 63 |} in
  (forall g, g ∈ boost_map.groups b0 ->
     length (boost_map.elements g) = 15%nat /\
     0 <= boost_map.n g <= 15 /\
     Z.of_nat (length (boost_map.occupied g)) = boost_map.n g /\
     0 <= boost_map.overflow g < 256 /\
     (boost_map.n g < 15 -> boost_map.overflow g = 0)) /\
  boost_map.shift b0 = wordsize - 1 /\
  forall hash (i : nat),
    0 <= hash < modulus ->
    0 <= boost_map.probed b0 hash i < boost_map.size b0.
Proof.
  intros b0. apply (boost_reachable_invariant 1 b0).
  - apply (reachable_insert_all boost 2 (boost_map.make 2) b0 (seqZ 0 16));
      [apply boost_map.reachable_make; rewrite modulus_eq; lia|
      |vm_compute; reflexivity].
    apply Forall_forall. intros x Hx%elem_of_seqZ. rewrite modulus_eq. lia.
  - reflexivity.
  - unfold wordsize. lia.
Defined.

(** ** Keys that a lookup finds *)

Section boost_findable.
Import boost_map.

Lemma boost_findable_find m hash :
  findable m hash ->
  exists (i : nat) info, forall fuel, find (S i + fuel) m hash = Some (info, true).
Proof.
  intros (i & Hin & Hbits).
  assert (Hs : find_stops m hash i = true).
  { unfold find_stops, has_key. now rewrite bool_decide_eq_true_2. }
  destruct (first_or_none (find_stops m hash) (S i))
    as [(i' & Hi' & Hs' & Hlt)|Hnone];
    [|rewrite (Hnone i) in Hs by lia; discriminate].
  destruct (has_key (group_at m (probed m hash i')) hash) eqn:Hkey.
  - unfold has_key in Hkey. apply bool_decide_eq_true in Hkey.
    destruct (elem_of_split_first Z.eqb Z.eqb_eq _ _ Hkey)
      as (l1 & l2 & Hocc & Hn).
    exists i'. eexists. intros fuel.
    exact (boost_find_true m hash i' fuel l1 l2 Hlt Hocc Hn).
  - exfalso. unfold find_stops in Hs'. rewrite Hkey in Hs'. cbn [orb] in Hs'.
    apply negb_true_iff in Hs'.
    destruct (decide (i' = i)) as [->|Hne].
    + unfold has_key in Hkey. apply bool_decide_eq_false in Hkey. tauto.
    + rewrite Hbits in Hs' by lia. discriminate.
Qed.

Lemma boost_find_findable fuel m hash info :
  find fuel m hash = Some (info, true) -> findable m hash.
Proof.
  intros H.
  destruct (boost_find_inv m hash fuel info true H)
    as (i & c & _ & Hlt & Hkey & _).
  exists i. split.
  - symmetry in Hkey. unfold has_key in Hkey.
    now apply bool_decide_eq_true in Hkey.
  - intros j Hj. now apply boost_find_stops_false, Hlt.
Qed.

Lemma boost_findable_preserved m m' hash :
  preserved m m' -> shift m' = shift m ->
  findable m hash -> findable m' hash.
Proof.
  intros [Hlen Hp] Hshift (i & Hin & Hbits).
  assert (Hpr : forall j, probed m' hash j = probed m hash j).
  { intros j. unfold probed, position_for, size. now rewrite Hlen, Hshift. }
  exists i. split.
  - rewrite Hpr. destruct (Hp (probed m hash i)) as (_ & [l ->] & _).
    apply elem_of_app. now left.
  - intros j Hj. rewrite Hpr.
    destruct (Hp (probed m hash j)) as (_ & _ & Hb).
    pose proof (Z.mod_pos_bound hash 8 ltac:(lia)) as Ht.
    rewrite bit_set_testbit. apply Hb; [lia|].
    rewrite <- bit_set_testbit. now apply Hbits.
Qed.

Lemma boost_insert_shift fuel m hash m' b :
  insert fuel m hash = Some (m', b) -> shift m' = shift m.
Proof.
  intros H. unfold insert in H.
  destruct (find fuel m hash) as [[info [|]]|]; try discriminate.
  - now injection H as <- _.
  - destruct (boost_insert_loop_inv m hash fuel m' b H) as (i & _ & _ & _ & _ & ->).
    apply boost_inserted_shift.
Qed.

Lemma boost_insert_findable k fuel m hash m' b :
  table_inv m -> size m = 2 ^ k -> 1 <= k < wordsize ->
  0 <= hash < modulus ->
  insert fuel m hash = Some (m', b) -> findable m' hash.
Proof.
  intros Hinv Hsize Hk Hh H. unfold insert in H.
  destruct (find fuel m hash) as [[info [|]]|] eqn:Hf; try discriminate.
  - injection H as <- _. now apply boost_find_findable in Hf.
  - destruct (boost_insert_loop_inv m hash fuel m' b H)
      as (i & _ & Hroom & Hlt & _ & ->).
    pose proof (boost_probed_range m k hash Hinv Hsize Hk Hh i) as Hr.
    exists i. split.
    + rewrite boost_inserted_probed, boost_inserted_occupied;
        [|assumption|unfold size in Hr; lia|assumption].
      apply elem_of_app. right. now apply list_elem_of_singleton.
    + intros j Hj. rewrite boost_inserted_probed.
      now apply boost_inserted_bit.
Qed.

Lemma boost_find_stored fuel m hash info :
  find fuel m hash = Some (info, true) -> stored m hash.
Proof.
  intros H. apply boost_find_findable in H as (i & Hin & _).
  unfold group_at in Hin.
  destruct (groups m !! Z.to_nat (probed m hash i)) as [g|] eqn:E.
  - exists g. split; [now apply list_elem_of_lookup_2 in E|assumption].
  - cbn in Hin. now apply elem_of_nil in Hin.
Qed.

End boost_findable.

Section abseil_findable.
Import abseil_map(N, table, elements, size, element_at, position_for, find,
                  insert, window, is_empty, probed, find_stops, has_room,
                  inserted, preserved, stored, findable).

Lemma abseil_findable_find k m hash :
  size m = 2 ^ k * N -> 0 <= k <= 59 -> findable m hash ->
  exists (i : nat) info, forall fuel, find (S i + fuel) m hash = Some (info, true).
Proof.
  intros Hsize Hk (i & Hin & Hfull).
  assert (Hs : find_stops m hash i = true).
  { unfold find_stops. apply orb_true_iff. left.
    now apply (existsb_eqb_elem optional_eqb optional_eqb_eq). }
  destruct (first_or_none (find_stops m hash) (S i))
    as [(i' & Hi' & Hs' & Hlt)|Hnone];
    [|rewrite (Hnone i) in Hs by lia; discriminate].
  destruct (decide (Some hash ∈ window m (probed m hash i'))) as [Hin'|Hin'].
  - destruct (elem_of_split_first optional_eqb optional_eqb_eq _ _ Hin')
      as (l1 & l2 & Hw & Hn).
    exists i'. eexists. intros fuel.
    exact (abseil_find_true m k hash Hsize Hk i' fuel l1 l2 Hlt Hw Hn).
  - exfalso. unfold find_stops in Hs'. apply orb_true_iff in Hs' as [Hs'|Hs'].
    + apply (existsb_eqb_elem optional_eqb optional_eqb_eq) in Hs'. tauto.
    + destruct (decide (i' = i)) as [->|Hne]; [tauto|].
      rewrite Hfull in Hs' by lia. discriminate.
Qed.

Lemma abseil_find_findable k fuel m hash info :
  size m = 2 ^ k * N -> 0 <= k <= 59 ->
  find fuel m hash = Some (info, true) -> findable m hash.
Proof.
  intros Hsize Hk H.
  destruct (abseil_find_inv m k hash Hsize Hk fuel info true H)
    as (i & c & _ & Hlt & Hkey & _).
  exists i. split; [now apply Hkey|].
  intros j Hj. now apply abseil_find_stops_false, Hlt.
Qed.

Lemma abseil_preserved_element_at m m' pos x :
  preserved m m' -> element_at m pos = Some x -> element_at m' pos = Some x.
Proof.
  intros [Hlen Hp] Hx. unfold element_at, size in *. rewrite Hlen.
  destruct (elements m !! _) as [[y|]|] eqn:E; cbn in Hx; try discriminate.
  injection Hx as ->. now rewrite (Hp _ _ E).
Qed.

Lemma abseil_preserved_window_key m m' q x :
  preserved m m' -> Some x ∈ window m q -> Some x ∈ window m' q.
Proof.
  intros Hp [j Hj]%list_elem_of_lookup.
  pose proof (lookup_lt_Some _ _ _ Hj) as Hlt.
  rewrite abseil_window_length in Hlt.
  rewrite abseil_window_lookup in Hj by lia.
  apply list_elem_of_lookup. exists j.
  rewrite abseil_window_lookup by lia. f_equal.
  apply (abseil_preserved_element_at m m'); [assumption|congruence].
Qed.

Lemma abseil_preserved_window_full m m' q :
  preserved m m' ->
  existsb is_empty (window m q) = false ->
  existsb is_empty (window m' q) = false.
Proof.
  intros Hp Hfull.
  destruct (existsb is_empty (window m' q)) eqn:E; [exfalso|reflexivity].
  apply existsb_is_empty, list_elem_of_lookup in E as [j Hj].
  pose proof (lookup_lt_Some _ _ _ Hj) as Hlt.
  rewrite abseil_window_length in Hlt.
  rewrite abseil_window_lookup in Hj by lia.
  assert (Hin : None ∈ window m q); [|apply existsb_is_empty in Hin; congruence].
  apply list_elem_of_lookup. exists j. rewrite abseil_window_lookup by lia.
  destruct (element_at m (q + Z.of_nat j)) as [x|] eqn:Ex; [|reflexivity].
  rewrite (abseil_preserved_element_at m m' _ x Hp Ex) in Hj. discriminate.
Qed.

Lemma abseil_preserved_probed m m' hash j :
  preserved m m' -> probed m' hash j = probed m hash j.
Proof.
  intros [Hlen _]. unfold probed, position_for, size. now rewrite Hlen.
Qed.

Lemma abseil_findable_preserved m m' hash :
  preserved m m' -> findable m hash -> findable m' hash.
Proof.
  intros Hp (i & Hin & Hfull). exists i. split.
  - rewrite (abseil_preserved_probed m m') by assumption.
    now apply (abseil_preserved_window_key m m').
  - intros j Hj. rewrite (abseil_preserved_probed m m') by assumption.
    apply (abseil_preserved_window_full m m'); [assumption|now apply Hfull].
Qed.

Lemma abseil_insert_findable k fuel m hash m' b :
  size m = 2 ^ k * N -> 0 <= k <= 59 ->
  insert fuel m hash = Some (m', b) -> findable m' hash.
Proof.
  intros Hsize Hk H. unfold insert in H.
  destruct (find fuel m hash) as [[info [|]]|] eqn:Hf; try discriminate.
  - injection H as <- _. now apply (abseil_find_findable k) in Hf.
  - cbv zeta in H.
    destruct (abseil_insert_loop_inv m k hash Hsize Hk fuel m' b H)
      as (i & _ & Hroom & Hlt & _ & ->).
    exists i. split.
    + rewrite abseil_inserted_probed.
      now apply (abseil_inserted_key m k).
    + intros j Hj. rewrite abseil_inserted_probed.
      apply abseil_inserted_no_empty; [assumption|now apply Hlt].
Qed.

Lemma abseil_window_stored m q x : Some x ∈ window m q -> stored m x.
Proof.
  intros [j Hj]%list_elem_of_lookup.
  pose proof (lookup_lt_Some _ _ _ Hj) as Hlt.
  rewrite abseil_window_length in Hlt.
  rewrite abseil_window_lookup in Hj by lia.
  unfold element_at in Hj.
  destruct (elements m !! _) as [y|] eqn:E; cbn in Hj; [|discriminate].
  unfold stored. apply list_elem_of_lookup_2 in E. congruence.
Qed.

Lemma abseil_find_stored k fuel m hash info :
  size m = 2 ^ k * N -> 0 <= k <= 59 ->
  find fuel m hash = Some (info, true) -> stored m hash.
Proof.
  intros Hsize Hk H.
  apply (abseil_find_findable k) in H as (i & Hin & _); try assumption.
  now apply abseil_window_stored in Hin.
Qed.

End abseil_findable.

(** ** Stored keys *)

Lemma abseil_find_loop_mono fuel fuel' m hash off pb info r :
  (fuel <= fuel')%nat ->
  abseil_map.find_loop fuel m hash off pb info = Some r ->
  abseil_map.find_loop fuel' m hash off pb info = Some r.
Proof.
  revert fuel' pb info. induction fuel as [|fuel IH]; intros fuel' pb info Hle H;
    [discriminate|].
  destruct fuel' as [|fuel']; [lia|]. cbn [abseil_map.find_loop] in *.
  destruct (negb (_ =? _)); [assumption|].
  destruct (negb (_ =? _)); [assumption|].
  apply IH; [lia|assumption].
Qed.

Section boost_stored.
Import boost_map.

Lemma boost_group_at_lookup m (q : nat) g :
  groups m !! q = Some g -> group_at m (Z.of_nat q) = g.
Proof. intros H. unfold group_at. now rewrite Nat2Z.id, H. Qed.

Lemma boost_stored_group_at m x :
  stored m x <-> exists q : nat, (q < length (groups m))%nat /\
                   x ∈ occupied (group_at m (Z.of_nat q)).
Proof.
  split.
  - intros (g & [q Hq]%list_elem_of_lookup_1 & Hx). exists q.
    split; [now apply lookup_lt_Some in Hq|].
    now rewrite (boost_group_at_lookup m q g Hq).
  - intros (q & Hq & Hx).
    destruct (lookup_lt_is_Some_2 _ _ Hq) as [g Hg].
    exists g. split; [now apply list_elem_of_lookup_2 in Hg|].
    now rewrite (boost_group_at_lookup m q g Hg) in Hx.
Qed.

Lemma boost_stored_preserved m m' x :
  preserved m m' -> stored m x -> stored m' x.
Proof.
  intros [Hlen Hp] (q & Hq & Hx)%boost_stored_group_at.
  apply boost_stored_group_at. exists q. split; [lia|].
  destruct (Hp (Z.of_nat q)) as (_ & [l ->] & _). apply elem_of_app. now left.
Qed.

Lemma boost_inserted_stored m y i x :
  table_inv m -> has_room m y i = true ->
  stored (inserted m y i) x -> x = y \/ stored m x.
Proof.
  intros Hinv Hroom (q & Hq & Hx)%boost_stored_group_at.
  pose proof (boost_inserted_size m y i) as Hs. unfold size in Hs.
  destruct (boost_marked_group m y i (Z.of_nat q)) as (He & Hn & _).
  destruct (boost_inserted_group m y i (Z.of_nat q)) as [E|(E & _ & Eg)].
  - right. apply boost_stored_group_at. exists q. split; [lia|].
    rewrite E, (boost_marked_occupied m y i) in Hx. assumption.
  - unfold has_room in Hroom. apply Z.ltb_lt in Hroom.
    rewrite <- (boost_group_at_to_nat m _ _ E) in Hroom.
    destruct (group_at_inv m (Z.of_nat q) (proj1 Hinv)) as [(Hl & Hr & _) _].
    rewrite Eg, boost_occupied_push in Hx by (rewrite ?He, ?Hn; lia).
    apply elem_of_app in Hx as [Hx|Hx].
    + right. apply boost_stored_group_at. exists q. split; [lia|].
      now rewrite (boost_marked_occupied m y i) in Hx.
    + left. now apply list_elem_of_singleton in Hx.
Qed.

Lemma boost_insert_stored fuel m y m' b x :
  table_inv m -> insert fuel m y = Some (m', b) ->
  stored m' x -> x = y \/ stored m x.
Proof.
  intros Hinv H Hx. unfold insert in H.
  destruct (find fuel m y) as [[info [|]]|]; try discriminate.
  - injection H as <- _. now right.
  - destruct (boost_insert_loop_inv m y fuel m' b H)
      as (i & _ & Hroom & _ & _ & ->).
    now apply (boost_inserted_stored m y i).
Qed.

(** In a reachable table every stored key is where a lookup gets to. *)
Lemma boost_stored_findable m :
  reachable m ->
  forall k x, size m = 2 ^ k -> 1 <= k < wordsize ->
    stored m x -> findable m x.
Proof.
  induction 1 as [c Hc|m fuel y m' b Hr IH Hy Hins]; intros k x Hsize Hk Hx.
  - exfalso. destruct Hx as (g & Hg & Hin).
    cbn [make groups] in Hg. apply elem_of_replicate in Hg as [-> _].
    now apply elem_of_nil in Hin.
  - pose proof (reachable_inv m Hr) as Hinv.
    destruct (boost_insert_preserved fuel m y m' b Hins) as [Hp _].
    assert (Hsize' : size m = 2 ^ k)
      by (unfold size in *; destruct Hp as [<- _]; assumption).
    destruct (boost_insert_stored fuel m y m' b x Hinv Hins Hx) as [->|Hold].
    + exact (boost_insert_findable k fuel m y m' b Hinv Hsize' Hk Hy Hins).
    + apply (boost_findable_preserved m m'); [assumption| |].
      * exact (boost_insert_shift fuel m y m' b Hins).
      * exact (IH k x Hsize' Hk Hold).
Qed.

End boost_stored.

Section abseil_stored.
Import abseil_map(N, table, elements, size, element_at, set_element_at, make,
                  insert, reachable, preserved, stored, findable).

Lemma abseil_stored_preserved m m' x :
  preserved m m' -> stored m x -> stored m' x.
Proof.
  intros [_ Hp] [j Hj]%list_elem_of_lookup_1.
  apply list_elem_of_lookup_2 with j. now apply Hp.
Qed.

Lemma abseil_insert_stored fuel m y m' b x :
  insert fuel m y = Some (m', b) -> stored m' x -> x = y \/ stored m x.
Proof.
  intros H Hx. unfold insert in H.
  destruct (abseil_map.find fuel m y) as [[info [|]]|]; try discriminate.
  - injection H as <- _. now right.
  - cbv zeta in H.
    destruct (abseil_insert_loop_writes _ _ _ _ _ _ _ H) as (pos1 & _ & -> & _).
    unfold stored, set_element_at in Hx. cbn [elements] in Hx.
    apply list_elem_of_lookup_1 in Hx as [j Hj].
    rewrite list_lookup_insert in Hj. destruct (decide _) in Hj.
    + left. congruence.
    + right. now apply list_elem_of_lookup_2 in Hj.
Qed.

Lemma abseil_stored_findable m :
  reachable m ->
  forall k x, size m = 2 ^ k * N -> 0 <= k <= 59 ->
    stored m x -> findable m x.
Proof.
  induction 1 as [c Hc|m fuel y m' b Hr IH Hy Hins]; intros k x Hsize Hk Hx.
  - exfalso. unfold stored, make in Hx. cbn [elements] in Hx.
    apply elem_of_replicate in Hx as [? _]. discriminate.
  - destruct (abseil_insert_preserved fuel m y m' b Hins) as [Hp _].
    assert (Hsize' : size m = 2 ^ k * N)
      by (unfold size in *; destruct Hp as [<- _]; assumption).
    destruct (abseil_insert_stored fuel m y m' b x Hins Hx) as [->|Hold].
    + exact (abseil_insert_findable k fuel m y m' b Hsize' Hk Hins).
    + apply (abseil_findable_preserved m m'); [assumption|].
      exact (IH k x Hsize' Hk Hold).
Qed.

End abseil_stored.

Lemma find_deterministic v fuel fuel' (m : table v) hash r r' :
  find v fuel m hash = Some r -> find v fuel' m hash = Some r' -> r = r'.
Proof.
  intros H H'. destruct v; cbn [find table] in *.
  - unfold boost_map.find in *.
    apply (boost_find_loop_mono _ (fuel + fuel')) in H; [|lia].
    apply (boost_find_loop_mono _ (fuel + fuel')) in H'; [|lia]. congruence.
  - unfold abseil_map.find in *. cbv zeta in *.
    apply (abseil_find_loop_mono _ (fuel + fuel')) in H; [|lia].
    apply (abseil_find_loop_mono _ (fuel + fuel')) in H'; [|lia]. congruence.
Qed.

Lemma stored_found v k (m : table v) hash :
  reachable v m -> has_capacity v m (2 ^ k) ->
  min_log2_capacity v <= k <= 59 -> stored v m hash ->
  exists (i : nat) info,
    forall fuel, find v (S i + fuel) m hash = Some (info, true).
Proof.
  destruct v; cbn [reachable has_capacity min_log2_capacity stored find table];
    intros Hr Hc Hk Hs.
  - apply boost_findable_find.
    apply (boost_stored_findable m Hr k); [assumption|unfold wordsize; lia|assumption].
  - apply (abseil_findable_find k); [assumption..|].
    now apply (abseil_stored_findable m Hr k).
Qed.

(** X6.  In a reachable table of [2^k] groups a lookup that returns reports
    found=true exactly for the keys the table stores: a hit is a stored key,
    a miss is a key stored nowhere, and for a stored key every lookup with
    enough fuel returns found=true. *)
Theorem find_agrees_with_contents (v : variant) (k : Z) (m : table v)
    (hash : Z) :
  reachable v m -> has_capacity v m (2 ^ k) ->
  min_log2_capacity v <= k <= 59 ->
  (forall fuel info,
     find v fuel m hash = Some (info, true) -> stored v m hash) /\
  (forall fuel info,
     find v fuel m hash = Some (info, false) -> ~ stored v m hash) /\
  (stored v m hash ->
   exists (i : nat) info,
     forall fuel, find v (S i + fuel) m hash = Some (info, true)).
Proof.
  intros Hr Hc Hk. split; [|split].
  - intros fuel info H. destruct v; cbn [find stored has_capacity table] in *.
    + now apply boost_find_stored in H.
    + apply (abseil_find_stored k) in H; [assumption..|]. cbn in Hk. lia.
  - intros fuel info H Hs.
    destruct (stored_found v k m hash Hr Hc Hk Hs) as (i & info' & Hf).
    pose proof (find_deterministic v _ _ m hash _ _ H (Hf 0%nat)). discriminate.
  - exact (stored_found v k m hash Hr Hc Hk).
Qed.

Lemma find_agrees_with_contents_witness :
  exists (i : nat) info,
    forall fuel,
      find abseil (S i + fuel)
        (abseil_map.set_element_at (abseil_map.make 1) 5 (Some 643)) 643
      = Some (info, true).
Proof.
  assert (Hr : reachable abseil
                 (abseil_map.set_element_at (abseil_map.make 1) 5 (Some 643))).
  { apply (abseil_map.reachable_insert (abseil_map.make 1) 1 643 _ true).
    - apply abseil_map.reachable_make. rewrite modulus_eq. lia.
    - rewrite modulus_eq. lia.
    - reflexivity. }
  apply (find_agrees_with_contents abseil 0 _ 643 Hr eq_refl ltac:(cbn; lia)).
  cbn [stored]. unfold abseil_map.stored.
  change (Some 643 ∈ replicate 5 None ++ Some 643 :: replicate 10 None).
  apply elem_of_app. right. left.
Defined.

Lemma has_capacity_preserved v (m m' : table v) c :
  preserved v m m' -> has_capacity v m c -> has_capacity v m' c.
Proof.
  destruct v; cbn [preserved has_capacity table]; intros [Hlen _] Hc.
  - unfold boost_map.size in *. now rewrite Hlen.
  - unfold abseil_map.size in *. now rewrite Hlen.
Qed.

Lemma stored_preserved v (m m' : table v) x :
  preserved v m m' -> stored v m x -> stored v m' x.
Proof.
  destruct v; [apply boost_stored_preserved|apply abseil_stored_preserved].
Qed.

Lemma insert_stores v k fuel (m m' : table v) hash b :
  reachable v m -> has_capacity v m (2 ^ k) ->
  min_log2_capacity v <= k <= 59 -> 0 <= hash < modulus ->
  insert v fuel m hash = Some (m', b) -> stored v m' hash.
Proof.
  destruct v;
    cbn [reachable has_capacity min_log2_capacity insert stored table];
    intros Hr Hc Hk Hh Hi.
  - assert (Hkw : 1 <= k < wordsize) by (unfold wordsize; lia).
    pose proof (boost_insert_findable k fuel m hash m' b
                  (reachable_inv m Hr) Hc Hkw Hh Hi) as Hf.
    destruct (boost_findable_find m' hash Hf) as (i & info & Hfind).
    exact (boost_find_stored _ _ _ _ (Hfind 0%nat)).
  - pose proof (abseil_insert_findable k fuel m hash m' b Hc Hk Hi)
      as (i & Hin & _).
    now apply abseil_window_stored in Hin.
Qed.

Lemma find_true_counts v k fuel (m : table v) hash info :
  reachable v m -> has_capacity v m (2 ^ k) ->
  min_log2_capacity v <= k <= 59 -> 0 <= hash < modulus ->
  find v fuel m hash = Some (info, true) -> 1 <= num_cmps info.
Proof.
  destruct v; cbn [reachable has_capacity min_log2_capacity find table];
    intros Hr Hc Hk Hh Hf.
  - exact (proj2 (boost_find_true_counts m k hash (reachable_inv m Hr)
                    Hc Hk Hh fuel info Hf)).
  - exact (proj2 (abseil_find_true_counts m k hash Hc Hk fuel info Hf)).
Qed.

Lemma insert_present v fuel (m : table v) hash info :
  find v fuel m hash = Some (info, true) ->
  insert v fuel m hash = Some (m, false).
Proof.
  destruct v; cbn [find insert table]; intros H.
  - unfold boost_map.insert. now rewrite H.
  - unfold abseil_map.insert. now rewrite H.
Qed.

(** X7.  Once [insert] has returned for a key, whatever is inserted later,
    the key stays found (with at least one comparison), and inserting it
    again returns false and leaves the table as it is. *)
Theorem inserted_key_persists (v : variant) (k : Z) (fuel fuel' : nat)
    (m m1 m2 : table v) (hash : Z) (b : bool) (keys : list Z) :
  reachable v m -> has_capacity v m (2 ^ k) ->
  min_log2_capacity v <= k <= 59 -> 0 <= hash < modulus ->
  insert v fuel m hash = Some (m1, b) ->
  Forall (fun x => 0 <= x < modulus) keys ->
  insert_all v fuel' m1 keys = Some m2 ->
  exists (i : nat) info,
    1 <= num_cmps info /\
    forall fuel'',
      find v (S i + fuel'') m2 hash = Some (info, true) /\
      insert v (S i + fuel'') m2 hash = Some (m2, false).
Proof.
  intros Hr Hc Hk Hh Hi Hkeys Hall.
  pose proof (reachable_insert v fuel m m1 hash b Hr Hh Hi) as Hr1.
  pose proof (reachable_insert_all v fuel' m1 m2 keys Hr1 Hkeys Hall) as Hr2.
  pose proof (proj1 (insert_preserved v fuel m m1 hash b Hi)) as Hp1.
  pose proof (insert_all_preserved v fuel' m1 m2 keys Hall) as Hp2.
  assert (Hc2 : has_capacity v m2 (2 ^ k))
    by (apply (has_capacity_preserved v m1); [assumption|];
        now apply (has_capacity_preserved v m)).
  assert (Hs : stored v m2 hash).
  { apply (stored_preserved v m1); [assumption|].
    exact (insert_stores v k fuel m m1 hash b Hr Hc Hk Hh Hi). }
  destruct (stored_found v k m2 hash Hr2 Hc2 Hk Hs) as (i & info & Hf).
  exists i, info. split.
  - exact (find_true_counts v k _ m2 hash info Hr2 Hc2 Hk Hh (Hf 0%nat)).
  - intros fuel''. split; [apply Hf|]. exact (insert_present v _ m2 hash info (Hf fuel'')).
Qed.

Lemma inserted_key_persists_witness :
  exists (i : nat) info,
    1 <= num_cmps info /\
    forall fuel'',
      find boost (S i + fuel'')
        (boost_map.set_group (boost_map.make 2) 0
           (boost_map.push (boost_map.push boost_map.group0 5) 6)) 5
      = Some (info, true) /\
      insert boost (S i + fuel'')
        (boost_map.set_group (boost_map.make 2) 0
           (boost_map.push (boost_map.push boost_map.group0 5) 6)) 5
      = Some (boost_map.set_group (boost_map.make 2) 0
                (boost_map.push (boost_map.push boost_map.group0 5) 6),
              false).
Proof.
  apply (inserted_key_persists boost 1 1 1 (boost_map.make 2)
           (boost_map.set_group (boost_map.make 2) 0
              (boost_map.push boost_map.group0 5)) _ 5 true [6]).
  - apply boost_map.reachable_make. rewrite modulus_eq. lia.
  - reflexivity.
  - cbn. lia.
  - rewrite modulus_eq. lia.
  - reflexivity.
  - apply Forall_cons. split; [rewrite modulus_eq; lia|apply Forall_nil_2].
  - reflexivity.
Defined.

(** ** No key is stored twice *)

Section boost_distinct.
Import boost_map.

Lemma boost_inserted_entry m y i (q : nat) g' (i1 : nat) x :
  table_inv m -> has_room m y i = true ->
  groups (inserted m y i) !! q = Some g' -> occupied g' !! i1 = Some x ->
  exists g,
    groups m !! q = Some g /\
    (occupied g !! i1 = Some x \/
     (q = Z.to_nat (probed m y i) /\ i1 = length (occupied g) /\ x = y)).
Proof.
  intros Hinv Hroom Hq Hx.
  pose proof (boost_inserted_size m y i) as Hs. unfold size in Hs.
  pose proof (lookup_lt_Some _ _ _ Hq) as Hlt.
  destruct (lookup_lt_is_Some_2 (groups m) q ltac:(lia)) as [g Hg].
  exists g. split; [assumption|].
  rewrite <- (boost_group_at_lookup _ q g' Hq) in Hx.
  pose proof (boost_group_at_lookup m q g Hg) as Eg.
  destruct (boost_marked_group m y i (Z.of_nat q)) as (He & Hn & _).
  destruct (boost_inserted_group m y i (Z.of_nat q)) as [E|(E & _ & Ep)].
  - left. now rewrite E, (boost_marked_occupied m y i), Eg in Hx.
  - unfold has_room in Hroom. apply Z.ltb_lt in Hroom.
    rewrite <- (boost_group_at_to_nat m _ _ E) in Hroom.
    destruct (group_at_inv m (Z.of_nat q) (proj1 Hinv)) as [(Hl & Hr & _) _].
    rewrite Ep, boost_occupied_push in Hx by (rewrite ?He, ?Hn; lia).
    rewrite (boost_marked_occupied m y i), Eg in Hx.
    apply lookup_app_Some in Hx as [Hx|[Hge Hx]]; [now left|right].
    rewrite Nat2Z.id in E. split; [assumption|].
    apply list_lookup_singleton_Some in Hx as [Hz ->]. split; [lia|reflexivity].
Qed.

Lemma boost_insert_distinct k fuel m y m' b :
  reachable m -> size m = 2 ^ k -> 1 <= k < wordsize ->
  distinct m -> insert fuel m y = Some (m', b) -> distinct m'.
Proof.
  intros Hr Hsize Hk Hd H. pose proof (reachable_inv m Hr) as Hinv.
  unfold insert in H.
  destruct (find fuel m y) as [[info [|]]|] eqn:Hf; try discriminate.
  - now injection H as <- _.
  - destruct (boost_insert_loop_inv m y fuel m' b H)
      as (i & _ & Hroom & _ & _ & ->).
    assert (Hny : ~ stored m y).
    { intros Hs.
      destruct (boost_findable_find m y (boost_stored_findable m Hr k y Hsize Hk Hs))
        as (i' & info' & Hf').
      pose proof (find_deterministic boost _ _ m y _ _ Hf (Hf' 0%nat)).
      discriminate. }
    assert (Hold : forall q g i1, groups m !! q = Some g ->
                     occupied g !! i1 = Some y -> False).
    { intros q g i1 Hg Hx. apply Hny. exists g.
      split; [now apply list_elem_of_lookup_2 in Hg|].
      now apply list_elem_of_lookup_2 in Hx. }
    intros q1 q2 g1 g2 i1 i2 x H1 H2 Hx1 Hx2.
    destruct (boost_inserted_entry m y i q1 g1 i1 x Hinv Hroom H1 Hx1)
      as (h1 & Hh1 & [O1|(Eq1 & Ei1 & ->)]);
    destruct (boost_inserted_entry m y i q2 g2 i2 _ Hinv Hroom H2 Hx2)
      as (h2 & Hh2 & [O2|(Eq2 & Ei2 & E2)]).
    + exact (Hd q1 q2 h1 h2 i1 i2 x Hh1 Hh2 O1 O2).
    + subst x. exfalso. exact (Hold q1 h1 i1 Hh1 O1).
    + exfalso. exact (Hold q2 h2 i2 Hh2 O2).
    + subst q1 q2. split; [reflexivity|]. congruence.
Qed.

End boost_distinct.

Section abseil_distinct.
Import abseil_map(N, table, elements, size, element_at, set_element_at,
                  insert, reachable, stored, distinct).

Lemma abseil_insert_distinct k fuel m y m' b :
  reachable m -> size m = 2 ^ k * N -> 0 <= k <= 59 ->
  distinct m -> insert fuel m y = Some (m', b) -> distinct m'.
Proof.
  intros Hr Hsize Hk Hd H. unfold insert in H.
  destruct (abseil_map.find fuel m y) as [[info [|]]|] eqn:Hf; try discriminate.
  - now injection H as <- _.
  - cbv zeta in H.
    destruct (abseil_insert_loop_writes _ _ _ _ _ _ _ H) as (pos1 & _ & -> & _).
    assert (Hny : ~ stored m y).
    { intros Hs.
      destruct (abseil_findable_find k m y Hsize Hk
                  (abseil_stored_findable m Hr k y Hsize Hk Hs))
        as (i' & info' & Hf').
      pose proof (find_deterministic abseil _ _ m y _ _ Hf (Hf' 0%nat)).
      discriminate. }
    intros i j x Hi Hj. unfold set_element_at in Hi, Hj. cbn [elements] in *.
    rewrite list_lookup_insert in Hi, Hj.
    destruct (decide _) as [[<- _]|_] in Hi; destruct (decide _) as [[<- _]|_] in Hj.
    + reflexivity.
    + exfalso. apply Hny. assert (x = y) as -> by congruence.
      now apply list_elem_of_lookup_2 in Hj.
    + exfalso. apply Hny. assert (x = y) as -> by congruence.
      now apply list_elem_of_lookup_2 in Hi.
    + exact (Hd i j x Hi Hj).
Qed.

End abseil_distinct.

(** X8.  A reachable table of [2^k] groups holds no key twice: [insert]
    looks the key up first, and the lookup finds every stored key. *)
Theorem reachable_keys_distinct (v : variant) (m : table v) :
  reachable v m ->
  forall k, has_capacity v m (2 ^ k) -> min_log2_capacity v <= k <= 59 ->
    distinct v m.
Proof.
  destruct v; cbn [reachable has_capacity min_log2_capacity distinct table].
  - induction 1 as [c Hc|m fuel y m' b Hr IH Hy Hins]; intros k Hsize Hk.
    + intros q1 q2 g1 g2 i1 i2 x H1 _ Hx _. exfalso.
      cbn [boost_map.make boost_map.groups] in H1.
      apply lookup_replicate in H1 as [-> _]. cbn in Hx. discriminate.
    + destruct (boost_insert_preserved fuel m y m' b Hins) as [[Hlen _] _].
      assert (Hsize' : boost_map.size m = 2 ^ k)
        by (unfold boost_map.size in *; now rewrite <- Hlen).
      apply (boost_insert_distinct k fuel m y m' b);
        [assumption..|unfold wordsize; lia|now apply (IH k)|assumption].
  - induction 1 as [c Hc|m fuel y m' b Hr IH Hy Hins]; intros k Hsize Hk.
    + intros i j x Hi _. exfalso.
      cbn [abseil_map.make abseil_map.elements] in Hi.
      apply lookup_replicate in Hi as [? _]. discriminate.
    + destruct (abseil_insert_preserved fuel m y m' b Hins) as [[Hlen _] _].
      assert (Hsize' : abseil_map.size m = 2 ^ k * abseil_map.N)
        by (unfold abseil_map.size in *; now rewrite <- Hlen).
      apply (abseil_insert_distinct k fuel m y m' b);
        [assumption..|now apply (IH k)|assumption].
Qed.

Lemma reachable_keys_distinct_witness :
  distinct boost
    (boost_map.set_group (boost_map.make 2) 0
       (boost_map.push boost_map.group0 5)).
Proof.
  apply (reachable_keys_distinct boost _
           (boost_map.reachable_insert (boost_map.make 2) 1 5 _ true
              (boost_map.reachable_make 2 ltac:(rewrite modulus_eq; lia))
              ltac:(rewrite modulus_eq; lia) eq_refl) 1);
    [reflexivity|cbn; lia].
Defined.

(** ** Lookups and insertions return while the table has space *)

Section boost_lookup_returns.
Import boost_map.

Lemma boost_find_returns k m hash :
  table_inv m -> size m = 2 ^ k -> 1 <= k < wordsize ->
  0 <= hash < modulus ->
  (exists g, g ∈ groups m /\ n g < N) ->
  exists i : nat,
    Z.of_nat i < 2 ^ k /\
    forall fuel, (i < fuel)%nat ->
      exists info b,
        find fuel m hash = Some (info, b) /\ num_hops info = Z.of_nat i.
Proof.
  intros Hinv Hsize Hk Hh (g & Hg & Hn).
  apply list_elem_of_lookup_1 in Hg as [q Hq].
  pose proof (lookup_lt_Some _ _ _ Hq) as Hlen.
  destruct (boost_probed_cover m k hash Hinv Hsize Hk Hh (Z.of_nat q))
    as (i0 & Hi0 & E); [unfold size; lia|].
  assert (H0 : find_stops m hash i0 = true).
  { unfold find_stops. rewrite E, (boost_group_at_lookup m q g Hq).
    destruct (proj1 (Forall_lookup _ _) (proj1 Hinv) _ _ Hq) as [_ Hz].
    unfold bit_set. rewrite (Hz Hn). apply orb_true_r. }
  destruct (first_or_none (find_stops m hash) (S i0))
    as [(i & Hi & Hs & Hlt)|Hnone];
    [|rewrite (Hnone i0) in H0 by lia; discriminate].
  exists i. split; [lia|]. intros fuel Hfuel.
  pose proof (pow2_lt_modulus k ltac:(lia)) as Hm.
  replace fuel with (S i + (fuel - S i))%nat by lia.
  destruct (has_key (group_at m (probed m hash i)) hash) eqn:Hkey.
  - unfold has_key in Hkey. apply bool_decide_eq_true in Hkey.
    destruct (elem_of_split_first Z.eqb Z.eqb_eq _ _ Hkey)
      as (l1 & l2 & Hocc & Hn1).
    rewrite (boost_find_true m hash i _ l1 l2 Hlt Hocc Hn1).
    eexists _, _. split; [reflexivity|]. cbn [num_hops]. apply wrap_small. lia.
  - unfold find_stops in Hs. rewrite Hkey in Hs. cbn [orb] in Hs.
    apply negb_true_iff in Hs.
    unfold has_key in Hkey. apply bool_decide_eq_false in Hkey.
    rewrite (boost_find_false m hash i _ Hlt Hkey Hs).
    eexists _, _. split; [reflexivity|]. cbn [num_hops]. apply wrap_small. lia.
Qed.

End boost_lookup_returns.

Section abseil_returns.
Import abseil_map(N, table, elements, size, element_at, position_for, find,
                  insert, window, is_empty, probed, find_stops, has_room,
                  inserted, stored).
Variables (m : table) (k hash : Z).
Hypothesis Hsize : size m = 2 ^ k * N.
Hypothesis Hk : 0 <= k <= 59.

Lemma abseil_element_at_lookup pos :
  element_at m pos = default None (elements m !! Z.to_nat (pos mod size m)).
Proof. unfold element_at. now rewrite (abseil_index m k Hsize Hk). Qed.

(** An empty slot lies in one of the windows of every probe sequence. *)
Lemma abseil_empty_slot_window :
  None ∈ elements m ->
  exists i0 : nat, Z.of_nat i0 < 2 ^ k /\ has_room m hash i0 = true.
Proof.
  intros [e He]%list_elem_of_lookup_1.
  pose proof (lookup_lt_Some _ _ _ He) as Hlen.
  pose proof (abseil_size_bound m k Hsize Hk) as Hb.
  pose proof (abseil_off_range m hash) as Hoff.
  set (off := position_for m hash mod N) in *.
  set (d := (Z.of_nat e - off) mod size m).
  assert (Hd : 0 <= d < size m) by (apply Z.mod_pos_bound; lia).
  assert (Hg : 0 <= d / N < 2 ^ k).
  { rewrite Hsize in Hd. unfold N in *.
    split; [apply Z.div_pos; lia|apply Z.div_lt_upper_bound; lia]. }
  destruct (abseil_probed_cover m k hash Hsize Hk (d / N) Hg) as (i0 & Hi0 & E).
  fold off in E.
  exists i0. split; [assumption|]. unfold has_room.
  apply existsb_is_empty, list_elem_of_lookup.
  pose proof (Z.mod_pos_bound d N ltac:(unfold N; lia)) as Hj.
  exists (Z.to_nat (d mod N)).
  rewrite abseil_window_lookup by (unfold N in *; lia).
  rewrite abseil_element_at_lookup, E. f_equal.
  replace (d / N * N + off + Z.of_nat (Z.to_nat (d mod N))) with (d + off)
    by (pose proof (Z.div_mod d N ltac:(unfold N; lia)); lia).
  subst d. rewrite Zplus_mod_idemp_l.
  replace (Z.of_nat e - off + off) with (Z.of_nat e) by lia.
  rewrite Z.mod_small by (unfold size in *; lia).
  now rewrite Nat2Z.id, He.
Qed.

Lemma abseil_full_window q :
  None ∉ elements m -> existsb is_empty (window m q) = false.
Proof.
  intros Hfull.
  destruct (existsb is_empty (window m q)) eqn:E; [exfalso|reflexivity].
  apply existsb_is_empty, list_elem_of_lookup in E as [j Hj].
  pose proof (lookup_lt_Some _ _ _ Hj) as Hlt.
  rewrite abseil_window_length in Hlt.
  rewrite abseil_window_lookup, abseil_element_at_lookup in Hj by lia.
  pose proof (abseil_size_bound m k Hsize Hk) as Hb.
  pose proof (Z.mod_pos_bound (q + Z.of_nat j) (size m) ltac:(lia)) as Hr.
  destruct (lookup_lt_is_Some_2 (elements m)
              (Z.to_nat ((q + Z.of_nat j) mod size m))
              ltac:(unfold size in *; lia)) as [o Ho].
  rewrite Ho in Hj. cbn in Hj. apply Hfull.
  apply list_elem_of_lookup_2 in Ho. congruence.
Qed.

Lemma abseil_find_returns :
  None ∈ elements m ->
  exists i : nat,
    Z.of_nat i < 2 ^ k /\
    forall fuel, (i < fuel)%nat ->
      exists info b,
        find fuel m hash = Some (info, b) /\ num_hops info = Z.of_nat i.
Proof.
  intros Hempty.
  destruct (abseil_empty_slot_window Hempty) as (i0 & Hi0 & Hroom).
  assert (H0 : find_stops m hash i0 = true).
  { unfold find_stops. unfold has_room in Hroom. rewrite Hroom.
    apply orb_true_r. }
  destruct (first_or_none (find_stops m hash) (S i0))
    as [(i & Hi & Hs & Hlt)|Hnone];
    [|rewrite (Hnone i0) in H0 by lia; discriminate].
  exists i. split; [lia|]. intros fuel Hfuel.
  assert (Hm : 2 ^ k < modulus) by (apply pow2_lt_modulus; unfold wordsize; lia).
  replace fuel with (S i + (fuel - S i))%nat by lia.
  destruct (decide (Some hash ∈ window m (probed m hash i))) as [Hin|Hin].
  - destruct (elem_of_split_first optional_eqb optional_eqb_eq _ _ Hin)
      as (l1 & l2 & Hw & Hn1).
    rewrite (abseil_find_true m k hash Hsize Hk i _ l1 l2 Hlt Hw Hn1).
    eexists _, _. split; [reflexivity|]. apply wrap_small. lia.
  - assert (He : existsb is_empty (window m (probed m hash i)) = true).
    { unfold find_stops in Hs. apply orb_true_iff in Hs as [Hs|Hs]; [|assumption].
      apply (existsb_eqb_elem optional_eqb optional_eqb_eq) in Hs. tauto. }
    rewrite (abseil_find_false m k hash Hsize Hk i _ Hlt Hin He).
    eexists _, _. split; [reflexivity|]. apply wrap_small. lia.
Qed.

Hypothesis Habsent : ~ stored m hash.

Lemma abseil_absent_window q : Some hash ∉ window m q.
Proof. intros Hin. apply Habsent. now apply abseil_window_stored in Hin. Qed.

Lemma abseil_insert_finds_room :
  None ∈ elements m ->
  exists i : nat,
    Z.of_nat i < 2 ^ k /\ has_room m hash i = true /\
    (forall j, (j < i)%nat -> has_room m hash j = false) /\
    forall fuel, (i < fuel)%nat ->
      insert fuel m hash = Some (inserted m hash i, true).
Proof.
  intros Hempty.
  destruct (abseil_empty_slot_window Hempty) as (i0 & Hi0 & H0).
  destruct (first_or_none (has_room m hash) (S i0))
    as [(i & Hi & Hroom & Hlt)|Hnone];
    [|rewrite (Hnone i0) in H0 by lia; discriminate].
  exists i. split; [lia|]. split; [assumption|]. split; [assumption|].
  intros fuel Hfuel. unfold insert.
  assert (Hlt' : forall j, (j < i)%nat -> find_stops m hash j = false).
  { intros j Hj. unfold find_stops. apply orb_false_iff. split.
    - destruct (existsb _ _) eqn:E; [|reflexivity].
      apply (existsb_eqb_elem optional_eqb optional_eqb_eq) in E.
      now apply abseil_absent_window in E.
    - now apply Hlt. }
  replace fuel with (S i + (fuel - S i))%nat by lia.
  rewrite (abseil_find_false m k hash Hsize Hk i _ Hlt'
             (abseil_absent_window _) Hroom).
  cbv zeta. now apply (abseil_insert_loop_at m k hash Hsize Hk).
Qed.

Lemma abseil_insert_full_diverges :
  None ∉ elements m -> forall fuel, insert fuel m hash = None.
Proof.
  intros Hfull fuel. unfold insert.
  rewrite (abseil_find_none m k hash Hsize Hk); [reflexivity|].
  intros j _. unfold find_stops. apply orb_false_iff. split.
  - destruct (existsb _ _) eqn:E; [|reflexivity].
    apply (existsb_eqb_elem optional_eqb optional_eqb_eq) in E.
    now apply abseil_absent_window in E.
  - now apply abseil_full_window.
Qed.

End abseil_returns.

(** X9.  In a reachable table of [2^k] groups that still has space (a group
    with fewer than 15 keys, resp. an empty slot) every lookup, of a stored
    key or not, returns after fewer than [2^k] hops. *)
Theorem find_returns_while_space (v : variant) (k : Z) (m : table v)
    (hash : Z) :
  reachable v m -> has_capacity v m (2 ^ k) ->
  min_log2_capacity v <= k <= 59 -> 0 <= hash < modulus ->
  has_space v m ->
  exists i : nat,
    Z.of_nat i < 2 ^ k /\
    forall fuel, (i < fuel)%nat ->
      exists info b,
        find v fuel m hash = Some (info, b) /\ num_hops info = Z.of_nat i.
Proof.
  destruct v;
    cbn [reachable has_capacity min_log2_capacity has_space find table];
    intros Hr Hc Hk Hh Hs.
  - apply boost_find_returns; try assumption;
      [now apply reachable_inv|unfold wordsize; lia].
  - now apply abseil_find_returns.
Qed.

Lemma find_returns_while_space_witness :
  exists i : nat,
    Z.of_nat i < 2 ^ 1 /\
    forall fuel, (i < fuel)%nat ->
      exists info b,
        find boost fuel (boost_map.make 2) 7 = Some (info, b) /\
        num_hops info = Z.of_nat i.
Proof.
  apply (find_returns_while_space boost 1 (boost_map.make 2) 7).
  - apply boost_map.reachable_make. rewrite modulus_eq. lia.
  - reflexivity.
  - cbn. lia.
  - rewrite modulus_eq. lia.
  - exists boost_map.group0. split; [|reflexivity].
    change (boost_map.group0 ∈ replicate (Z.to_nat 2) boost_map.group0).
    apply elem_of_replicate. split; [reflexivity|]. cbn. lia.
Defined.

(** X10.  In an [abseil_map] of [2^k] logical groups, inserting a key that
    is stored nowhere returns whenever some slot is empty: the key goes to
    the first empty slot of the first probed window that has one, reached
    within the first [2^k] iterations.  When no slot is empty the insertion
    returns for no amount of fuel. *)
Theorem abseil_insert_termination (k : Z) (m : abseil_map.table) (hash : Z) :
  abseil_map.size m = 2 ^ k * abseil_map.N -> 0 <= k <= 59 ->
  ~ abseil_map.stored m hash ->
  (None ∈ abseil_map.elements m ->
   exists i : nat,
     Z.of_nat i < 2 ^ k /\
     (None ∈ abseil_map.window m (abseil_map.probed m hash i)) /\
     (forall j, (j < i)%nat ->
        None ∉ abseil_map.window m (abseil_map.probed m hash j)) /\
     forall fuel, (i < fuel)%nat ->
       exists m',
         abseil_map.insert fuel m hash = Some (m', true) /\
         abseil_map.stored m' hash /\
         m' = abseil_map.inserted m hash i) /\
  (None ∉ abseil_map.elements m ->
   forall fuel, abseil_map.insert fuel m hash = None).
Proof.
  intros Hsize Hk Habs. split.
  - intros Hempty.
    destruct (abseil_insert_finds_room m k hash Hsize Hk Habs Hempty)
      as (i & Hi & Hroom & Hlt & Hins).
    exists i. split; [assumption|].
    split; [now apply existsb_is_empty|].
    split.
    + intros j Hj Hin. apply existsb_is_empty in Hin.
      pose proof (Hlt j Hj) as Hf. unfold abseil_map.has_room in Hf.
      congruence.
    + intros fuel Hfuel. exists (abseil_map.inserted m hash i).
      split; [now apply Hins|]. split; [|reflexivity].
      apply (abseil_window_stored _ (abseil_map.probed m hash i)).
      now apply (abseil_inserted_key m k).
  - now apply (abseil_insert_full_diverges m k hash Hsize Hk Habs).
Qed.

Lemma abseil_insert_termination_witness :
  exists i : nat,
    Z.of_nat i < 2 ^ 0 /\
    forall fuel, (i < fuel)%nat ->
      exists m', abseil_map.insert fuel (abseil_map.make 1) 643 = Some (m', true).
Proof.
  assert (Habs : ~ abseil_map.stored (abseil_map.make 1) 643).
  { unfold abseil_map.stored, abseil_map.make. cbn [abseil_map.elements].
    intros H. apply elem_of_replicate in H as [? _]. discriminate. }
  destruct (abseil_insert_termination 0 (abseil_map.make 1) 643 eq_refl
              ltac:(lia) Habs) as [Hroom _].
  destruct Hroom as (i & Hi & _ & _ & Hins).
  { unfold abseil_map.make. cbn [abseil_map.elements].
    apply elem_of_replicate. split; [reflexivity|]. vm_compute. discriminate. }
  exists i. split; [assumption|]. intros fuel Hfuel.
  destruct (Hins fuel Hfuel) as (m' & E & _). eauto.
Defined.

(** ** Counting keys *)


Section boost_num_keys.
Import boost_map.

Lemma boost_sum_insert (l : list group) (q : nat) g g' :
  l !! q = Some g ->
  fold_right (fun g acc => n g + acc) 0 (<[q := g']> l)
  = fold_right (fun g acc => n g + acc) 0 l - n g + n g'.
Proof.
  revert q. induction l as [|h l IH]; intros q Hq; [discriminate|].
  destruct q as [|q].
  - cbn in Hq |- *. injection Hq as ->. lia.
  - change (<[S q := g']> (h :: l)) with (h :: <[q := g']> l).
    cbn [fold_right]. rewrite (IH q Hq). lia.
Qed.

Lemma boost_num_keys_set_group m q g' :
  n g' = n (group_at m q) -> num_keys (set_group m q g') = num_keys m.
Proof.
  intros Hn. unfold num_keys, set_group, group_at in *. cbn [groups].
  destruct (groups m !! Z.to_nat q) as [g|] eqn:E.
  - rewrite (boost_sum_insert _ _ g g' E). cbn in Hn. lia.
  - apply lookup_ge_None in E. now rewrite list_insert_ge.
Qed.

Lemma boost_num_keys_marked m y i : num_keys (marked m y i) = num_keys m.
Proof.
  induction i as [|i IH]; [reflexivity|]. cbn [marked].
  now rewrite boost_num_keys_set_group.
Qed.

Lemma boost_num_keys_inserted k m y i :
  table_inv m -> size m = 2 ^ k -> 1 <= k < wordsize -> 0 <= y < modulus ->
  has_room m y i = true ->
  num_keys (inserted m y i) = num_keys m + 1.
Proof.
  intros Hinv Hsize Hk Hy Hroom. unfold inserted. cbv zeta.
  pose proof (boost_probed_range m k y Hinv Hsize Hk Hy i) as Hr.
  pose proof (boost_marked_size m y i) as Hs.
  destruct (boost_marked_group m y i (probed m y i)) as (_ & Hn & _).
  unfold has_room in Hroom. apply Z.ltb_lt in Hroom.
  destruct (group_at_inv m (probed m y i) (proj1 Hinv)) as [(_ & Hb & _) _].
  unfold num_keys, set_group. cbn [groups].
  assert (Hlt : (Z.to_nat (probed m y i) < length (groups (marked m y i)))%nat).
  { unfold size in *. lia. }
  destruct (lookup_lt_is_Some_2 _ _ Hlt) as [g Hg].
  rewrite (boost_sum_insert _ _ g _ Hg).
  fold (num_keys (marked m y i)). rewrite boost_num_keys_marked.
  assert (Eg : group_at (marked m y i) (probed m y i) = g)
    by (unfold group_at; now rewrite Hg).
  rewrite Eg in *. cbn [push n].
  rewrite wrap_small by (unfold N in *; rewrite modulus_eq; lia).
  unfold num_keys. lia.
Qed.

Lemma boost_insert_num_keys k fuel m y m' b :
  table_inv m -> size m = 2 ^ k -> 1 <= k < wordsize -> 0 <= y < modulus ->
  insert fuel m y = Some (m', b) ->
  num_keys m' = num_keys m + if b then 1 else 0.
Proof.
  intros Hinv Hsize Hk Hy H. unfold insert in H.
  destruct (find fuel m y) as [[info [|]]|]; try discriminate.
  - injection H as <- <-. lia.
  - destruct (boost_insert_loop_inv m y fuel m' b H)
      as (i & _ & Hroom & _ & -> & ->).
    now apply (boost_num_keys_inserted k).
Qed.

Lemma boost_num_keys_range m :
  table_inv m -> 0 <= num_keys m <= 15 * size m.
Proof.
  intros [HF _]. unfold num_keys, size.
  induction HF as [|g l [(_ & Hn & _) _] _ IH]; cbn [fold_right length];
    unfold N in *; lia.
Qed.

Lemma boost_num_keys_make c : num_keys (make c) = 0.
Proof.
  unfold num_keys, make. cbn [groups].
  induction (Z.to_nat c) as [|j IH]; [reflexivity|]. cbn. now rewrite IH.
Qed.

End boost_num_keys.

Section abseil_num_keys.
Import abseil_map(N, table, elements, size, element_at, set_element_at, make,
                  insert, is_empty, num_keys).

Lemma abseil_count_insert (l : list (option Z)) (idx : nat) y :
  l !! idx = Some None ->
  count_if (fun x => negb (is_empty x)) (<[idx := Some y]> l)
  = count_if (fun x => negb (is_empty x)) l + 1.
Proof.
  revert idx. induction l as [|h l IH]; intros idx H; [discriminate|].
  destruct idx as [|idx].
  - cbn in H |- *. injection H as ->. cbn. lia.
  - change (<[S idx := Some y]> (h :: l)) with (h :: <[idx := Some y]> l).
    cbn [count_if]. rewrite (IH idx H). lia.
Qed.

Lemma abseil_insert_num_keys k fuel m y m' b :
  size m = 2 ^ k * N -> 0 <= k <= 59 ->
  insert fuel m y = Some (m', b) ->
  num_keys m' = num_keys m + if b then 1 else 0.
Proof.
  intros Hsize Hk H. unfold insert in H.
  destruct (abseil_map.find fuel m y) as [[info [|]]|]; try discriminate.
  - injection H as <- <-. lia.
  - cbv zeta in H.
    destruct (abseil_insert_loop_writes _ _ _ _ _ _ _ H) as (pos1 & He & -> & ->).
    unfold num_keys, set_element_at. cbn [elements].
    apply abseil_count_insert.
    unfold element_at in He. rewrite (abseil_index m k Hsize Hk) in *.
    pose proof (abseil_size_bound m k Hsize Hk) as Hb.
    pose proof (Z.mod_pos_bound pos1 (size m) ltac:(lia)) as Hr.
    destruct (lookup_lt_is_Some_2 (elements m) (Z.to_nat (pos1 mod size m))
                ltac:(unfold size in *; lia)) as [o Ho].
    rewrite Ho in He |- *. cbn in He. now subst o.
Qed.

Lemma abseil_num_keys_range m : 0 <= num_keys m <= size m.
Proof.
  unfold num_keys, size. split;
    [apply count_if_nonneg|apply count_if_le_length].
Qed.

Lemma abseil_num_keys_make c : num_keys (make c) = 0.
Proof.
  unfold num_keys, make. cbn [elements].
  induction (Z.to_nat _) as [|j IH]; [reflexivity|]. cbn. now rewrite IH.
Qed.

End abseil_num_keys.

Lemma insert_num_keys v k fuel (m m' : table v) hash b :
  reachable v m -> has_capacity v m (2 ^ k) ->
  min_log2_capacity v <= k <= 59 -> 0 <= hash < modulus ->
  insert v fuel m hash = Some (m', b) ->
  num_keys v m' = num_keys v m + if b then 1 else 0.
Proof.
  destruct v;
    cbn [reachable has_capacity min_log2_capacity insert num_keys table];
    intros Hr Hc Hk Hh Hi.
  - apply (boost_insert_num_keys k fuel m hash); try assumption;
      [now apply reachable_inv|unfold wordsize; lia].
  - now apply (abseil_insert_num_keys k fuel m hash).
Qed.

Lemma num_keys_range v k (m : table v) :
  reachable v m -> has_capacity v m (2 ^ k) ->
  0 <= num_keys v m <= N v * 2 ^ k.
Proof.
  destruct v; cbn [reachable has_capacity num_keys N table]; intros Hr Hc.
  - pose proof (boost_num_keys_range m (reachable_inv m Hr)) as H.
    rewrite Hc in H. unfold boost_map.N. lia.
  - pose proof (abseil_num_keys_range m) as H. rewrite Hc in H. lia.
Qed.

(** X11.  An insertion that returns true adds exactly one key to the table
    and one that returns false adds none; a reachable table of [2^k] groups
    never holds more than [N * 2^k] keys. *)
Theorem insert_counts_keys (v : variant) (k : Z) (fuel : nat)
    (m m' : table v) (hash : Z) (b : bool) :
  reachable v m -> has_capacity v m (2 ^ k) ->
  min_log2_capacity v <= k <= 59 -> 0 <= hash < modulus ->
  insert v fuel m hash = Some (m', b) ->
  num_keys v m' = num_keys v m + (if b then 1 else 0) /\
  0 <= num_keys v m' <= N v * 2 ^ k.
Proof.
  intros Hr Hc Hk Hh Hi. split.
  - exact (insert_num_keys v k fuel m m' hash b Hr Hc Hk Hh Hi).
  - apply num_keys_range.
    + exact (reachable_insert v fuel m m' hash b Hr Hh Hi).
    + apply (has_capacity_preserved v m); [|assumption].
      exact (proj1 (insert_preserved v fuel m m' hash b Hi)).
Qed.

Lemma insert_counts_keys_witness :
  num_keys abseil (abseil_map.set_element_at (abseil_map.make 1) 5 (Some 643))
  = num_keys abseil (abseil_map.make 1) + 1.
Proof.
  apply (insert_counts_keys abseil 0 1 (abseil_map.make 1) _ 643 true).
  - apply abseil_map.reachable_make. rewrite modulus_eq. lia.
  - reflexivity.
  - cbn. lia.
  - rewrite modulus_eq. lia.
  - reflexivity.
Defined.

(** ** The range of the saturation probability *)


Section boost_saturation.
Import boost_map.


End boost_saturation.

Section abseil_saturation_range.
Import abseil_map(N, table, elements, size, element_at, window, is_empty,
                  num_full, sliding_full, pr_group_full).
Variables (m : table) (k : Z).
Hypothesis Hsize : size m = 2 ^ k * N.
Hypothesis Hk : 0 <= k <= 59.



End abseil_saturation_range.



(** ** The simulation driver *)

Section driver_fill.
Variable draw : Z -> nat -> Z.
Hypothesis Hdraw : forall s i, 0 <= draw s i < modulus.

(** The filling loop ends with exactly the missing keys added, and every
    value it drew until then is in the table. *)
Lemma fill_spec v k fuel ifuel : forall (m m' : table v) (n size : Z) (i : nat),
  reachable v m -> has_capacity v m (2 ^ k) ->
  min_log2_capacity v <= k <= 59 ->
  0 <= n <= size -> size < modulus ->
  fill draw fuel v m n size i ifuel = Some m' ->
  reachable v m' /\ preserved v m m' /\
  num_keys v m' = num_keys v m + (size - n) /\
  forall j : nat, (i <= j)%nat -> Z.of_nat (j - i) < size - n ->
    stored v m' (draw 0 j).
Proof.
  induction fuel as [|fuel IH]; intros m m' n size i Hr Hc Hk Hn Hs H;
    cbn [fill] in H; destruct (n =? size) eqn:E.
  - apply Z.eqb_eq in E. injection H as <-.
    repeat split; [assumption|apply preserved_refl|lia|intros; lia].
  - discriminate.
  - apply Z.eqb_eq in E. injection H as <-.
    repeat split; [assumption|apply preserved_refl|lia|intros; lia].
  - apply Z.eqb_neq in E.
    destruct (insert v ifuel m (draw 0 i)) as [[m1 b]|] eqn:Hi; [|discriminate].
    pose proof (reachable_insert v ifuel m m1 _ b Hr (Hdraw 0 i) Hi) as Hr1.
    destruct (insert_preserved v ifuel m m1 _ b Hi) as [Hp1 _].
    pose proof (has_capacity_preserved v m m1 _ Hp1 Hc) as Hc1.
    pose proof (insert_num_keys v k ifuel m m1 _ b Hr Hc Hk (Hdraw 0 i) Hi)
      as Hk1.
    pose proof (insert_stores v k ifuel m m1 _ b Hr Hc Hk (Hdraw 0 i) Hi)
      as Hst.
    assert (Hw : wrap (n + 1) = n + 1) by (apply wrap_small; lia).
    assert (Hn1 : 0 <= (if b then wrap (n + 1) else n) <= size)
      by (destruct b; lia).
    destruct (IH m1 m' _ size (S i) Hr1 Hc1 Hk Hn1 Hs H)
      as (Hr' & Hp' & Hk' & Hst').
    split; [assumption|]. split; [now apply (preserved_trans v m m1 m')|].
    split; [destruct b; lia|].
    intros j Hj Hlt. destruct (decide (j = i)) as [->|Hne].
    + now apply (stored_preserved v m1 m').
    + apply Hst'; [lia|]. destruct b; lia.
Qed.

End driver_fill.

(** X13.  When [stats_row] produces a row for a table of [2^k] groups, the
    target size was defined and its filling loop has returned a reachable
    table that holds exactly that number of keys, which therefore is at most
    [N * 2^k]; the row's saturation probability is that table's; and every
    one of the target-many values the successful-lookup pass reads is stored
    in the table, so each of those lookups that returns reports a hit. *)
Theorem stats_row_fills_to_target (draw : Z -> nat -> Z) (fuel : nat)
    (v : variant) (k : Z) (lf : float) (r : row) :
  (forall s i, 0 <= draw s i < modulus) ->
  min_log2_capacity v <= k <= 59 ->
  stats_row draw fuel v (2 ^ k) lf = Some r ->
  exists (size : Z) (m : table v),
    target_size v (2 ^ k) lf = Some size /\
    fill draw fuel v (make v (2 ^ k)) 0 size 0 fuel = Some m /\
    reachable v m /\ has_capacity v m (2 ^ k) /\
    num_keys v m = size /\ size <= N v * 2 ^ k /\
    load_factor r = lf /\ pr_full r = pr_group_full v m /\
    forall j : nat, Z.of_nat j < size ->
      stored v m (draw 0 j) /\
      forall fuel' info b,
        find v fuel' m (draw 0 j) = Some (info, b) -> b = true.
Proof.
  intros Hdraw Hk H. unfold stats_row in H. cbv zeta in H.
  destruct (target_size v (2 ^ k) lf) as [size|] eqn:Ht; [|discriminate].
  destruct (fill draw fuel v (make v (2 ^ k)) 0 size 0 fuel) as [m|] eqn:Hf;
    [|discriminate].
  destruct (successful draw fuel v m 0 size 0 fuel info0) as [info1|];
    [|discriminate].
  destruct (unsuccessful draw fuel v m 0 size 0 fuel _) as [info2|];
    [|discriminate].
  injection H as <-. cbn [load_factor pr_full].
  pose proof (pow2_pos k ltac:(destruct v; cbn in Hk; lia)) as Hp.
  assert (H59 : 2 ^ k <= 2 ^ 59)
    by (apply Z.pow_le_mono_r; destruct v; cbn in Hk; lia).
  change (2 ^ 59) with 576460752303423488 in H59.
  assert (Hr0 : reachable v (make v (2 ^ k))).
  { destruct v; cbn [reachable make];
      [apply boost_map.reachable_make|apply abseil_map.reachable_make];
      rewrite modulus_eq; lia. }
  assert (Hc0 : has_capacity v (make v (2 ^ k)) (2 ^ k)).
  { destruct v; cbn [has_capacity make];
      [apply boost_make_size; lia|apply abseil_make_size; cbn in Hk; lia]. }
  assert (Hk0 : num_keys v (make v (2 ^ k)) = 0).
  { destruct v; cbn [num_keys make];
      [apply boost_num_keys_make|apply abseil_num_keys_make]. }
  pose proof (target_size_range v _ lf size Ht) as Hsz.
  destruct (fill_spec draw Hdraw v k fuel fuel _ m 0 size 0%nat Hr0 Hc0 Hk
              ltac:(lia) ltac:(lia) Hf) as (Hr & Hp' & Hn & Hst).
  pose proof (has_capacity_preserved v _ m _ Hp' Hc0) as Hc.
  exists size, m. split; [reflexivity|]. split; [exact Hf|].
  split; [assumption|]. split; [assumption|]. split; [lia|].
  split; [pose proof (num_keys_range v k m Hr Hc); lia|].
  split; [reflexivity|]. split; [reflexivity|].
  intros j Hj.
  assert (Hs : stored v m (draw 0 j)) by (apply Hst; lia).
  split; [assumption|]. intros fuel' info b Hfind.
  destruct (stored_found v k m _ Hr Hc Hk Hs) as (i & info' & Hhit).
  pose proof (find_deterministic v _ _ m _ _ _ Hfind (Hhit 0%nat)) as E.
  congruence.
Qed.

Lemma stats_row_fills_to_target_witness :
  exists m : table boost,
    target_size boost (2 ^ 1) (finite (9507089 # 16777216)) = Some 17 /\
    reachable boost m /\ num_keys boost m = 17 /\ stored boost m 919.
Proof.
  destruct (stats_row_fills_to_target
              (fun s i => (s * 500 + Z.of_nat i * 7919) mod 1000)
              40 boost 1 (finite (9507089 # 16777216))
              {| load_factor := finite (9507089 # 16777216);
                 pr_full := finite (1 # 2);
                 hops_successful := finite (2 # 17);
                 cmps_successful := finite (17 # 17);
                 hops_unsuccessful := finite (4 # 17);
                 cmps_unsuccessful := finite (0 # 17) |})
    as (size & m & Ht & _ & Hr & _ & Hn & _ & _ & _ & Hst).
  - intros s i.
    pose proof (Z.mod_pos_bound (s * 500 + Z.of_nat i * 7919) 1000).
    rewrite modulus_eq. lia.
  - cbn. lia.
  - vm_compute. reflexivity.
  - assert (E : Some size = Some 17) by (rewrite <- Ht; vm_compute; reflexivity).
    injection E as ->.
    exists m. split; [exact Ht|]. split; [exact Hr|]. split; [exact Hn|].
    refine (proj1 (Hst 1%nat _)). reflexivity.
Defined.

Section driver_successful.
Variable draw : Z -> nat -> Z.

Lemma successful_returns v k (m : table v) (size : Z) :
  reachable v m -> has_capacity v m (2 ^ k) ->
  min_log2_capacity v <= k <= 59 -> size < modulus ->
  forall (cnt : nat) (n : Z) (i : nat) (info : find_info),
    0 <= n -> n + Z.of_nat cnt = size ->
    (forall j : nat, (i <= j < i + cnt)%nat -> stored v m (draw 0 j)) ->
    exists (F : nat) (info' : find_info),
      forall fuel ifuel : nat, (cnt <= fuel)%nat -> (F <= ifuel)%nat ->
        successful draw fuel v m n size i ifuel info = Some info'.
Proof.
  intros Hr Hc Hk Hs. induction cnt as [|cnt IH]; intros n i info Hn0 Hn Hst.
  - exists 0%nat, info. intros fuel ifuel _ _.
    assert (E : (n =? size) = true) by (apply Z.eqb_eq; lia).
    destruct fuel; cbn [successful]; now rewrite E.
  - destruct (stored_found v k m (draw 0 i) Hr Hc Hk (Hst i ltac:(lia)))
      as (i0 & x & Hhit).
    assert (Hw : wrap (n + 1) = n + 1) by (apply wrap_small; lia).
    destruct (IH (n + 1) (S i) (info_add info x) ltac:(lia) ltac:(lia)
                 ltac:(intros j Hj; apply Hst; lia)) as (F & info' & HF).
    exists (Nat.max (S i0) F), info'. intros fuel ifuel Hfuel Hifuel.
    destruct fuel as [|fuel]; [lia|]. cbn [successful].
    assert (E : (n =? size) = false) by (apply Z.eqb_neq; lia).
    rewrite E.
    replace ifuel with (S i0 + (ifuel - S i0))%nat at 1 by lia.
    rewrite Hhit, Hw. apply HF; lia.
Qed.

End driver_successful.

(** X14.  Once the filling loop of [stats_row] has returned, its
    successful-lookup pass terminates: reseeded with 0 it reads the values the
    filling loop inserted, every lookup returns, and with enough fuel the pass
    yields one and the same total. *)
Theorem successful_pass_returns (draw : Z -> nat -> Z) (v : variant) (k : Z)
    (size : Z) (fuel ifuel : nat) (m : table v) :
  (forall s i, 0 <= draw s i < modulus) ->
  min_log2_capacity v <= k <= 59 -> 0 <= size < modulus ->
  fill draw fuel v (make v (2 ^ k)) 0 size 0 ifuel = Some m ->
  exists (F : nat) (info : find_info),
    forall fuel' : nat, (F <= fuel')%nat ->
      successful draw fuel' v m 0 size 0 fuel' info0 = Some info.
Proof.
  intros Hdraw Hk Hsz Hf.
  pose proof (pow2_pos k ltac:(destruct v; cbn in Hk; lia)) as Hp.
  assert (H59 : 2 ^ k <= 2 ^ 59)
    by (apply Z.pow_le_mono_r; destruct v; cbn in Hk; lia).
  change (2 ^ 59) with 576460752303423488 in H59.
  assert (Hr0 : reachable v (make v (2 ^ k))).
  { destruct v; cbn [reachable make];
      [apply boost_map.reachable_make|apply abseil_map.reachable_make];
      rewrite modulus_eq; lia. }
  assert (Hc0 : has_capacity v (make v (2 ^ k)) (2 ^ k)).
  { destruct v; cbn [has_capacity make];
      [apply boost_make_size; lia|apply abseil_make_size; cbn in Hk; lia]. }
  destruct (fill_spec draw Hdraw v k fuel ifuel _ m 0 size 0%nat Hr0 Hc0 Hk
              ltac:(lia) ltac:(lia) Hf) as (Hr & Hp' & _ & Hst).
  pose proof (has_capacity_preserved v _ m _ Hp' Hc0) as Hc.
  destruct (successful_returns draw v k m size Hr Hc Hk ltac:(lia)
              (Z.to_nat size) 0 0%nat info0 ltac:(lia) ltac:(lia))
    as (F & info & HF).
  - intros j Hj. apply Hst; lia.
  - exists (Nat.max F (Z.to_nat size)), info. intros fuel' Hfuel'.
    apply HF; lia.
Qed.

Lemma successful_pass_returns_witness :
  exists (F : nat) (info : find_info),
    forall fuel' : nat, (F <= fuel')%nat ->
      successful (fun s i => (s * 500 + Z.of_nat i * 7919) mod 1000) fuel'
        abseil
        (abseil_map.set_element_at
           (abseil_map.set_element_at (abseil_map.make 1) 0 (Some 0))
           7 (Some 919))
        0 2 0 fuel' info0
      = Some info.
Proof.
  apply (successful_pass_returns
           (fun s i => (s * 500 + Z.of_nat i * 7919) mod 1000)
           abseil 0 2 5 5).
  - intros s i.
    pose proof (Z.mod_pos_bound (s * 500 + Z.of_nat i * 7919) 1000).
    rewrite modulus_eq. lia.
  - cbn. lia.
  - rewrite modulus_eq. lia.
  - vm_compute. reflexivity.
Defined.

(** ** Filling below the full load *)

Lemma boost_room_or_full (l : list boost_map.group) :
  (exists g, g ∈ l /\ boost_map.n g < boost_map.N) \/
  boost_map.N * Z.of_nat (length l)
  <= fold_right (fun g acc => boost_map.n g + acc) 0 l.
Proof.
  induction l as [|g l [(g' & Hg' & Hn)|IH]].
  - right. cbn. lia.
  - left. exists g'. split; [now right|assumption].
  - destruct (Z_lt_le_dec (boost_map.n g) boost_map.N) as [Hn|Hn].
    + left. exists g. split; [left|assumption].
    + right. cbn [fold_right length]. lia.
Qed.

Lemma abseil_empty_or_full (l : list (option Z)) :
  None ∈ l \/
  count_if (fun x => negb (abseil_map.is_empty x)) l = Z.of_nat (length l).
Proof.
  induction l as [|[x|] l [IH|IH]].
  - right. reflexivity.
  - left. now right.
  - right. cbn [count_if length abseil_map.is_empty negb]. lia.
  - left. left.
  - left. left.
Qed.

Lemma has_space_below_full v k (m : table v) :
  has_capacity v m (2 ^ k) -> num_keys v m < N v * 2 ^ k -> has_space v m.
Proof.
  destruct v; cbn [has_capacity num_keys N has_space table]; intros Hc Hn.
  - destruct (boost_room_or_full (boost_map.groups m)) as [H|H];
      [assumption|].
    exfalso. unfold boost_map.num_keys, boost_map.size in *. lia.
  - destruct (abseil_empty_or_full (abseil_map.elements m)) as [H|H];
      [assumption|].
    exfalso. unfold abseil_map.num_keys, abseil_map.size in *. lia.
Qed.

(** X15.  When the filling loop of [stats_row] is run on a fresh table of
    [2^k] groups to a size below [N * 2^k], the map it leaves holds that many
    keys and still has space, and every lookup made in it afterwards, for a
    stored key or not, returns after fewer than [2^k] hops. *)
Theorem lookups_return_below_full_load (draw : Z -> nat -> Z)
    (fuel ifuel : nat) (v : variant) (k size : Z) (m : table v) :
  (forall s i, 0 <= draw s i < modulus) ->
  min_log2_capacity v <= k <= 59 -> 0 <= size < N v * 2 ^ k ->
  fill draw fuel v (make v (2 ^ k)) 0 size 0 ifuel = Some m ->
  num_keys v m = size /\
  has_space v m /\
  forall hash, 0 <= hash < modulus ->
    exists i : nat,
      Z.of_nat i < 2 ^ k /\
      forall fuel', (i < fuel')%nat ->
        exists info b,
          find v fuel' m hash = Some (info, b) /\ num_hops info = Z.of_nat i.
Proof.
  intros Hdraw Hk Hsz Hf.
  pose proof (pow2_pos k ltac:(destruct v; cbn in Hk; lia)) as Hp.
  assert (H59 : 2 ^ k <= 2 ^ 59)
    by (apply Z.pow_le_mono_r; destruct v; cbn in Hk; lia).
  change (2 ^ 59) with 576460752303423488 in H59.
  assert (HN : N v * 2 ^ k < modulus).
  { rewrite modulus_eq. destruct v; cbn [N];
      unfold boost_map.N, abseil_map.N; clear - Hp H59; lia. }
  assert (Hr0 : reachable v (make v (2 ^ k))).
  { destruct v; cbn [reachable make];
      [apply boost_map.reachable_make|apply abseil_map.reachable_make];
      rewrite modulus_eq; lia. }
  assert (Hc0 : has_capacity v (make v (2 ^ k)) (2 ^ k)).
  { destruct v; cbn [has_capacity make];
      [apply boost_make_size; lia|apply abseil_make_size; cbn in Hk; lia]. }
  assert (Hk0 : num_keys v (make v (2 ^ k)) = 0).
  { destruct v; cbn [num_keys make];
      [apply boost_num_keys_make|apply abseil_num_keys_make]. }
  destruct (fill_spec draw Hdraw v k fuel ifuel _ m 0 size 0%nat Hr0 Hc0 Hk
              ltac:(lia) ltac:(lia) Hf) as (Hr & Hp' & Hn & _).
  pose proof (has_capacity_preserved v _ m _ Hp' Hc0) as Hc.
  assert (Hs : has_space v m)
    by (apply (has_space_below_full v k); [assumption|lia]).
  split; [lia|]. split; [assumption|].
  intros hash Hh. clear Hf Hn Hp' Hr0 Hc0 Hk0 HN Hsz.
  destruct v;
    cbn [reachable has_capacity min_log2_capacity has_space find table] in *.
  - apply boost_find_returns; try assumption;
      [now apply reachable_inv|unfold wordsize; lia].
  - now apply abseil_find_returns.
Qed.

Lemma lookups_return_below_full_load_witness :
  let m := abseil_map.set_element_at
             (abseil_map.set_element_at (abseil_map.make 1) 0 (Some 0))
             7 (Some 919) in
  num_keys abseil m = 2 /\ has_space abseil m /\
  exists i : nat,
    Z.of_nat i < 2 ^ 0 /\
    forall fuel', (i < fuel')%nat ->
      exists info b,
        find abseil fuel' m 919 = Some (info, b) /\
        num_hops info = Z.of_nat i.
Proof.
  intros m.
  destruct (lookups_return_below_full_load
              (fun s i => (s * 500 + Z.of_nat i * 7919) mod 1000)
              5 5 abseil 0 2 m) as (Hn & Hs & Hfind).
  - intros s i.
    pose proof (Z.mod_pos_bound (s * 500 + Z.of_nat i * 7919) 1000).
    rewrite modulus_eq. lia.
  - cbn. lia.
  - vm_compute. split; [discriminate|reflexivity].
  - vm_compute. reflexivity.
  - split; [exact Hn|]. split; [exact Hs|].
    apply Hfind. rewrite modulus_eq. lia.
Defined.
